(** * fasm2bels: FASM features to BELs and connections

    A shallow embedding of [quicklogic/common/utils/fasm2bels.py] (class
    [Fasm2Bels]) and the properties of its decode / resolve pipeline:
    feature parsing, switchbox decoding, hop resolution and the unification
    of cells that occupy several grid locations.

    Conventions of the embedding
    - a Python [str] is a [string]; a Python [int] is a [Z];
    - a [dict] whose iteration order can be observed is an insertion-ordered
      association list ([dict K V], section [PyDict]); a [dict] that is only
      read by key is a [gmap]; a [set] is a [gset];
    - a method that mutates [self] is a function from the state to an
      [outcome]: normal return, a raised exception together with the state at
      the moment of the raise, or divergence (recursion / loop without end);
    - the attributes of the object are [defaultdict]s: reading [d[k]] for a
      missing key inserts the default value, also when the statement goes
      on to raise ([dict_touch], [hops_touch]);
    - [Loc] is the named tuple [(x, y)], a pair of integers. *)

From Stdlib Require Import ZArith String Ascii List Lia.
From stdpp Require Import base decidable option list gmap strings sorting.

Local Open Scope Z_scope.

Abbreviation Loc := (Z * Z)%type (only parsing).

(** ** Python primitives used by the module *)

Module Py.

(** The character class [[0-9]] of a [str] pattern. *)
Definition is_digit (c : ascii) : bool :=
  let n := nat_of_ascii c in (48 <=? n)%nat && (n <=? 57)%nat.

Definition digit_val (c : ascii) : Z := Z.of_nat (nat_of_ascii c) - 48.

(** [int(s)] for a string of decimal digits, most significant first. *)
Fixpoint int_acc (acc : Z) (s : string) : Z :=
  match s with
  | EmptyString => acc
  | String c s' => int_acc (10 * acc + digit_val c) s'
  end.

Definition int (s : string) : Z := int_acc 0 s.

Fixpoint all_digits (s : string) : bool :=
  match s with
  | EmptyString => true
  | String c s' => is_digit c && all_digits s'
  end.

(** [s.startswith(p)], returning what follows the prefix. *)
Fixpoint strip_prefix (p s : string) : option string :=
  match p, s with
  | EmptyString, _ => Some s
  | String a p', String b s' =>
      if decide (a = b) then strip_prefix p' s' else None
  | String _ _, EmptyString => None
  end.

Definition startswith (p s : string) : bool :=
  if strip_prefix p s is Some _ then true else false.

(** The longest prefix of digits and the remainder: how [[0-9]+] (or
    [[0-9]*]) consumes input when the next pattern item is not a digit. *)
Fixpoint span_digits (s : string) : string * string :=
  match s with
  | EmptyString => (EmptyString, EmptyString)
  | String c s' =>
      if is_digit c
      then let '(d, r) := span_digits s' in (String c d, r)
      else (EmptyString, s)
  end.

(** [[0-9]+]: at least one digit. *)
Definition digits1 (s : string) : option (string * string) :=
  let '(d, r) := span_digits s in
  match d with EmptyString => None | _ => Some (d, r) end.

(** [[0-9]]: exactly one digit. *)
Definition digit1 (s : string) : option (ascii * string) :=
  match s with
  | String c s' => if is_digit c then Some (c, s') else None
  | EmptyString => None
  end.

Definition newline : ascii := ascii_of_nat 10.

(** The anchor [$] (no MULTILINE flag): end of the string, or just before
    a newline that ends the string. *)
Definition re_dollar (s : string) : bool :=
  match s with
  | EmptyString => true
  | String c EmptyString => if decide (c = newline) then true else false
  | _ => false
  end.

(** [sub in s]. *)
Fixpoint contains (sub s : string) : bool :=
  startswith sub s ||
  match s with
  | EmptyString => false
  | String _ s' => contains sub s'
  end.

(** [s.replace(old, '')] for a non-empty [old]: the occurrences of [old]
    are found from left to right and do not overlap.  [skip] counts the
    characters of the current occurrence still to drop. *)
Fixpoint remove_aux (old : string) (skip : nat) (s : string) : string :=
  match s with
  | EmptyString => EmptyString
  | String c s' =>
      match skip with
      | S k => remove_aux old k s'
      | O =>
          if startswith old s
          then remove_aux old (String.length old - 1) s'
          else String c (remove_aux old 0 s')
      end
  end.

Definition remove (old s : string) : string := remove_aux old 0 s.

(** [s.split(sep, 1)] for a one-character separator: [None] when the
    separator does not occur (the list then has one element). *)
Fixpoint split1 (sep : ascii) (s : string) : option (string * string) :=
  match s with
  | EmptyString => None
  | String c s' =>
      if decide (c = sep) then Some (EmptyString, s')
      else '(a, b) ← split1 sep s'; Some (String c a, b)
  end.

End Py.

(** ** Exceptions and outcomes *)

Module RouteEntry.
Record t := mk
  { typ : string; stage_id : Z; switch_id : Z; mux_id : Z; sel_id : Z }.
End RouteEntry.

Module Feature.
Record t := mk
  { loc : Loc; typ : string; signature : string; value : Z }.
End Feature.

Inductive PinDirection := INPUT | OUTPUT.

Module SwitchboxPinLoc.
Record t := mk
  { stage_id : Z; switch_id : Z; mux_id : Z; pin_id : Z;
    pin_direction : PinDirection }.
End SwitchboxPinLoc.

(** What an [assert] of the module reports when it fails. *)
Inductive assertion :=
| MuxAlreadySet (feature : RouteEntry.t)
    (* assert mux_sel[stage][switch][mux] is None, feature *)
| NoUpstreamConnection (inp_loc : SwitchboxPinLoc.t).
    (* assert inp_loc in conn_by_dst, inp_loc *)

(** The key that a [KeyError] reports: an index of the switchbox
    topology or a name. *)
Inductive key :=
| KInt (n : Z)
| KStr (s : string).

(** The exceptions that the interpreter raises in the methods. *)
Inductive exn :=
| KeyError (k : key)
| IndexError
| ValueError
| UnboundLocalError (name : string)
| AssertionError (a : assertion).


Definition UnresolvedInternalPin (e : exn) : Prop :=
  ∃ inp_loc, e = AssertionError (NoUpstreamConnection inp_loc).

(** A pure computation: a value, an exception, or no answer within the
    recursion budget. *)
Inductive res (A : Type) :=
| Val (a : A)
| Exc (e : exn)
| NoFuel.
Arguments Val {A} a.
Arguments Exc {A} e.
Arguments NoFuel {A}.

Definition res_bind {A B} (m : res A) (k : A → res B) : res B :=
  match m with
  | Val a => k a
  | Exc e => Exc e
  | NoFuel => NoFuel
  end.

Notation "x ←r m ; k" := (res_bind m (fun x => k))
  (at level 20, m at level 100, k at level 200, only parsing).

Definition of_option {A} (e : exn) (o : option A) : res A :=
  match o with Some a => Val a | None => Exc e end.

(** [d[k]] on a [dict] with integer keys: [KeyError(k)] for a missing
    key. *)
Definition lookup_key {A} (k : Z) (d : gmap Z A) : res A :=
  of_option (KeyError (KInt k)) (d !! k).

(** A method call on an object of state [S]: it returns with the state [T],
    raises with the state it had reached, or never returns. *)
Inductive outcome (S T : Type) :=
| Ok (t : T)
| Raise (e : exn) (s : S)
| Diverge.
Arguments Ok {S T} t.
Arguments Raise {S T} e s.
Arguments Diverge {S T}.

(** The same outcome, seen through a change of the state. *)
Definition outcome_map {S T S' T'} (f : S → S') (g : T → T')
    (o : outcome S T) : outcome S' T' :=
  match o with
  | Ok t => Ok (g t)
  | Raise e s => Raise e (f s)
  | Diverge => Diverge
  end.

(** ** Insertion-ordered dictionaries *)

Abbreviation dict K V := (list (K * V)) (only parsing).

Section PyDict.
Context {K : Type} `{EqDecision K} {V : Type}.
Implicit Type d : dict K V.

Fixpoint dict_get (k : K) d : option V :=
  match d with
  | [] => None
  | (k', v) :: d' => if decide (k = k') then Some v else dict_get k d'
  end.

(** [d[k] = v]: an existing key keeps its position, a new key goes last. *)
Fixpoint dict_set (k : K) (v : V) d : dict K V :=
  match d with
  | [] => [(k, v)]
  | (k', v') :: d' =>
      if decide (k = k') then (k', v) :: d' else (k', v') :: dict_set k v d'
  end.

Definition dict_keys d : list K := d.*1.
Definition dict_values d : list V := d.*2.

Definition dict_remove (k : K) d : dict K V :=
  filter (λ kv, kv.1 ≠ k) d.

(** The keys of a dict are pairwise different. *)
Definition dict_wf d : Prop := NoDup (dict_keys d).
End PyDict.

(** [d[k]] on a [defaultdict]: the default when the key is missing. *)
Definition dict_get_default {K} `{EqDecision K} {V} (dflt : V) (k : K)
    (d : dict K V) : V :=
  default dflt (dict_get k d).

(** ** The state of a [Fasm2Bels] object

    Only the attributes written after construction are part of the state;
    the device data ([multiloccells], the switchbox grid and types) is read
    only and passed separately.  [Src] is the type of the values of
    [designconnections]: a source name (a [str]) until [resolve_hops] has
    run, a pair [(location, name)] afterwards.  [belinversion] is the
    attribute of that name assigned by [resolve_multiloc_cells]; it does not
    exist before. *)

Abbreviation settings := (dict Loc (dict string (list string))) (only parsing).

Record Fasm2Bels (Src : Type) := mkFasm2Bels
  { routingdata : dict Loc (list RouteEntry.t);
    belinversions : settings;
    belinversion : option settings;
    interfaces : settings;
    designconnections : dict Loc (dict string Src);
    designhops : gmap Loc (gmap string string) }.
Arguments mkFasm2Bels {Src}.
Arguments routingdata {Src}.
Arguments belinversions {Src}.
Arguments belinversion {Src}.
Arguments interfaces {Src}.
Arguments designconnections {Src}.
Arguments designhops {Src}.

(** The attributes as [__init__] leaves them. *)
Definition init {Src} : Fasm2Bels Src :=
  mkFasm2Bels [] [] None [] [] ∅.

Definition set_routingdata {Src} v (self : Fasm2Bels Src) : Fasm2Bels Src :=
  mkFasm2Bels v (belinversions self) (belinversion self) (interfaces self)
    (designconnections self) (designhops self).
Definition set_belinversions {Src} v (self : Fasm2Bels Src) : Fasm2Bels Src :=
  mkFasm2Bels (routingdata self) v (belinversion self) (interfaces self)
    (designconnections self) (designhops self).
Definition set_belinversion {Src} v (self : Fasm2Bels Src) : Fasm2Bels Src :=
  mkFasm2Bels (routingdata self) (belinversions self) v (interfaces self)
    (designconnections self) (designhops self).
Definition set_interfaces {Src} v (self : Fasm2Bels Src) : Fasm2Bels Src :=
  mkFasm2Bels (routingdata self) (belinversions self) (belinversion self) v
    (designconnections self) (designhops self).
Definition set_designconnections {Src Src'} (v : dict Loc (dict string Src'))
    (self : Fasm2Bels Src) : Fasm2Bels Src' :=
  mkFasm2Bels (routingdata self) (belinversions self) (belinversion self)
    (interfaces self) v (designhops self).
Definition set_designhops {Src} v (self : Fasm2Bels Src) : Fasm2Bels Src :=
  mkFasm2Bels (routingdata self) (belinversions self) (belinversion self)
    (interfaces self) (designconnections self) v.

(** [d[k]] on a [defaultdict]: a missing key is inserted with the
    default, and the dict is otherwise as it was. *)
Definition dict_touch {K} `{EqDecision K} {V} (dflt : V) (k : K)
    (d : dict K V) : dict K V :=
  match dict_get k d with
  | Some _ => d
  | None => d ++ [(k, dflt)]
  end.

(** [d[k].append(x)] on a [defaultdict(list)]. *)
Definition dict_append {K} `{EqDecision K} {A} (k : K) (x : A)
    (d : dict K (list A)) : dict K (list A) :=
  dict_set k (dict_get_default [] k d ++ [x]) d.

(** [d[k1][k2].append(x)] on a [defaultdict(lambda: defaultdict(list))]. *)
Definition dict_append2 {K1 K2} `{EqDecision K1} `{EqDecision K2} {A}
    (k1 : K1) (k2 : K2) (x : A) (d : dict K1 (dict K2 (list A)))
    : dict K1 (dict K2 (list A)) :=
  dict_set k1 (dict_append k2 x (dict_get_default [] k1 d)) d.

(** [d[k1][k2] = v] on a [defaultdict(dict)]. *)
Definition dict_set2 {K1 K2} `{EqDecision K1} `{EqDecision K2} {V}
    (k1 : K1) (k2 : K2) (v : V) (d : dict K1 (dict K2 V))
    : dict K1 (dict K2 V) :=
  dict_set k1 (dict_set k2 v (dict_get_default [] k1 d)) d.

Definition dict_get2 {K1 K2} `{EqDecision K1} `{EqDecision K2} {V}
    (k1 : K1) (k2 : K2) (d : dict K1 (dict K2 V)) : option V :=
  dict_get k1 d ≫= dict_get k2.

(** ** Parsing of features *)

Section Parsing.
Context {Src : Type}.
Implicit Type self : Fasm2Bels Src.

(** The normalisation of the setting inside [parse_logic_line]. *)
Definition logic_setting (setting : string) : string :=
  if Py.contains "ZINV." setting then Py.remove "ZINV." setting
  else if Py.contains "INV." setting then Py.remove "INV." setting
  else setting.

Definition parse_logic_line self (feature : Feature.t)
    : outcome (Fasm2Bels Src) (Fasm2Bels Src) :=
  match Py.split1 "." (Feature.signature feature) with
  | None => Raise ValueError self
  | Some (belname, setting) =>
      if Feature.value feature =? 1 then
        Ok (set_belinversions
              (dict_append2 (Feature.loc feature) belname
                 (logic_setting setting) (belinversions self)) self)
      else Ok self
  end.

Definition interface_setting (setting : string) : string :=
  Py.remove "INV." (Py.remove "ZINV." setting).

Definition parse_interface_line self (feature : Feature.t)
    : outcome (Fasm2Bels Src) (Fasm2Bels Src) :=
  match Py.split1 "." (Feature.signature feature) with
  | None => Raise ValueError self
  | Some (belname, setting) =>
      if Feature.value feature =? 1 then
        Ok (set_interfaces
              (dict_append2 (Feature.loc feature) belname
                 (interface_setting setting) (interfaces self)) self)
      else Ok self
  end.

(** [^I_highway\.IM(?P<switch_id>[0-9]+)\.I_pg(?P<sel_id>[0-9]+)$]:
    the groups [(switch_id, sel_id)]. *)
Definition match_highway (s : string) : option (string * string) :=
  s ← Py.strip_prefix "I_highway.IM" s;
  '(switch_id, s) ← Py.digits1 s;
  s ← Py.strip_prefix ".I_pg" s;
  '(sel_id, s) ← Py.digits1 s;
  if Py.re_dollar s then Some (switch_id, sel_id) else None.

(** [^I_street\.Isb(?P<stage_id>[0-9])(?P<switch_id>[0-9])\.I_M(?P<mux_id>[0-9]+)\.I_pg(?P<sel_id>[0-9]+)$]:
    the groups [(stage_id, switch_id, mux_id, sel_id)]. *)
Definition match_street (s : string)
    : option (ascii * ascii * string * string) :=
  s ← Py.strip_prefix "I_street.Isb" s;
  '(stage_id, s) ← Py.digit1 s;
  '(switch_id, s) ← Py.digit1 s;
  s ← Py.strip_prefix ".I_M" s;
  '(mux_id, s) ← Py.digits1 s;
  s ← Py.strip_prefix ".I_pg" s;
  '(sel_id, s) ← Py.digits1 s;
  if Py.re_dollar s then Some (stage_id, switch_id, mux_id, sel_id)
  else None.

(** The local variables [typ, stage_id, switch_id, mux_id, sel_id] are
    bound by the branch taken; they are unbound ([None]) when neither
    pattern matches.  In the last statement the list
    [self.routingdata[feature.loc]] is looked up first, which inserts an
    empty list for a new location; the arguments of [RouteEntry] are read
    after that, and reading the unbound [typ] raises. *)
Definition parse_routing_line self (feature : Feature.t)
    : outcome (Fasm2Bels Src) (Fasm2Bels Src) :=
  let locals : option RouteEntry.t := None in
  let locals :=
    match match_highway (Feature.signature feature) with
    | Some (switch_id, sel_id) =>
        Some (RouteEntry.mk "HIGHWAY" 3 (Py.int switch_id) 0 (Py.int sel_id))
    | None => locals
    end in
  let locals :=
    match match_street (Feature.signature feature) with
    | Some (stage_id, switch_id, mux_id, sel_id) =>
        Some (RouteEntry.mk "STREET"
                (Py.int (String stage_id EmptyString) - 1)
                (Py.int (String switch_id EmptyString) - 1)
                (Py.int mux_id) (Py.int sel_id))
    | None => locals
    end in
  let self :=
    set_routingdata (dict_touch [] (Feature.loc feature) (routingdata self))
      self in
  match locals with
  | None => Raise (UnboundLocalError "typ") self
  | Some entry =>
      Ok (set_routingdata
            (dict_append (Feature.loc feature) entry (routingdata self)) self)
  end.

(** [self.featureparsers]. *)
Definition featureparsers (typ : string)
    : option (Fasm2Bels Src → Feature.t →
              outcome (Fasm2Bels Src) (Fasm2Bels Src)) :=
  if decide (typ = "LOGIC") then Some parse_logic_line
  else if decide (typ = "QMUX") then Some parse_logic_line
  else if decide (typ = "GMUX") then Some parse_logic_line
  else if decide (typ = "INTERFACE") then Some parse_interface_line
  else if decide (typ = "ROUTING") then Some parse_routing_line
  else None.

(** The dispatch at the end of the loop body of [parse_fasm_lines]. *)
Definition parse_feature self (feature : Feature.t)
    : outcome (Fasm2Bels Src) (Fasm2Bels Src) :=
  match featureparsers (Feature.typ feature) with
  | None => Raise (KeyError (KStr (Feature.typ feature))) self
  | Some parser => parser self feature
  end.

(** The loop of [parse_fasm_lines] over features already split into
    location, type, signature and value. *)
Fixpoint parse_features self (features : list Feature.t)
    : outcome (Fasm2Bels Src) (Fasm2Bels Src) :=
  match features with
  | [] => Ok self
  | feature :: rest =>
      match parse_feature self feature with
      | Ok self' => parse_features self' rest
      | other => other
      end
  end.
End Parsing.

(** ** Device data

    Modelled from the spec: the classes and named tuples of [data_structs]
    (switchbox topology, pin locations) are imported by the module but are
    not part of its sources.  The records below carry the attributes that
    the methods read: a switchbox is a layered graph of stages, switches and
    multiplexers, each multiplexer has input pins that are either named or
    internal, and each output pin has a list of internal locations. *)

Global Instance PinDirection_eq_dec : EqDecision PinDirection.
Proof. solve_decision. Defined.

Global Instance SwitchboxPinLoc_eq_dec : EqDecision SwitchboxPinLoc.t.
Proof. solve_decision. Defined.

Global Instance RouteEntry_eq_dec : EqDecision RouteEntry.t.
Proof. solve_decision. Defined.

Module MuxPin.
Record t := mk { name : option string }.
End MuxPin.

Module Mux.
Record t := mk { inputs : gmap Z MuxPin.t }.
End Mux.

Module Switch.
Record t := mk { muxes : gmap Z Mux.t }.
End Switch.

Module Stage.
Record t := mk { switches : gmap Z Switch.t }.
End Stage.

Module OutputPin.
Record t := mk { name : string; locs : list SwitchboxPinLoc.t }.
End OutputPin.

Module Connection.
Record t := mk { src : SwitchboxPinLoc.t; dst : SwitchboxPinLoc.t }.
End Connection.

(** [outputs] is [switchbox.outputs.values()] in the order of the dict;
    [connections] is the set [switchbox.connections] in the order in
    which it is iterated. *)
Module Switchbox.
Record t := mk
  { stages : gmap Z Stage.t;
    outputs : list OutputPin.t;
    connections : list Connection.t }.
End Switchbox.

Module MultiLocCellMapping.
Record t := mk
  { typ : string; fromlocset : gset Loc; toloc : Loc;
    pinnames : gset string }.
End MultiLocCellMapping.

(** ** Switchbox decoding *)

Abbreviation mux_sel_t := (gmap Z (gmap Z (gmap Z (option Z)))) (only parsing).

Section Decode.
Variable switchbox : Switchbox.t.

(** [conn_by_dst[dst]]: the connections that end at [dst]. *)
Definition conn_by_dst (dst : SwitchboxPinLoc.t) : list Connection.t :=
  filter (λ c, Connection.dst c = dst) (Switchbox.connections switchbox).

(** The selection table with every multiplexer of the topology unset. *)
Definition mux_sel_init : mux_sel_t :=
  (λ stage,
     (λ switch, (λ _ : Mux.t, @None Z) <$> Switch.muxes switch)
       <$> Stage.switches stage)
    <$> Switchbox.stages switchbox.

(** One iteration of the loop over the features: the assertion, then the
    assignment. *)
Definition set_feature (mux_sel : mux_sel_t) (feature : RouteEntry.t)
    : res mux_sel_t :=
  by_stage ←r lookup_key (RouteEntry.stage_id feature) mux_sel;
  by_switch ←r lookup_key (RouteEntry.switch_id feature) by_stage;
  sel ←r lookup_key (RouteEntry.mux_id feature) by_switch;
  match sel with
  | Some _ => Exc (AssertionError (MuxAlreadySet feature))
  | None =>
      Val (<[RouteEntry.stage_id feature :=
               <[RouteEntry.switch_id feature :=
                   <[RouteEntry.mux_id feature :=
                       Some (RouteEntry.sel_id feature)]> by_switch]>
                 by_stage]> mux_sel)
  end.

Fixpoint set_features (mux_sel : mux_sel_t) (features : list RouteEntry.t)
    : res mux_sel_t :=
  match features with
  | [] => Val mux_sel
  | feature :: rest =>
      mux_sel ←r set_feature mux_sel feature; set_features mux_sel rest
  end.

(** [for c in cs: inp = f(c); if inp is not None: return inp] and
    [return None] after the loop. *)
Fixpoint first_found {A B} (f : A → res (option B)) (cs : list A)
    : res (option B) :=
  match cs with
  | [] => Val None
  | c :: cs' =>
      inp ←r f c;
      match inp with Some _ => Val inp | None => first_found f cs' end
  end.

(** [expand_mux], with a bound on the depth of the recursion. *)
Fixpoint expand_mux (mux_sel : mux_sel_t) (fuel : nat)
    (out_loc : SwitchboxPinLoc.t) : res (option string) :=
  match fuel with
  | O => NoFuel
  | S fuel =>
      let stage_id := SwitchboxPinLoc.stage_id out_loc in
      let switch_id := SwitchboxPinLoc.switch_id out_loc in
      let mux_id := SwitchboxPinLoc.mux_id out_loc in
      by_stage ←r lookup_key stage_id mux_sel;
      by_switch ←r lookup_key switch_id by_stage;
      sel ←r lookup_key mux_id by_switch;
      match sel with
      | None => Val None
      | Some sel =>
          stage ←r lookup_key stage_id (Switchbox.stages switchbox);
          switch ←r lookup_key switch_id (Stage.switches stage);
          mux ←r lookup_key mux_id (Switch.muxes switch);
          pin ←r lookup_key sel (Mux.inputs mux);
          match MuxPin.name pin with
          | Some name => Val (Some name)
          | None =>
              let inp_loc :=
                SwitchboxPinLoc.mk stage_id switch_id mux_id sel INPUT in
              match conn_by_dst inp_loc with
              | [] => Exc (AssertionError (NoUpstreamConnection inp_loc))
              | cs =>
                  first_found
                    (λ c, expand_mux mux_sel fuel (Connection.src c)) cs
              end
          end
      end
  end.

(** The loop over the output pins: [routes[out_pin.name] = ...]. *)
Fixpoint decode_outputs (mux_sel : mux_sel_t) (fuel : nat)
    (routes : dict string (option string)) (outs : list OutputPin.t)
    : res (dict string (option string)) :=
  match outs with
  | [] => Val routes
  | out_pin :: rest =>
      out_loc ←r of_option IndexError (head (OutputPin.locs out_pin));
      inp ←r expand_mux mux_sel fuel out_loc;
      decode_outputs mux_sel fuel
        (dict_set (OutputPin.name out_pin) inp routes) rest
  end.

Definition decode_switchbox (fuel : nat) (features : list RouteEntry.t)
    : res (dict string (option string)) :=
  mux_sel ←r set_features mux_sel_init features;
  decode_outputs mux_sel fuel [] (Switchbox.outputs switchbox).
End Decode.

(** [re.match('[VH][0-9][LRBT][0-9]', k)]: the pattern is not anchored at
    the end, so it tests the first four characters. *)
Definition is_hop_wire (k : string) : bool :=
  match k with
  | String a (String b (String c (String d _))) =>
      bool_decide (a ∈ ["V"; "H"]%char) && Py.is_digit b
      && bool_decide (c ∈ ["L"; "R"; "B"; "T"]%char) && Py.is_digit d
  | _ => false
  end.

(** [d[k1][k2] = v] on the [defaultdict(dict)] of hops. *)
Definition hops_set (loc : Loc) (k v : string)
    (hops : gmap Loc (gmap string string)) : gmap Loc (gmap string string) :=
  <[loc := <[k := v]> (default ∅ (hops !! loc))]> hops.

Definition hops_get (loc : Loc) (k : string)
    (hops : gmap Loc (gmap string string)) : option string :=
  hops !! loc ≫= (.!! k).

(** The loop of [process_switchbox] over [routes.items()]. *)
Fixpoint store_routes (loc : Loc) (routes : dict string (option string))
    (self : Fasm2Bels string) : Fasm2Bels string :=
  match routes with
  | [] => self
  | (k, None) :: rest => store_routes loc rest self
  | (k, Some v) :: rest =>
      store_routes loc rest
        (if is_hop_wire k
         then set_designhops (hops_set loc k v (designhops self)) self
         else set_designconnections
                (dict_set2 loc k v (designconnections self)) self)
  end.

Definition process_switchbox (fuel : nat) (self : Fasm2Bels string)
    (loc : Loc) (switchbox : Switchbox.t) (features : list RouteEntry.t)
    : outcome (Fasm2Bels string) (Fasm2Bels string) :=
  match decode_switchbox switchbox fuel features with
  | Val routes => Ok (store_routes loc routes self)
  | Exc e => Raise e self
  | NoFuel => Diverge
  end.

(** ** Hop resolution

    [get_name_and_hop] is imported from [connections], which is not part
    of the sources: it splits a wire name into a base name and an optional
    offset [(dx, dy)].  The methods are parameterised by it. *)

Abbreviation hops_t := (gmap Loc (gmap string string)) (only parsing).

(** [self.designhops[tloc]] on the [defaultdict(dict)] of hops: a location
    without table gets an empty one. *)
Definition hops_touch (loc : Loc) (hops : hops_t) : hops_t :=
  match hops !! loc with
  | Some _ => hops
  | None => <[loc := ∅]> hops
  end.

Section Hops.
Variable get_name_and_hop : string → string * option (Z * Z).

(** The state of the [while] loop when its condition holds: [tloc] and
    [hop = (name, offset)]. *)
Definition hop_state := (Loc * string * (Z * Z))%type.

(** One iteration of the loop body, with the hop tables before and after
    it.  [inl]: the condition holds again; [inr]: the loop ends with
    [(tloc, hop[0])]. *)
Definition hop_iter (hops : hops_t) (s : hop_state)
    : (hop_state + (Loc * string)) * hops_t :=
  let '(tloc, name, off) := s in
  let tloc := (tloc.1 + off.1, tloc.2 + off.2) in
  let hops := hops_touch tloc hops in
  let hop :=
    match hops_get tloc name hops with
    | Some v => get_name_and_hop v
    | None => (name, None)
    end in
  (match hop.2 with
   | Some off' => inl (tloc, hop.1, off')
   | None => inr (tloc, hop.1)
   end, hops).

(** The loop, for at most [fuel] iterations: [None] when it has not
    ended by then. *)
Fixpoint hop_loop (hops : hops_t) (fuel : nat) (s : hop_state)
    : option ((Loc * string) * hops_t) :=
  match fuel with
  | O => None
  | S fuel =>
      match hop_iter hops s with
      | (inr r, hops) => Some (r, hops)
      | (inl s', hops) => hop_loop hops fuel s'
      end
  end.

(** The body of the inner [for]: the new value of
    [designconnections[loc][pin]], and the hop tables after it. *)
Definition resolve_hop (hops : hops_t) (fuel : nat) (loc : Loc)
    (source : string) : option ((Loc * string) * hops_t) :=
  let hop := get_name_and_hop source in
  match hop.2 with
  | None => Some ((loc, hop.1), hops)
  | Some off => hop_loop hops fuel (loc, hop.1, off)
  end.

Fixpoint resolve_conns (hops : hops_t) (fuel : nat) (loc : Loc)
    (conns : dict string string)
    : option (dict string (Loc * string) * hops_t) :=
  match conns with
  | [] => Some ([], hops)
  | (pin, source) :: rest =>
      '(r, hops) ← resolve_hop hops fuel loc source;
      '(rest', hops) ← resolve_conns hops fuel loc rest;
      Some ((pin, r) :: rest', hops)
  end.

Fixpoint resolve_all (hops : hops_t) (fuel : nat)
    (dc : dict Loc (dict string string))
    : option (dict Loc (dict string (Loc * string)) * hops_t) :=
  match dc with
  | [] => Some ([], hops)
  | (loc, conns) :: rest =>
      '(conns', hops) ← resolve_conns hops fuel loc conns;
      '(rest', hops) ← resolve_all hops fuel rest;
      Some ((loc, conns') :: rest', hops)
  end.
End Hops.

Section Resolve.
Variable get_name_and_hop : string → string * option (Z * Z).

(** [resolve_hops]: every value of [designconnections] is replaced in
    place, in the order of iteration; the keys do not change.  The hop
    tables are left with the empty tables that the lookups have inserted. *)
Definition resolve_hops (fuel : nat) (self : Fasm2Bels string)
    : outcome (Fasm2Bels string) (Fasm2Bels (Loc * string)) :=
  match resolve_all get_name_and_hop (designhops self) fuel
          (designconnections self) with
  | Some (dc, hops) =>
      Ok (set_designconnections dc (set_designhops hops self))
  | None => Diverge
  end.

(** ** Connection resolution *)

(** The order of [(loc.x, loc.y)] tuples. *)
Definition loc_le (a b : Loc) : bool :=
  (a.1 <? b.1) || ((a.1 =? b.1) && (a.2 <=? b.2)).

Fixpoint sorted_insert (a : Loc) (l : list Loc) : list Loc :=
  match l with
  | [] => [a]
  | b :: l' => if loc_le a b then a :: l else b :: sorted_insert a l'
  end.

(** [sorted(keys, key=lambda loc: (loc.x, loc.y))]: a stable sort. *)
Definition sorted (l : list Loc) : list Loc := foldr sorted_insert [] l.

Variable vpr_switchbox_grid : gmap Loc string.
Variable vpr_switchbox_types : gmap string Switchbox.t.

(** The body of the loop of [resolve_connections]. *)
Definition resolve_connections_at (fuel : nat) (self : Fasm2Bels string)
    (loc : Loc) : outcome (Fasm2Bels string) (Fasm2Bels string) :=
  let routingfeatures := dict_get_default [] loc (routingdata self) in
  match vpr_switchbox_grid !! loc with
  | None => Ok self
  | Some typ =>
      match vpr_switchbox_types !! typ with
      | None => Raise (KeyError (KStr typ)) self
      | Some switchbox =>
          process_switchbox fuel self loc switchbox routingfeatures
      end
  end.

Fixpoint resolve_connections_loop (fuel : nat) (self : Fasm2Bels string)
    (keys : list Loc) : outcome (Fasm2Bels string) (Fasm2Bels string) :=
  match keys with
  | [] => Ok self
  | loc :: rest =>
      match resolve_connections_at fuel self loc with
      | Ok self' => resolve_connections_loop fuel self' rest
      | other => other
      end
  end.

Definition resolve_connections (fuel : nat) (self : Fasm2Bels string)
    : outcome (Fasm2Bels string) (Fasm2Bels (Loc * string)) :=
  match resolve_connections_loop fuel self
          (sorted (dict_keys (routingdata self))) with
  | Ok self' => resolve_hops fuel self'
  | Raise e s => Raise e s
  | Diverge => Diverge
  end.
End Resolve.

(** ** Unification of cells with several locations *)

Section MultiLoc.
(** [self.multiloccells], a dict from cell name to its mapping. *)
Variable multiloccells : dict string MultiLocCellMapping.t.

Fixpoint remap_in (mappings : list MultiLocCellMapping.t) (loc : Loc)
    (pinname celltype : option string) : Loc :=
  match mappings with
  | [] => loc
  | multiloc :: rest =>
      if (match pinname with
          | None => true
          | Some p => bool_decide (p ∈ MultiLocCellMapping.pinnames multiloc)
          end
          || bool_decide (celltype = Some (MultiLocCellMapping.typ multiloc)))
         && bool_decide (loc ∈ MultiLocCellMapping.fromlocset multiloc)
      then MultiLocCellMapping.toloc multiloc
      else remap_in rest loc pinname celltype
  end.

Definition remap_multiloc_loc (loc : Loc) (pinname celltype : option string)
    : Loc :=
  remap_in (dict_values multiloccells) loc pinname celltype.

(** [d[k1][k2].extend(l)] on a [defaultdict(lambda: defaultdict(list))]. *)
Definition dict_extend2 (k1 : Loc) (k2 : string) (l : list string)
    (d : dict Loc (dict string (list string)))
    : dict Loc (dict string (list string)) :=
  let inner := dict_get_default [] k1 d in
  dict_set k1 (dict_set k2 (dict_get_default [] k2 inner ++ l) inner) d.

Definition unify_bels_at (bellockey : Loc)
    (bellocpair : dict string (list string))
    (acc : dict Loc (dict string (list string)))
    : dict Loc (dict string (list string)) :=
  foldl (λ acc '(belloctype, belloc),
           if dict_get belloctype multiloccells is Some _
           then dict_extend2
                  (remap_multiloc_loc bellockey None (Some belloctype))
                  belloctype belloc acc
           else acc)
    acc bellocpair.

(** The first loop of [resolve_multiloc_cells]: [newbelinversions]. *)
Definition unify_bels (bels : dict Loc (dict string (list string)))
    : dict Loc (dict string (list string)) :=
  foldl (λ acc '(bellockey, bellocpair),
           unify_bels_at bellockey bellocpair acc) [] bels.

Definition unify_conns_at (loc : Loc) (conns : dict string (Loc * string))
    (acc : dict Loc (dict string (Loc * string)))
    : dict Loc (dict string (Loc * string)) :=
  foldl (λ acc '(pin, src),
           let dstloc := remap_multiloc_loc loc (Some pin) None in
           let srcloc := remap_multiloc_loc src.1 (Some src.2) None in
           dict_set2 dstloc pin (srcloc, src.2) acc)
    acc conns.

(** The second loop: [newdesignconnections]. *)
Definition unify_conns (dc : dict Loc (dict string (Loc * string)))
    : dict Loc (dict string (Loc * string)) :=
  foldl (λ acc '(loc, conns), unify_conns_at loc conns acc) [] dc.

(** The first result is stored in the attribute [belinversion], the
    second one in [designconnections]. *)
Definition resolve_multiloc_cells (self : Fasm2Bels (Loc * string))
    : Fasm2Bels (Loc * string) :=
  let newbelinversions := unify_bels (belinversions self) in
  let newdesignconnections := unify_conns (designconnections self) in
  set_designconnections newdesignconnections
    (set_belinversion (Some newbelinversions) self).
End MultiLoc.

(** What [produce_verilog] reads from the object and hands to the
    generator of the Verilog module: [self.belinversions],
    [self.interfaces] and [self.designconnections]. *)
Definition produce_verilog_inputs (self : Fasm2Bels (Loc * string))
    : settings * settings * dict Loc (dict string (Loc * string)) :=
  (belinversions self, interfaces self, designconnections self).

(** ** The pipeline

    [convert_to_verilog] up to the call of the generator: the features are
    parsed into a new object, the connections are resolved, the cells with
    several locations are unified, and [produce_verilog] reads its inputs. *)
Definition convert_to_verilog
    (get_name_and_hop : string → string * option (Z * Z))
    (vpr_switchbox_grid : gmap Loc string)
    (vpr_switchbox_types : gmap string Switchbox.t)
    (multiloccells : dict string MultiLocCellMapping.t)
    (fuel : nat) (features : list Feature.t)
    : outcome (Fasm2Bels string)
        (settings * settings * dict Loc (dict string (Loc * string))) :=
  match parse_features init features with
  | Ok self =>
      match resolve_connections get_name_and_hop vpr_switchbox_grid
              vpr_switchbox_types fuel self with
      | Ok self =>
          Ok (produce_verilog_inputs
                (resolve_multiloc_cells multiloccells self))
      | Raise e s => Raise e s
      | Diverge => Diverge
      end
  | Raise e s => Raise e s
  | Diverge => Diverge
  end.

(** ** Addresses of multiplexers *)

(** The [(stage, switch, mux)] triple that a routing feature addresses. *)
Definition triple (feature : RouteEntry.t) : Z * Z * Z :=
  (RouteEntry.stage_id feature, RouteEntry.switch_id feature,
   RouteEntry.mux_id feature).

(** The multiplexer of the topology at an address, if it is defined. *)
Definition mux_at (switchbox : Switchbox.t) (t : Z * Z * Z) : option Mux.t :=
  stage ← Switchbox.stages switchbox !! t.1.1;
  switch ← Stage.switches stage !! t.1.2;
  Switch.muxes switch !! t.2.

(** [mux_sel[stage][switch][mux]], [None] for a missing key. *)
Definition sel_at (mux_sel : mux_sel_t) (t : Z * Z * Z) : option (option Z) :=
  by_stage ← mux_sel !! t.1.1;
  by_switch ← by_stage !! t.1.2;
  by_switch !! t.2.

Definition loc_triple (l : SwitchboxPinLoc.t) : Z * Z * Z :=
  (SwitchboxPinLoc.stage_id l, SwitchboxPinLoc.switch_id l,
   SwitchboxPinLoc.mux_id l).

(** Every output pin of the switchbox has a first internal location, and
    it is the address of a multiplexer of the topology. *)
Definition outputs_wf (switchbox : Switchbox.t) : Prop :=
  ∀ out_pin, out_pin ∈ Switchbox.outputs switchbox →
    ∃ out_loc, head (OutputPin.locs out_pin) = Some out_loc ∧
               is_Some (mux_at switchbox (loc_triple out_loc)).

(** The index that is missing when the topology has no multiplexer at an
    address: the stage, or else the switch, or else the multiplexer. *)
Definition missing_key (switchbox : Switchbox.t) (t : Z * Z * Z) : Z :=
  match Switchbox.stages switchbox !! t.1.1 with
  | None => t.1.1
  | Some stage =>
      match Stage.switches stage !! t.1.2 with
      | None => t.1.2
      | Some _ => t.2
      end
  end.

(** The same for the selection table: the index at which the lookup
    [mux_sel[stage][switch][mux]] fails when it does. *)
Definition missing_sel_key (mux_sel : mux_sel_t) (t : Z * Z * Z) : Z :=
  match mux_sel !! t.1.1 with
  | None => t.1.1
  | Some by_stage =>
      match by_stage !! t.1.2 with
      | None => t.1.2
      | Some _ => t.2
      end
  end.

(** The selection table after the addresses [done] have been written,
    each once: an entry of [done] is set, any other entry is unset if the
    topology has a multiplexer there and missing otherwise, at the same
    index as in the topology. *)
Definition written (switchbox : Switchbox.t) (mux_sel : mux_sel_t)
    (done : list (Z * Z * Z)) : Prop :=
  ∀ t, (if decide (t ∈ done) then ∃ sel, sel_at mux_sel t = Some (Some sel)
        else sel_at mux_sel t = (λ _, None) <$> mux_at switchbox t) ∧
       missing_sel_key mux_sel t = missing_key switchbox t.

(** The exception with which the loop over the features ends, if any:
    the first feature whose address is already in [done] fails the
    assertion, the first one whose address is not in the table raises
    [KeyError] for the index that is missing. *)
Fixpoint first_fault (switchbox : Switchbox.t) (done : list (Z * Z * Z))
    (features : list RouteEntry.t) : option exn :=
  match features with
  | [] => None
  | feature :: rest =>
      if decide (triple feature ∈ done)
      then Some (AssertionError (MuxAlreadySet feature))
      else if mux_at switchbox (triple feature) is Some _
           then first_fault switchbox (triple feature :: done) rest
           else Some (KeyError (KInt (missing_key switchbox (triple feature))))
  end.

(** ** Iterating the hop loop *)

Section HopRuns.
Variable get_name_and_hop : string → string * option (Z * Z).
Variable hops : gmap Loc (gmap string string).

(** What an iteration of the loop continues or ends with.  The empty
    tables that the lookups insert hold no hop, so the course of the loop
    can be read off the tables as they are when it starts. *)
Definition hop_next (s : hop_state) : hop_state + (Loc * string) :=
  (hop_iter get_name_and_hop hops s).1.

(** The state after [n] iterations of the loop, if its condition held
    after each of them. *)
Fixpoint hop_run (n : nat) (s : hop_state) : option hop_state :=
  match n with
  | O => Some s
  | S n =>
      match hop_next s with
      | inl s' => hop_run n s'
      | inr _ => None
      end
  end.

(** The states after the iterations [1 .. n], as long as the loop
    goes on. *)
Fixpoint hop_trace (n : nat) (s : hop_state) : list hop_state :=
  match n with
  | O => []
  | S n =>
      match hop_next s with
      | inl s' => s' :: hop_trace n s'
      | inr _ => []
      end
  end.

(** The hop lookup is acyclic: no state of the loop comes back after
    one or more iterations. *)
Definition hops_acyclic : Prop :=
  ∀ s n, hop_run (S n) s ≠ Some s.

(** The states that an iteration can continue with: one for each entry
    of the hop tables whose value is itself a hop. *)
Definition hop_targets : list hop_state :=
  '(tloc, table) ← map_to_list hops;
  '(name, v) ← map_to_list table;
  match (get_name_and_hop v).2 with
  | Some off => [(tloc, (get_name_and_hop v).1, off)]
  | None => []
  end.

(** The results of the loops of [resolve_hops] as the tables at the start
    determine them: what the [while] loop ends with within [fuel]
    iterations, and the new values for a source, for the connections of a
    location and for the whole map. *)
Fixpoint hop_result (fuel : nat) (s : hop_state) : option (Loc * string) :=
  match fuel with
  | O => None
  | S fuel =>
      match hop_next s with
      | inr r => Some r
      | inl s' => hop_result fuel s'
      end
  end.

Definition hop_resolution (fuel : nat) (loc : Loc) (source : string)
    : option (Loc * string) :=
  let hop := get_name_and_hop source in
  match hop.2 with
  | None => Some (loc, hop.1)
  | Some off => hop_result fuel (loc, hop.1, off)
  end.

Fixpoint conns_resolution (fuel : nat) (loc : Loc)
    (conns : dict string string) : option (dict string (Loc * string)) :=
  match conns with
  | [] => Some []
  | (pin, source) :: rest =>
      r ← hop_resolution fuel loc source;
      rest' ← conns_resolution fuel loc rest;
      Some ((pin, r) :: rest')
  end.

Fixpoint all_resolution (fuel : nat) (dc : dict Loc (dict string string))
    : option (dict Loc (dict string (Loc * string))) :=
  match dc with
  | [] => Some []
  | (loc, conns) :: rest =>
      conns' ← conns_resolution fuel loc conns;
      rest' ← all_resolution fuel rest;
      Some ((loc, conns') :: rest')
  end.

(** [hops'] is [hops] with empty tables at some locations that had
    none. *)
Definition hops_touched (hops' : hops_t) : Prop :=
  ∀ loc, hops' !! loc = hops !! loc ∨
         (hops !! loc = None ∧ hops' !! loc = Some ∅).
End HopRuns.

(** Modelled from the spec: [connections.get_name_and_hop] is not part of
    the sources.  The design says that a hop name encodes a base pin name
    and a directional offset, and that a name which is not a hop name is
    returned as it is, without offset.  This decoder reads a name
    [<base>_<side><n>], with a side [T], [B], [R] or [L] and one digit [n],
    as the base name with the offset of [n] tiles to the top (increasing
    [y]), bottom, right (increasing [x]) or left.  It only serves as an
    instance in the examples; the properties below hold for every decoder. *)
Definition get_name_and_hop_model (name : string) : string * option (Z * Z) :=
  match Py.split1 "_" name with
  | Some (base, String side (String n EmptyString)) =>
      if Py.is_digit n then
        let len := Py.digit_val n in
        if decide (side = "T"%char) then (base, Some (0, len))
        else if decide (side = "B"%char) then (base, Some (0, - len))
        else if decide (side = "R"%char) then (base, Some (len, 0))
        else if decide (side = "L"%char) then (base, Some (- len, 0))
        else (name, None)
      else (name, None)
  | _ => (name, None)
  end.

(** ** Tables of multi-location cells *)

(** No canonical location lies in the footprint of a cell with another
    canonical location. *)
Definition canonical_apart (multiloccells : dict string MultiLocCellMapping.t)
    : Prop :=
  ∀ a b, a ∈ dict_values multiloccells → b ∈ dict_values multiloccells →
    MultiLocCellMapping.toloc a ∈ MultiLocCellMapping.fromlocset b →
    MultiLocCellMapping.toloc b = MultiLocCellMapping.toloc a.

(** The entry [conns] of the connection map at [loc] is a non-empty dict
    whose locations are not moved by the remapping. *)
Definition unified_at (multiloccells : dict string MultiLocCellMapping.t)
    (entry : Loc * dict string (Loc * string)) : Prop :=
  dict_wf entry.2 ∧ entry.2 ≠ [] ∧
  Forall (λ conn : string * (Loc * string),
            remap_multiloc_loc multiloccells entry.1 (Some conn.1) None
            = entry.1 ∧
            remap_multiloc_loc multiloccells conn.2.1 (Some conn.2.2) None
            = conn.2.1) entry.2.

Definition unified (multiloccells : dict string MultiLocCellMapping.t)
    (dc : dict Loc (dict string (Loc * string))) : Prop :=
  dict_wf dc ∧ Forall (unified_at multiloccells) dc.

(** ** The two routing patterns, as sets of strings

    A string matches a pattern when it is the literal text with a non-empty
    run of decimal digits (one digit for the stage and the switch of a
    STREET) in each named group; [$] also accepts one final newline. *)

Definition digits (s : string) : Prop :=
  Py.all_digits s = true ∧ s ≠ EmptyString.

Definition re_tail (t : string) : Prop :=
  t = EmptyString ∨ t = String Py.newline EmptyString.

Definition highway_signature (s switch_id sel_id : string) : Prop :=
  digits switch_id ∧ digits sel_id ∧
  ∃ t, re_tail t ∧
       s = "I_highway.IM" +:+ switch_id +:+ ".I_pg" +:+ sel_id +:+ t.

Definition street_signature (s : string) (stage_id switch_id : ascii)
    (mux_id sel_id : string) : Prop :=
  Py.is_digit stage_id = true ∧ Py.is_digit switch_id = true ∧
  digits mux_id ∧ digits sel_id ∧
  ∃ t, re_tail t ∧
       s = "I_street.Isb" +:+ String stage_id (String switch_id
             (".I_M" +:+ mux_id +:+ ".I_pg" +:+ sel_id +:+ t)).

(** The text after a run of digits does not start with a digit. *)
Definition no_digit_head (r : string) : bool :=
  match r with
  | EmptyString => true
  | String c _ => negb (Py.is_digit c)
  end.

(** ** Lines of a FASM file

    The tuples [FasmLine] and [SetFeature] of the [fasm] library, with the
    fields that [parse_fasm_lines] reads. *)

Module SetFeature.
Record t := mk { feature : string; value : Z }.
End SetFeature.

Module FasmLine.
Record t := mk { set_feature : option SetFeature.t }.
End FasmLine.

(** The character class [[A-Z]] of a [str] pattern. *)
Definition is_upper (c : ascii) : bool :=
  let n := nat_of_ascii c in (65 <=? n)%nat && (n <=? 90)%nat.

Fixpoint span_upper (s : string) : string * string :=
  match s with
  | EmptyString => (EmptyString, EmptyString)
  | String c s' =>
      if is_upper c
      then let '(u, r) := span_upper s' in (String c u, r)
      else (EmptyString, s)
  end.

(** [[A-Z]+]: at least one capital letter. *)
Definition uppers1 (s : string) : option (string * string) :=
  let '(u, r) := span_upper s in
  match u with EmptyString => None | _ => Some (u, r) end.

(** [.*]: the longest prefix without a newline, which [.] does not match. *)
Fixpoint span_line (s : string) : string * string :=
  match s with
  | EmptyString => (EmptyString, EmptyString)
  | String c s' =>
      if decide (c = Py.newline) then (EmptyString, s)
      else let '(l, r) := span_line s' in (String c l, r)
  end.

(** The pattern [loctyp]: [X], the digits of [x], [Y], the digits of [y],
    a dot, the capital letters of [type], a dot, and as [signature] what is
    left up to the end of the line.  The groups [(x, y, type, signature)]. *)
Definition match_loctyp (s : string)
    : option (string * string * string * string) :=
  s ← Py.strip_prefix "X" s;
  '(x, s) ← Py.digits1 s;
  s ← Py.strip_prefix "Y" s;
  '(y, s) ← Py.digits1 s;
  s ← Py.strip_prefix "." s;
  '(typ, s) ← uppers1 s;
  s ← Py.strip_prefix "." s;
  let '(signature, s) := span_line s in
  if Py.re_dollar s then Some (x, y, typ, signature) else None.

(** What [parse_fasm_lines] raises: the exception of the class
    [Fasm2BelsException] for a feature that the pattern does not match, or
    what the parser of the feature raises. *)
Inductive fasm_exn :=
| Fasm2BelsException (set_feature : SetFeature.t)
| ParserError (e : exn).

(** The error of the design document for a feature whose text is not of
    a supported format: the exception of the module. *)
Definition UnsupportedFeatureFormat (e : fasm_exn) : Prop :=
  ∃ set_feature, e = Fasm2BelsException set_feature.

Inductive fasm_outcome (S : Type) :=
| FasmOk (s : S)
| FasmRaise (e : fasm_exn) (s : S)
| FasmDiverge.
Arguments FasmOk {S} s.
Arguments FasmRaise {S} e s.
Arguments FasmDiverge {S}.

Fixpoint parse_fasm_lines {Src} (self : Fasm2Bels Src)
    (fasmlines : list FasmLine.t) : fasm_outcome (Fasm2Bels Src) :=
  match fasmlines with
  | [] => FasmOk self
  | line :: rest =>
      match FasmLine.set_feature line with
      | None => parse_fasm_lines self rest
      | Some set_feature =>
          match match_loctyp (SetFeature.feature set_feature) with
          | None => FasmRaise (Fasm2BelsException set_feature) self
          | Some (x, y, typ, signature) =>
              match parse_feature self
                      (Feature.mk (Py.int x, Py.int y) typ signature
                         (SetFeature.value set_feature)) with
              | Ok self' => parse_fasm_lines self' rest
              | Raise e s => FasmRaise (ParserError e) s
              | Diverge => FasmDiverge
              end
          end
      end
  end.

(** The feature that a line gives to the parsers, when its text matches. *)
Definition line_feature (set_feature : SetFeature.t) : option Feature.t :=
  '(x, y, typ, signature) ← match_loctyp (SetFeature.feature set_feature);
  Some (Feature.mk (Py.int x, Py.int y) typ signature
          (SetFeature.value set_feature)).

(** ** Pin constraints: [parse_pcf] *)

(** [str.isspace] for the characters with a code below 256. *)
Definition is_space (c : ascii) : bool :=
  let n := nat_of_ascii c in
  ((9 <=? n)%nat && (n <=? 13)%nat) || ((28 <=? n)%nat && (n <=? 32)%nat)
  || (n =? 133)%nat || (n =? 160)%nat.

(** The word that starts the string, without a leading space, and the
    words after it. *)
Fixpoint split_go (s : string) : string * list string :=
  match s with
  | EmptyString => (EmptyString, [])
  | String c s' =>
      let '(w, ws) := split_go s' in
      if is_space c
      then (EmptyString, match w with EmptyString => ws | _ => w :: ws end)
      else (String c w, ws)
  end.

(** [l.strip().split()]: the words between runs of white space. *)
Definition split_words (s : string) : list string :=
  let '(w, ws) := split_go s in
  match w with EmptyString => ws | _ => w :: ws end.

(** The body of the loop of [parse_pcf] for one line of the file. *)
Definition parse_pcf_line (pcf_data : dict string string) (l : string)
    : dict string string :=
  match split_words l with
  | [w0; w1; w2] =>
      if decide (w0 = "set_io") then dict_set w2 w1 pcf_data else pcf_data
  | _ => pcf_data
  end.

(** [parse_pcf], on the lines of the file. *)
Definition parse_pcf (lines : list string) : dict string string :=
  foldl parse_pcf_line [] lines.

(** ** Entries of the maps *)

(** The entries of a nested dict, in the order of iteration. *)
Definition entries {K1 K2 V} (d : dict K1 (dict K2 V)) : list (K1 * K2 * V) :=
  '(k1, inner) ← d; '(k2, v) ← inner; [(k1, k2, v)].

(** The selector that the features give for an address: that of the first
    feature with this address. *)
Definition selection (features : list RouteEntry.t) (t : Z * Z * Z)
    : option Z :=
  RouteEntry.sel_id <$> head (filter (λ f, triple f = t) features).

(** The selection table holds the selectors of [features] and is unset at
    every other multiplexer of the topology; where it has no entry, the
    index that is missing is the one missing in the topology. *)
Definition holds_selection (switchbox : Switchbox.t) (mux_sel : mux_sel_t)
    (features : list RouteEntry.t) : Prop :=
  ∀ t, sel_at mux_sel t
       = match selection features t with
         | Some sel => Some (Some sel)
         | None => (λ _, None) <$> mux_at switchbox t
         end ∧
       missing_sel_key mux_sel t = missing_key switchbox t.

(** The lists of settings that [resolve_multiloc_cells] moves to the
    location [loc] for the cell type [typ]. *)
Definition moved_settings (multiloccells : dict string MultiLocCellMapping.t)
    (bels : settings) (loc : Loc) (typ : string) : list (list string) :=
  (λ e : Loc * string * list string, e.2) <$>
  filter (λ e : Loc * string * list string,
            e.1.2 = typ ∧ is_Some (dict_get typ multiloccells) ∧
            remap_multiloc_loc multiloccells e.1.1 None (Some typ) = loc)
    (entries bels).

(** The connections that [resolve_multiloc_cells] writes at [loc] for the
    pin [pin], in the order in which it writes them. *)
Definition moved_conns (multiloccells : dict string MultiLocCellMapping.t)
    (dc : dict Loc (dict string (Loc * string))) (loc : Loc) (pin : string)
    : list (Loc * string) :=
  (λ e : Loc * string * (Loc * string),
     (remap_multiloc_loc multiloccells e.2.1 (Some e.2.2) None, e.2.2)) <$>
  filter (λ e : Loc * string * (Loc * string),
            e.1.2 = pin ∧
            remap_multiloc_loc multiloccells e.1.1 (Some pin) None = loc)
    (entries dc).

(** The outcome of a parser of features, as an outcome of
    [parse_fasm_lines]. *)
Definition fasm_lift {S} (o : outcome S S) : fasm_outcome S :=
  match o with
  | Ok s => FasmOk s
  | Raise e s => FasmRaise (ParserError e) s
  | Diverge => FasmDiverge
  end.

(** The text after capital letters does not start with a capital letter. *)
Definition no_upper_head (r : string) : bool :=
  match r with
  | EmptyString => true
  | String c _ => negb (is_upper c)
  end.

Fixpoint all_upper (s : string) : bool :=
  match s with
  | EmptyString => true
  | String c s' => is_upper c && all_upper s'
  end.

(** A non-empty string of capital letters. *)
Definition uppers (s : string) : Prop :=
  all_upper s = true ∧ s ≠ EmptyString.

(** A string without newline. *)
Fixpoint one_line (s : string) : bool :=
  match s with
  | EmptyString => true
  | String c s' => (if decide (c = Py.newline) then false else true)
                   && one_line s'
  end.

Fixpoint no_space (s : string) : bool :=
  match s with
  | EmptyString => true
  | String c s' => negb (is_space c) && no_space s'
  end.

(** A non-empty word, without white space. *)
Definition word (s : string) : Prop :=
  no_space s = true ∧ s ≠ EmptyString.

(** The text of a feature that the pattern [loctyp] accepts. *)
Definition loctyp_text (s x y typ signature : string) : Prop :=
  digits x ∧ digits y ∧ uppers typ ∧ one_line signature = true ∧
  ∃ t, re_tail t ∧
       s = "X" +:+ x +:+ "Y" +:+ y +:+ "." +:+ typ +:+ "." +:+ signature
           +:+ t.

(** * Properties *)

(** ** Strings and patterns *)

Local Arguments String.append !_ _ / : simpl nomatch.

Lemma strip_prefix_app p s : Py.strip_prefix p (p +:+ s) = Some s.
Proof.
  induction p as [|a p IH]; simpl; [done|].
  by rewrite decide_True.
Qed.

Lemma strip_prefix_Some p s r : Py.strip_prefix p s = Some r → s = p +:+ r.
Proof.
  revert s; induction p as [|a p IH]; intros s; simpl.
  - by intros [= ->].
  - destruct s as [|b s]; [done|].
    case_decide; [|done]. subst. intros H. by rewrite (IH _ H).
Qed.

Lemma span_digits_app d r :
  Py.all_digits d = true → no_digit_head r = true →
  Py.span_digits (d +:+ r) = (d, r).
Proof.
  intros Hd Hr. induction d as [|c d IH]; simpl in *.
  - destruct r as [|c r]; [done|]. simpl in *.
    by destruct (Py.is_digit c).
  - apply andb_prop in Hd as [-> Hd]. by rewrite IH.
Qed.

Lemma span_digits_spec s d r :
  Py.span_digits s = (d, r) →
  s = d +:+ r ∧ Py.all_digits d = true ∧ no_digit_head r = true.
Proof.
  revert d r; induction s as [|c s IH]; intros d r; simpl.
  - by intros [= <- <-].
  - destruct (Py.is_digit c) eqn:Hc.
    + destruct (Py.span_digits s) as [d' r'] eqn:Hs.
      intros [= <- <-]. destruct (IH _ _ eq_refl) as (-> & ? & ?).
      simpl. by rewrite Hc.
    + intros [= <- <-]. simpl. by rewrite Hc.
Qed.

Lemma digits1_app d r :
  digits d → no_digit_head r = true → Py.digits1 (d +:+ r) = Some (d, r).
Proof.
  intros [Hd Hne] Hr. unfold Py.digits1. rewrite span_digits_app by done.
  by destruct d.
Qed.

Lemma digits1_Some s d r :
  Py.digits1 s = Some (d, r) →
  s = d +:+ r ∧ digits d ∧ no_digit_head r = true.
Proof.
  unfold Py.digits1. destruct (Py.span_digits s) as [d' r'] eqn:Hs.
  apply span_digits_spec in Hs as (-> & Hd & Hr).
  destruct d'; [done|]. intros [= <- <-]. by repeat split.
Qed.

Lemma re_dollar_tail t : Py.re_dollar t = true ↔ re_tail t.
Proof.
  unfold re_tail, Py.re_dollar. destruct t as [|c [|c' t]].
  - split; [by left | done].
  - destruct (decide (c = Py.newline)) as [->|Hc].
    + split; [by right | done].
    + split; [done | intros [?|[= ?]]; done].
  - split; [done | intros [?|?]; done].
Qed.

Lemma re_tail_no_digit t : re_tail t → no_digit_head t = true.
Proof. by intros [-> | ->]. Qed.

Local Arguments Py.strip_prefix : simpl never.
Local Arguments Py.digits1 : simpl never.
Local Arguments Py.re_dollar : simpl never.

Lemma match_highway_complete s switch_id sel_id :
  highway_signature s switch_id sel_id →
  match_highway s = Some (switch_id, sel_id).
Proof.
  intros (Hsw & Hsel & t & Ht & ->). unfold match_highway.
  rewrite strip_prefix_app. simpl.
  rewrite (digits1_app switch_id) by done. simpl.
  rewrite (digits1_app sel_id) by auto using re_tail_no_digit. simpl.
  by apply re_dollar_tail in Ht as ->.
Qed.

Lemma match_highway_sound s switch_id sel_id :
  match_highway s = Some (switch_id, sel_id) →
  highway_signature s switch_id sel_id.
Proof.
  unfold match_highway. intros H.
  destruct (Py.strip_prefix _ s) as [s1|] eqn:H1; [|done].
  apply strip_prefix_Some in H1 as ->. simpl in H.
  destruct (Py.digits1 s1) as [[sw s2]|] eqn:H2; [|done].
  apply digits1_Some in H2 as (-> & Hsw & _). simpl in H.
  destruct (Py.strip_prefix _ s2) as [s3|] eqn:H3; [|done].
  apply strip_prefix_Some in H3 as ->. simpl in H.
  destruct (Py.digits1 s3) as [[sel s4]|] eqn:H4; [|done].
  apply digits1_Some in H4 as (-> & Hsel & _). simpl in H.
  destruct (Py.re_dollar s4) eqn:H5; [|done].
  injection H as <- <-. apply re_dollar_tail in H5.
  repeat split; try apply Hsw; try apply Hsel. by exists s4.
Qed.

Lemma match_street_complete s stage_id switch_id mux_id sel_id :
  street_signature s stage_id switch_id mux_id sel_id →
  match_street s = Some (stage_id, switch_id, mux_id, sel_id).
Proof.
  intros (Hst & Hsw & Hmux & Hsel & t & Ht & ->). unfold match_street.
  rewrite strip_prefix_app. simpl. rewrite Hst. simpl. rewrite Hsw. simpl.
  rewrite (digits1_app mux_id) by done. simpl.
  rewrite (digits1_app sel_id) by auto using re_tail_no_digit. simpl.
  by apply re_dollar_tail in Ht as ->.
Qed.

Lemma match_street_sound s stage_id switch_id mux_id sel_id :
  match_street s = Some (stage_id, switch_id, mux_id, sel_id) →
  street_signature s stage_id switch_id mux_id sel_id.
Proof.
  unfold match_street. intros H.
  destruct (Py.strip_prefix _ s) as [s1|] eqn:H1; [|done].
  apply strip_prefix_Some in H1 as ->. simpl in H.
  destruct s1 as [|a s1]; [done|]. simpl in H.
  destruct (Py.is_digit a) eqn:Ha; [|done]. simpl in H.
  destruct s1 as [|b s1]; [done|]. simpl in H.
  destruct (Py.is_digit b) eqn:Hb; [|done]. simpl in H.
  destruct (Py.strip_prefix _ s1) as [s2|] eqn:H2; [|done].
  apply strip_prefix_Some in H2 as ->. simpl in H.
  destruct (Py.digits1 s2) as [[mux s3]|] eqn:H3; [|done].
  apply digits1_Some in H3 as (-> & Hmux & _). simpl in H.
  destruct (Py.strip_prefix _ s3) as [s4|] eqn:H4; [|done].
  apply strip_prefix_Some in H4 as ->. simpl in H.
  destruct (Py.digits1 s4) as [[sel s5]|] eqn:H5; [|done].
  apply digits1_Some in H5 as (-> & Hsel & _). simpl in H.
  destruct (Py.re_dollar s5) eqn:H6; [|done].
  injection H as <- <- <- <-. apply re_dollar_tail in H6.
  repeat split; try apply Hmux; try apply Hsel; try done. by exists s5.
Qed.

Lemma int_acc_nonneg s acc : Py.all_digits s = true → 0 ≤ acc → 0 ≤ Py.int_acc acc s.
Proof.
  revert acc; induction s as [|c s IH]; intros acc Hd Hacc; simpl in *; [done|].
  apply andb_prop in Hd as [Hc Hd]. apply IH; [done|].
  unfold Py.digit_val, Py.is_digit in *.
  apply andb_prop in Hc as [H1 H2].
  apply Nat.leb_le in H1, H2. lia.
Qed.

Lemma int_nonneg s : Py.all_digits s = true → 0 ≤ Py.int s.
Proof. intros. by apply int_acc_nonneg. Qed.

Lemma int_digit c : Py.int (String c EmptyString) = Py.digit_val c.
Proof. unfold Py.int. simpl. lia. Qed.

Lemma digit_val_range c : Py.is_digit c = true → 0 ≤ Py.digit_val c ≤ 9.
Proof.
  unfold Py.digit_val, Py.is_digit. intros Hc.
  apply andb_prop in Hc as [H1 H2]. apply Nat.leb_le in H1, H2. lia.
Qed.

Lemma startswith_app p s : Py.startswith p (p +:+ s) = true.
Proof. unfold Py.startswith. by rewrite strip_prefix_app. Qed.

Lemma contains_cons sub c s :
  Py.contains sub (String c s) = false →
  Py.startswith sub (String c s) = false ∧ Py.contains sub s = false.
Proof. simpl. intros H. by apply orb_false_elim in H. Qed.

Lemma remove_not_contains old s :
  Py.contains old s = false → Py.remove old s = s.
Proof.
  unfold Py.remove. induction s as [|c s IH]; [done|].
  intros [H1 H2]%contains_cons.
  cbn [Py.remove_aux]. rewrite H1. by rewrite IH.
Qed.

Lemma remove_aux_skip old p r :
  Py.remove_aux old (String.length p) (p +:+ r) = Py.remove_aux old 0 r.
Proof. induction p as [|c p IH]; simpl; [done|]. apply IH. Qed.

Lemma remove_prefix a old r :
  Py.remove (String a old) (String a old +:+ r) = Py.remove (String a old) r.
Proof.
  unfold Py.remove. cbn [String.append Py.remove_aux].
  replace (Py.startswith (String a old) (String a (old +:+ r))) with true
    by (symmetry; apply (startswith_app (String a old))).
  cbn [String.length]. rewrite Nat.sub_succ, Nat.sub_0_r.
  apply remove_aux_skip.
Qed.

Lemma contains_app_l sub r : Py.contains sub (sub +:+ r) = true.
Proof.
  destruct sub as [|a sub]; [by destruct r|].
  cbn [String.append Py.contains].
  replace (Py.startswith (String a sub) (String a (sub +:+ r))) with true
    by (symmetry; apply (startswith_app (String a sub))).
  done.
Qed.

(** ** Dictionaries *)

Section PyDictFacts.
Context {K : Type} `{EqDecision K} {V : Type}.
Implicit Types (d : dict K V) (k : K) (v : V).

Lemma dict_get_set_eq k v d : dict_get k (dict_set k v d) = Some v.
Proof.
  induction d as [|[k' v'] d IH]; simpl.
  - by rewrite decide_True.
  - case_decide; simpl.
    + by rewrite decide_True.
    + by rewrite decide_False.
Qed.

Lemma dict_get_set_ne k k' v d :
  k ≠ k' → dict_get k' (dict_set k v d) = dict_get k' d.
Proof.
  intros Hne. induction d as [|[k0 v0] d IH]; simpl.
  - by rewrite decide_False.
  - destruct (decide (k = k0)) as [->|]; simpl.
    + by rewrite !decide_False by congruence.
    + destruct (decide (k' = k0)); [done | apply IH].
Qed.

Lemma dict_get_None k d : dict_get k d = None ↔ k ∉ dict_keys d.
Proof.
  unfold dict_keys. induction d as [|[k' v'] d IH]; simpl.
  - split; [intros _; apply not_elem_of_nil | done].
  - rewrite not_elem_of_cons. destruct (decide (k = k')) as [->|Hne].
    + split; [done | intros [? _]; done].
    + rewrite IH. split; [by split | by intros [_ ?]].
Qed.

Lemma dict_get_Some_elem k v d : dict_get k d = Some v → (k, v) ∈ d.
Proof.
  induction d as [|[k' v'] d IH]; simpl; [done|].
  case_decide.
  - intros [= ->]. subst. apply list_elem_of_here.
  - intros. apply list_elem_of_further. auto.
Qed.

Lemma dict_set_absent k v d :
  k ∉ dict_keys d → dict_set k v d = d ++ [(k, v)].
Proof.
  unfold dict_keys. induction d as [|[k' v'] d IH]; simpl; [done|].
  rewrite not_elem_of_cons. intros [? ?].
  rewrite decide_False by done. by rewrite IH.
Qed.

Lemma dict_keys_set_present k v d :
  k ∈ dict_keys d → dict_keys (dict_set k v d) = dict_keys d.
Proof.
  unfold dict_keys. induction d as [|[k' v'] d IH]; simpl.
  - by intros ?%elem_of_nil.
  - intros Hin. case_decide; simpl; [done|].
    f_equal. apply IH. apply elem_of_cons in Hin as [?|?]; done.
Qed.

Lemma dict_wf_set k v d : dict_wf d → dict_wf (dict_set k v d).
Proof.
  unfold dict_wf. intros Hwf.
  destruct (decide (k ∈ dict_keys d)) as [Hin|Hin].
  - by rewrite dict_keys_set_present.
  - rewrite dict_set_absent by done. unfold dict_keys in *.
    rewrite fmap_app. simpl. apply NoDup_app. split_and!; [done| |].
    + intros x Hx ->%list_elem_of_singleton. done.
    + apply NoDup_singleton.
Qed.

Lemma dict_set_same k v d : dict_get k d = Some v → dict_set k v d = d.
Proof.
  induction d as [|[k' v'] d IH]; simpl; [done|].
  case_decide.
  - by intros [= ->].
  - intros H'. by rewrite IH.
Qed.

Lemma dict_set_set k v v' d : dict_set k v (dict_set k v' d) = dict_set k v d.
Proof.
  induction d as [|[k0 v0] d IH]; simpl.
  - by rewrite decide_True.
  - case_decide; simpl.
    + by rewrite decide_True.
    + rewrite decide_False by done. by rewrite IH.
Qed.

(** Reading a [defaultdict] at [k] is writing at [k] what the read
    returns. *)
Lemma dict_touch_set dflt k d :
  dict_touch dflt k d = dict_set k (dict_get_default dflt k d) d.
Proof.
  unfold dict_touch, dict_get_default.
  destruct (dict_get k d) as [v|] eqn:Hget; simpl.
  - by rewrite dict_set_same.
  - by rewrite dict_set_absent by by apply dict_get_None.
Qed.

Lemma dict_get_touch_eq dflt k d :
  dict_get k (dict_touch dflt k d) = Some (dict_get_default dflt k d).
Proof. by rewrite dict_touch_set, dict_get_set_eq. Qed.

Lemma dict_get_touch_ne dflt k k' d :
  k ≠ k' → dict_get k' (dict_touch dflt k d) = dict_get k' d.
Proof. intros. by rewrite dict_touch_set, dict_get_set_ne. Qed.

Lemma dict_get_default_touch dflt k k' d :
  dict_get_default dflt k' (dict_touch dflt k d) = dict_get_default dflt k' d.
Proof.
  unfold dict_get_default at 1. destruct (decide (k = k')) as [<-|Hne].
  - by rewrite dict_get_touch_eq.
  - by rewrite dict_get_touch_ne.
Qed.

Lemma dict_keys_touch dflt k d : k ∈ dict_keys (dict_touch dflt k d).
Proof.
  destruct (decide (k ∈ dict_keys (dict_touch dflt k d))) as [|Hn]; [done|].
  apply dict_get_None in Hn. by rewrite dict_get_touch_eq in Hn.
Qed.
End PyDictFacts.

Lemma dict_append_touch {K} `{EqDecision K} {A} (k : K) (x : A)
    (d : dict K (list A)) :
  dict_append k x (dict_touch [] k d) = dict_append k x d.
Proof.
  unfold dict_append. rewrite dict_get_default_touch.
  by rewrite dict_touch_set, dict_set_set.
Qed.

Lemma dict_get_append_eq {K} `{EqDecision K} {A} (k : K) (x : A)
    (d : dict K (list A)) :
  dict_get k (dict_append k x d) = Some (dict_get_default [] k d ++ [x]).
Proof. unfold dict_append. apply dict_get_set_eq. Qed.

Lemma dict_get_append_ne {K} `{EqDecision K} {A} (k k' : K) (x : A)
    (d : dict K (list A)) :
  k ≠ k' → dict_get k' (dict_append k x d) = dict_get k' d.
Proof. intros. unfold dict_append. by apply dict_get_set_ne. Qed.

Lemma dict_get2_append2 {K1 K2} `{EqDecision K1} `{EqDecision K2} {A}
    (k1 : K1) (k2 : K2) (x : A) (d : dict K1 (dict K2 (list A))) :
  dict_get2 k1 k2 (dict_append2 k1 k2 x d)
  = Some (default [] (dict_get2 k1 k2 d) ++ [x]).
Proof.
  unfold dict_get2, dict_append2, dict_append, dict_get_default.
  rewrite dict_get_set_eq. simpl. rewrite dict_get_set_eq.
  destruct (dict_get k1 d); reflexivity.
Qed.

Lemma dict_get2_append2_ne {K1 K2} `{EqDecision K1} `{EqDecision K2} {A}
    (k1 k1' : K1) (k2 k2' : K2) (x : A) (d : dict K1 (dict K2 (list A))) :
  (k1, k2) ≠ (k1', k2') →
  dict_get2 k1' k2' (dict_append2 k1 k2 x d) = dict_get2 k1' k2' d.
Proof.
  intros Hne. unfold dict_get2, dict_append2, dict_append, dict_get_default.
  destruct (decide (k1 = k1')) as [<-|Hk].
  - rewrite dict_get_set_eq. simpl.
    rewrite dict_get_set_ne by congruence.
    destruct (dict_get k1 d); reflexivity.
  - by rewrite dict_get_set_ne.
Qed.

(** ** Parsing of routing features *)

Lemma parse_routing_line_street {Src} (self : Fasm2Bels Src) feature
    stage_id switch_id mux_id sel_id :
  match_street (Feature.signature feature)
  = Some (stage_id, switch_id, mux_id, sel_id) →
  parse_routing_line self feature
  = Ok (set_routingdata
          (dict_append (Feature.loc feature)
             (RouteEntry.mk "STREET"
                (Py.digit_val stage_id - 1) (Py.digit_val switch_id - 1)
                (Py.int mux_id) (Py.int sel_id))
             (routingdata self)) self).
Proof.
  intros H. unfold parse_routing_line. rewrite H.
  cbn [routingdata set_routingdata]. unfold set_routingdata. simpl.
  by rewrite dict_append_touch, !int_digit.
Qed.

Lemma parse_routing_line_unmatched {Src} (self : Fasm2Bels Src) feature :
  match_highway (Feature.signature feature) = None →
  match_street (Feature.signature feature) = None →
  parse_routing_line self feature
  = Raise (UnboundLocalError "typ")
      (set_routingdata
         (dict_touch [] (Feature.loc feature) (routingdata self)) self).
Proof. intros H1 H2. unfold parse_routing_line. by rewrite H1, H2. Qed.

(** What a parser that returns has appended to [routingdata]: [entry] at
    the end of the list of [loc], with every other list and attribute as
    before. *)
Lemma set_routingdata_appended {Src} (self : Fasm2Bels Src) loc entry :
  let self' :=
    set_routingdata (dict_append loc entry (routingdata self)) self in
  dict_get loc (routingdata self')
  = Some (dict_get_default [] loc (routingdata self) ++ [entry]) ∧
  (∀ loc', loc' ≠ loc →
     dict_get loc' (routingdata self') = dict_get loc' (routingdata self)) ∧
  belinversions self' = belinversions self ∧
  interfaces self' = interfaces self ∧
  designconnections self' = designconnections self ∧
  designhops self' = designhops self.
Proof.
  simpl. split_and!; try done.
  - apply dict_get_append_eq.
  - intros loc' Hne. by apply dict_get_append_ne.
Qed.

(** C3.  A ROUTING feature whose signature matches neither the HIGHWAY
    pattern [I_highway.IM<switch>.I_pg<selector>] nor the STREET pattern
    [I_street.Isb<stage><switch>.I_M<mux>.I_pg<selector>] makes the parser
    fail, but not with the format error of the module: no branch binds
    [typ], and building the route entry raises [UnboundLocalError].  The
    exception leaves the parser, the loop over the features and
    [parse_fasm_lines].  The list of routes of the location has been looked
    up before: no route entry is recorded, at any location, but a location
    without routes is left as a key of [routingdata], with an empty list. *)
Theorem C3_unmatched_routing_feature_is_fatal {Src} (self : Fasm2Bels Src)
    (feature : Feature.t) (rest : list Feature.t) :
  Feature.typ feature = "ROUTING" →
  (∀ switch_id sel_id,
     ¬ highway_signature (Feature.signature feature) switch_id sel_id) →
  (∀ stage_id switch_id mux_id sel_id,
     ¬ street_signature (Feature.signature feature)
         stage_id switch_id mux_id sel_id) →
  ∃ self',
    parse_routing_line self feature = Raise (UnboundLocalError "typ") self' ∧
    parse_feature self feature = Raise (UnboundLocalError "typ") self' ∧
    parse_features self (feature :: rest)
    = Raise (UnboundLocalError "typ") self' ∧
    (∀ set_feature lines,
       line_feature set_feature = Some feature →
       parse_fasm_lines self (FasmLine.mk (Some set_feature) :: lines)
       = FasmRaise (ParserError (UnboundLocalError "typ")) self') ∧
    ¬ UnsupportedFeatureFormat (ParserError (UnboundLocalError "typ")) ∧
    (∀ loc, dict_get_default [] loc (routingdata self')
            = dict_get_default [] loc (routingdata self)) ∧
    dict_keys (routingdata self')
    = (if decide (Feature.loc feature ∈ dict_keys (routingdata self))
       then dict_keys (routingdata self)
       else dict_keys (routingdata self) ++ [Feature.loc feature]) ∧
    belinversions self' = belinversions self ∧
    interfaces self' = interfaces self.
Proof.
  intros Htyp Hhw Hst.
  assert (match_highway (Feature.signature feature) = None) as H1.
  { destruct (match_highway _) as [[sw sel]|] eqn:H; [|done].
    by apply match_highway_sound, Hhw in H. }
  assert (match_street (Feature.signature feature) = None) as H2.
  { destruct (match_street _) as [[[[a b] m] s]|] eqn:H; [|done].
    by apply match_street_sound, Hst in H. }
  pose proof (parse_routing_line_unmatched self feature H1 H2) as Hp.
  eexists. split; [exact Hp|].
  assert (parse_feature self feature
          = Raise (UnboundLocalError "typ")
              (set_routingdata
                 (dict_touch [] (Feature.loc feature) (routingdata self))
                 self)) as Hf.
  { unfold parse_feature. rewrite Htyp. exact Hp. }
  split; [done|]. split; [simpl; by rewrite Hf|].
  split_and!.
  - intros set_feature lines Hline. unfold line_feature in Hline.
    cbn [parse_fasm_lines FasmLine.set_feature].
    destruct (match_loctyp _) as [[[[x y] typ] signature]|]; [|done].
    simpl in Hline. injection Hline as <-. by rewrite Hf.
  - intros [set_feature [=]].
  - intros loc. cbn [routingdata set_routingdata].
    apply dict_get_default_touch.
  - cbn [routingdata set_routingdata]. unfold dict_touch.
    destruct (decide _) as [Hin|Hin].
    + destruct (dict_get _ _) eqn:Hget; [done|].
      by apply dict_get_None in Hget.
    + apply dict_get_None in Hin. rewrite Hin. unfold dict_keys.
      by rewrite fmap_app.
  - done.
  - done.
Qed.

Lemma C3_unmatched_routing_feature_witness :
  ∃ self',
    parse_fasm_lines (@init string)
      [FasmLine.mk (Some (SetFeature.mk "X1Y1.ROUTING.I_lane.IM1.I_pg2" 1));
       FasmLine.mk (Some (SetFeature.mk "X1Y1.ROUTING.I_highway.IM1.I_pg2" 1))]
    = FasmRaise (ParserError (UnboundLocalError "typ")) self' ∧
    ¬ UnsupportedFeatureFormat (ParserError (UnboundLocalError "typ")) ∧
    routingdata self' = [((1, 1), [])].
Proof.
  destruct (C3_unmatched_routing_feature_is_fatal (@init string)
              (Feature.mk (1, 1) "ROUTING" "I_lane.IM1.I_pg2" 1) [])
    as (self' & Hp & _ & _ & Hlines & Hno & _); [reflexivity | | |].
  - intros sw sel H. apply match_highway_complete in H.
    vm_compute in H. discriminate.
  - intros a b m s H. apply match_street_complete in H.
    vm_compute in H. discriminate.
  - exists self'. split; [by apply Hlines|]. split; [exact Hno|].
    vm_compute in Hp. by injection Hp as <-.
Defined.

(** C5.  The STREET signature [I_street.Isb12.I_M0.I_pg3] is recorded as
    the route entry STREET with stage 0, switch 1, mux 0 and selector 3: on
    a new object it is the only entry of [routingdata] afterwards.  In
    general, for every signature of the STREET pattern the parser returns,
    and the list of routes of the location of the feature then ends with
    an entry STREET whose stage and switch are the value of their single
    digit minus one, and whose mux and selector are the value of their
    digits, which is not negative; the routes of the other locations and
    the other attributes are as before. *)
Theorem C5_street_signature_decoding :
  (∀ loc value,
     ∃ self',
       parse_routing_line (@init string)
         (Feature.mk loc "ROUTING" "I_street.Isb12.I_M0.I_pg3" value)
       = Ok self' ∧
       routingdata self' = [(loc, [RouteEntry.mk "STREET" 0 1 0 3])]) ∧
  (∀ (self : Fasm2Bels string) feature stage_id switch_id mux_id sel_id,
     street_signature (Feature.signature feature)
       stage_id switch_id mux_id sel_id →
     (∃ self',
        parse_routing_line self feature = Ok self' ∧
        dict_get (Feature.loc feature) (routingdata self')
        = Some (dict_get_default [] (Feature.loc feature) (routingdata self)
                ++ [RouteEntry.mk "STREET"
                      (Py.digit_val stage_id - 1)
                      (Py.digit_val switch_id - 1)
                      (Py.int mux_id) (Py.int sel_id)]) ∧
        (∀ loc', loc' ≠ Feature.loc feature →
           dict_get loc' (routingdata self')
           = dict_get loc' (routingdata self)) ∧
        belinversions self' = belinversions self ∧
        interfaces self' = interfaces self ∧
        designconnections self' = designconnections self ∧
        designhops self' = designhops self) ∧
     0 ≤ Py.digit_val stage_id ≤ 9 ∧ 0 ≤ Py.digit_val switch_id ≤ 9 ∧
     0 ≤ Py.int mux_id ∧ 0 ≤ Py.int sel_id).
Proof.
  split.
  - intros loc value. eexists. split.
    + by apply (parse_routing_line_street _ _ "1"%char "2"%char "0" "3").
    + reflexivity.
  - intros self feature a b m s Hsig. split.
    + eexists. split.
      * by apply parse_routing_line_street, match_street_complete.
      * apply set_routingdata_appended.
    + destruct Hsig as (Ha & Hb & [Hm _] & [Hs _] & _).
      auto using digit_val_range, int_nonneg.
Qed.

Lemma C5_street_signature_witness :
  ∃ self',
    parse_routing_line (@init string)
      (Feature.mk (4, 7) "ROUTING" "I_street.Isb31.I_M12.I_pg007" 1)
    = Ok self' ∧
    dict_get (4, 7) (routingdata self')
    = Some [RouteEntry.mk "STREET" 2 0 12 7].
Proof.
  destruct (proj1 (proj2 C5_street_signature_decoding init
              (Feature.mk (4, 7) "ROUTING" "I_street.Isb31.I_M12.I_pg007" 1)
              "3"%char "1"%char "12" "007"
              ltac:(repeat split; try reflexivity; try discriminate;
                    exists EmptyString; split; [by left | reflexivity])))
    as (self' & Hp & Hget & _).
  exists self'. split; [exact Hp|]. exact Hget.
Defined.

(** ** Settings of logic cells *)

Lemma split1_first_separator sep belname setting :
  Py.contains (String sep EmptyString) belname = false →
  Py.split1 sep (belname +:+ String sep setting) = Some (belname, setting).
Proof.
  induction belname as [|c belname IH]; simpl.
  - intros _. by rewrite decide_True.
  - intros [H1 H2]%orb_false_elim. rewrite IH by done.
    destruct (decide (c = sep)) as [->|Hne]; [|done].
    unfold Py.startswith, Py.strip_prefix in H1.
    rewrite decide_True in H1 by done. by destruct belname.
Qed.

Lemma contains_cons_ne a sub c s :
  a ≠ c → Py.contains (String a sub) (String c s) = Py.contains (String a sub) s.
Proof.
  intros Hne. cbn [Py.contains]. unfold Py.startswith at 1.
  unfold Py.strip_prefix. by rewrite decide_False.
Qed.

(** An occurrence of [a sub] contains an occurrence of [sub]. *)
Lemma contains_drop_head a sub s :
  Py.contains (String a sub) s = true → Py.contains sub s = true.
Proof.
  induction s as [|c s IH]; [done|].
  cbn [Py.contains]. intros [H|H]%orb_prop.
  - unfold Py.startswith in H.
    destruct (Py.strip_prefix (String a sub) (String c s)) as [r|] eqn:Hr;
      [|done].
    apply strip_prefix_Some in Hr. injection Hr as -> ->.
    rewrite contains_app_l. apply orb_true_r.
  - rewrite (IH H). apply orb_true_r.
Qed.

Lemma contains_ZINV_false s :
  Py.contains "INV." s = false → Py.contains "ZINV." s = false.
Proof.
  intros H. destruct (Py.contains "ZINV." s) eqn:HZ; [|done].
  apply contains_drop_head in HZ. congruence.
Qed.

(** What [parse_logic_line] records for a setting path: the path without
    its occurrences of [ZINV.] when it has one, and without its occurrences
    of [INV.] otherwise. *)
Lemma logic_setting_eq path :
  logic_setting path
  = if Py.contains "ZINV." path then Py.remove "ZINV." path
    else Py.remove "INV." path.
Proof.
  unfold logic_setting. destruct (Py.contains "ZINV." path); [done|].
  destruct (Py.contains "INV." path) eqn:H; [done|].
  by rewrite remove_not_contains.
Qed.

Lemma split1_no_separator sep s :
  Py.contains (String sep EmptyString) s = false → Py.split1 sep s = None.
Proof.
  induction s as [|c s IH]; [done|].
  cbn [Py.contains Py.split1]. intros [H1 H2]%orb_false_elim.
  unfold Py.startswith, Py.strip_prefix in H1.
  destruct (decide (c = sep)) as [->|Hne].
  - by rewrite decide_True in H1.
  - by rewrite IH.
Qed.

Lemma split1_Some sep s a b :
  Py.split1 sep s = Some (a, b) →
  s = a +:+ String sep b ∧ Py.contains (String sep EmptyString) a = false.
Proof.
  revert a. induction s as [|c s IH]; intros a; [done|].
  cbn [Py.split1]. destruct (decide (c = sep)) as [->|Hne].
  - by intros [= <- <-].
  - destruct (Py.split1 sep s) as [[a' b']|]; [|done]. simpl.
    intros [= <- <-]. destruct (IH a' eq_refl) as [-> Ha'].
    split; [done|]. cbn [Py.contains]. rewrite Ha'.
    unfold Py.startswith, Py.strip_prefix. by rewrite decide_False.
Qed.

(** The two parsers of settings agree on a path that holds markers of one
    kind only; on the path [ZINV.INV.TA1] they differ: [parse_logic_line]
    keeps [INV.TA1], [parse_interface_line] keeps [TA1]. *)
Lemma logic_setting_one_kind path :
  (Py.contains "ZINV." path = true →
   Py.contains "INV." (Py.remove "ZINV." path) = false) →
  logic_setting path = interface_setting path.
Proof.
  intros H. rewrite logic_setting_eq. unfold interface_setting.
  destruct (Py.contains "ZINV." path) eqn:HZ.
  - by rewrite (remove_not_contains "INV.") by auto.
  - by rewrite (remove_not_contains "ZINV.").
Qed.

Lemma logic_setting_both_markers :
  logic_setting "ZINV.INV.TA1" = "INV.TA1" ∧
  interface_setting "ZINV.INV.TA1" = "TA1".
Proof. split; reflexivity. Qed.

(** The claim C6 fails as stated: a LOGIC feature with the value 1 whose
    signature has no separator records no setting; the unpacking of the
    split raises [ValueError] and the object is as it was. *)
Lemma C6_no_separator_counterexample :
  parse_feature (@init string) (Feature.mk (1, 2) "LOGIC" "BEL0" 1)
  = Raise ValueError init ∧
  belinversions (@init string) = [].
Proof. split; reflexivity. Qed.

(** C6 (amended).  For a LOGIC, QMUX or GMUX feature:
    - the feature goes to [parse_logic_line];
    - a signature without separator raises [ValueError] and records
      nothing; a signature with a separator is [belname.path] with
      [belname] free of separators;
    - for a signature [belname.path] the parser returns; with the value 1
      one setting is appended to the settings of [belname] at the location
      of the feature, after those recorded before, and nothing else
      changes; with another value nothing is recorded;
    - when the path holds markers of one kind only, the setting is the path
      without its markers [ZINV.] and [INV.]; so a path [ZINV.r] or
      [INV.r] with no further marker is recorded as [r], and a path without
      marker is recorded as it is;
    - [BEL0.ZINV.TA1] and [BEL0.QCK], both with the value 1 and at one
      location, give the settings [TA1] and [QCK] of [BEL0], in this order. *)
Theorem C6_logic_setting_recorded {Src} (self : Fasm2Bels Src)
    (loc : Loc) (typ signature : string) (value : Z) :
  typ ∈ ["LOGIC"; "QMUX"; "GMUX"] →
  let feature := Feature.mk loc typ signature value in
  parse_feature self feature = parse_logic_line self feature ∧
  (Py.contains "." signature = false →
   parse_logic_line self feature = Raise ValueError self) ∧
  (Py.contains "." signature = true →
   ∃ belname path,
     Py.contains "." belname = false ∧
     signature = belname +:+ "." +:+ path) ∧
  (∀ belname path,
     Py.contains "." belname = false →
     signature = belname +:+ "." +:+ path →
     let recorded := logic_setting path in
     (∃ self',
        parse_logic_line self feature = Ok self' ∧
        (value ≠ 1 → self' = self) ∧
        (value = 1 →
           (∃ bels, self' = set_belinversions bels self) ∧
           dict_get2 loc belname (belinversions self')
           = Some (default [] (dict_get2 loc belname (belinversions self))
                   ++ [recorded]) ∧
           ∀ loc' belname', (loc, belname) ≠ (loc', belname') →
             dict_get2 loc' belname' (belinversions self')
             = dict_get2 loc' belname' (belinversions self))) ∧
     ((Py.contains "ZINV." path = true →
       Py.contains "INV." (Py.remove "ZINV." path) = false) →
      recorded = Py.remove "INV." (Py.remove "ZINV." path)) ∧
     (∀ r, path = "ZINV." +:+ r → Py.contains "INV." r = false →
           recorded = r) ∧
     (∀ r, path = "INV." +:+ r → Py.contains "INV." r = false →
           recorded = r) ∧
     (Py.contains "INV." path = false → recorded = path)) ∧
  parse_features (@init Src)
    [Feature.mk (1, 2) "LOGIC" "BEL0.ZINV.TA1" 1;
     Feature.mk (1, 2) "LOGIC" "BEL0.QCK" 1]
  = Ok (set_belinversions [((1, 2), [("BEL0", ["TA1"; "QCK"])])] init) ∧
  belinversions
    (set_belinversions [((1, 2), [("BEL0", ["TA1"; "QCK"])])] (@init Src))
  = [((1, 2), [("BEL0", ["TA1"; "QCK"])])].
Proof.
  intros Htyp feature. split_and!.
  - unfold parse_feature, featureparsers. simpl.
    repeat (apply elem_of_cons in Htyp as [->|Htyp]; [done|]).
    by apply elem_of_nil in Htyp.
  - intros Hno. unfold parse_logic_line. simpl.
    by rewrite (split1_no_separator "."%char).
  - intros Hsep.
    destruct (Py.split1 "." signature) as [[belname path]|] eqn:Hsplit.
    + apply split1_Some in Hsplit as [-> Hbel]. by exists belname, path.
    + assert (∀ s, Py.split1 "." s = None → Py.contains "." s = false)
        as Hnone.
      { clear. induction s as [|c s IH]; [done|].
        cbn [Py.split1 Py.contains].
        destruct (decide (c = "."%char)) as [->|Hne]; [done|].
        destruct (Py.split1 "." s) as [[a b]|]; [done|]. intros _.
        rewrite IH by done. unfold Py.startswith, Py.strip_prefix.
        by rewrite decide_False. }
      rewrite (Hnone _ Hsplit) in Hsep. discriminate.
  - intros belname path Hbel -> recorded.
    assert (Py.split1 "." (belname +:+ "." +:+ path) = Some (belname, path))
      as Hsplit by apply (split1_first_separator "."%char), Hbel.
    split_and!.
    + unfold parse_logic_line, feature.
      cbn [Feature.signature Feature.value Feature.loc]. rewrite Hsplit.
      destruct (value =? 1) eqn:Hv.
      * apply Z.eqb_eq in Hv.
        eexists. split; [done|]. split; [done|]. intros _. split_and!.
        -- by eexists.
        -- simpl. apply dict_get2_append2.
        -- intros loc' belname' Hne. simpl. by apply dict_get2_append2_ne.
      * apply Z.eqb_neq in Hv. exists self. by split_and!.
    + intros H. unfold recorded. by rewrite logic_setting_one_kind.
    + intros r -> Hr. unfold recorded. rewrite logic_setting_eq.
      rewrite (contains_app_l "ZINV." r), (remove_prefix "Z" "INV." r).
      apply remove_not_contains. by apply contains_ZINV_false.
    + intros r -> Hr. unfold recorded. rewrite logic_setting_eq.
      replace (Py.contains "ZINV." ("INV." +:+ r)) with false.
      * rewrite (remove_prefix "I" "NV." r). by apply remove_not_contains.
      * symmetry. cbn [String.append].
        rewrite !contains_cons_ne by discriminate.
        by apply contains_ZINV_false.
    + intros H. unfold recorded. rewrite logic_setting_eq.
      rewrite (contains_ZINV_false _ H). by apply remove_not_contains.
  - reflexivity.
  - reflexivity.
Qed.

Lemma C6_logic_setting_witness :
  ∃ self',
    parse_logic_line (@init string)
      (Feature.mk (3, 5) "QMUX" "QMUX0.INV.QCLKIN0" 1) = Ok self' ∧
    dict_get2 (3, 5) "QMUX0" (belinversions self') = Some ["QCLKIN0"].
Proof.
  destruct (C6_logic_setting_recorded (@init string) (3, 5) "QMUX"
              "QMUX0.INV.QCLKIN0" 1) as (_ & _ & _ & Hrec & _).
  - apply list_elem_of_further, list_elem_of_here.
  - destruct (Hrec "QMUX0" "INV.QCLKIN0" eq_refl eq_refl)
      as ((self' & Hp & _ & H1) & _).
    exists self'. split; [exact Hp|].
    destruct (H1 eq_refl) as (_ & Hget & _). exact Hget.
Defined.

(** ** Switchbox decoding *)

Section DecodeFacts.
Variable switchbox : Switchbox.t.

Lemma sel_at_init t :
  sel_at (mux_sel_init switchbox) t = (λ _, None) <$> mux_at switchbox t.
Proof.
  unfold sel_at, mux_at, mux_sel_init. rewrite lookup_fmap.
  destruct (Switchbox.stages switchbox !! t.1.1) as [stage|]; [|done].
  simpl. rewrite lookup_fmap.
  destruct (Stage.switches stage !! t.1.2) as [switch|]; [|done].
  simpl. by rewrite lookup_fmap.
Qed.

Lemma sel_key_init t :
  missing_sel_key (mux_sel_init switchbox) t = missing_key switchbox t.
Proof.
  unfold missing_sel_key, missing_key, mux_sel_init. rewrite lookup_fmap.
  destruct (Switchbox.stages switchbox !! t.1.1) as [stage|]; [|done].
  simpl. rewrite lookup_fmap.
  by destruct (Stage.switches stage !! t.1.2).
Qed.

Lemma set_feature_missing mux_sel feature :
  sel_at mux_sel (triple feature) = None →
  set_feature mux_sel feature
  = Exc (KeyError (KInt (missing_sel_key mux_sel (triple feature)))).
Proof.
  unfold sel_at, set_feature, missing_sel_key, lookup_key, triple. simpl.
  destruct (mux_sel !! _) as [by_stage|]; [|done]. simpl.
  destruct (by_stage !! _) as [by_switch|]; [|done]. simpl.
  by intros ->.
Qed.

Lemma set_feature_conflict mux_sel feature sel :
  sel_at mux_sel (triple feature) = Some (Some sel) →
  set_feature mux_sel feature = Exc (AssertionError (MuxAlreadySet feature)).
Proof.
  unfold sel_at, set_feature, lookup_key, triple. simpl.
  destruct (mux_sel !! _) as [by_stage|]; [|done]. simpl.
  destruct (by_stage !! _) as [by_switch|]; [|done]. simpl.
  by intros ->.
Qed.

Lemma set_feature_unset mux_sel feature :
  sel_at mux_sel (triple feature) = Some None →
  ∃ mux_sel',
    set_feature mux_sel feature = Val mux_sel' ∧
    (∀ t, sel_at mux_sel' t
          = if decide (t = triple feature)
            then Some (Some (RouteEntry.sel_id feature))
            else sel_at mux_sel t) ∧
    (∀ t, missing_sel_key mux_sel' t = missing_sel_key mux_sel t).
Proof.
  unfold sel_at, set_feature, missing_sel_key, lookup_key, triple. simpl.
  destruct (mux_sel !! _) as [by_stage|] eqn:H1; [|done]. simpl.
  destruct (by_stage !! _) as [by_switch|] eqn:H2; [|done]. simpl.
  intros H3. rewrite H3. simpl. eexists. split; [done|]. split.
  - intros [[a b] c]. simpl.
    destruct (decide (a = RouteEntry.stage_id feature)) as [->|Ha].
    + rewrite lookup_insert_eq. simpl.
      destruct (decide (b = RouteEntry.switch_id feature)) as [->|Hb].
      * rewrite lookup_insert_eq. simpl.
        destruct (decide (c = RouteEntry.mux_id feature)) as [->|Hc].
        -- rewrite lookup_insert_eq. by rewrite decide_True.
        -- rewrite lookup_insert_ne by done.
           rewrite decide_False by congruence.
           by rewrite H1; simpl; rewrite H2.
      * rewrite lookup_insert_ne by done.
        rewrite decide_False by congruence. by rewrite H1.
    + rewrite lookup_insert_ne by done.
      by rewrite decide_False by congruence.
  - intros [[a b] c]. simpl.
    destruct (decide (a = RouteEntry.stage_id feature)) as [->|Ha].
    + rewrite lookup_insert_eq, H1.
      destruct (decide (b = RouteEntry.switch_id feature)) as [->|Hb].
      * by rewrite lookup_insert_eq, H2.
      * by rewrite lookup_insert_ne by done.
    + by rewrite lookup_insert_ne by done.
Qed.

Lemma written_init : written switchbox (mux_sel_init switchbox) [].
Proof.
  intros t. rewrite decide_False by apply not_elem_of_nil.
  split; [apply sel_at_init | apply sel_key_init].
Qed.

Lemma set_features_fault mux_sel done features :
  written switchbox mux_sel done →
  match first_fault switchbox done features with
  | Some e => set_features mux_sel features = Exc e
  | None =>
      ∃ mux_sel', set_features mux_sel features = Val mux_sel' ∧
                  written switchbox mux_sel'
                    (rev (triple <$> features) ++ done)
  end.
Proof.
  revert mux_sel done.
  induction features as [|feature rest IH]; intros mux_sel done Hw; simpl.
  - by exists mux_sel.
  - destruct (Hw (triple feature)) as [Ht Hkey].
    destruct (decide (triple feature ∈ done)) as [Hin|Hin].
    + destruct Ht as [sel Ht].
      by rewrite (set_feature_conflict _ _ _ Ht).
    + destruct (mux_at switchbox (triple feature)) as [mux|] eqn:Hmux.
      * destruct (set_feature_unset _ _ Ht) as (mux_sel' & -> & Hsel & Hk).
        simpl.
        assert (written switchbox mux_sel' (triple feature :: done)) as Hw'.
        { intros t. rewrite Hsel, Hk. destruct (Hw t) as [Hwt Hkt].
          split; [|done].
          destruct (decide (t = triple feature)) as [->|Hne].
          - rewrite decide_True by apply list_elem_of_here. by eexists.
          - destruct (decide (t ∈ done)) as [Hd|Hd].
            + rewrite decide_True; [done|].
              by apply list_elem_of_further.
            + rewrite decide_False; [done|].
              by intros [?|?]%elem_of_cons. }
        specialize (IH _ _ Hw').
        destruct (first_fault _ _ rest); [done|].
        destruct IH as (m & -> & Hm). exists m. split; [done|].
        intros t. specialize (Hm t). rewrite <- app_assoc.
        exact Hm.
      * by rewrite (set_feature_missing _ _ Ht), Hkey.
Qed.







Lemma decode_switchbox_fault fuel features :
  decode_switchbox switchbox fuel features
  = match first_fault switchbox [] features with
    | Some e => Exc e
    | None =>
        mux_sel ←r set_features (mux_sel_init switchbox) features;
        decode_outputs switchbox mux_sel fuel []
          (Switchbox.outputs switchbox)
    end.
Proof.
  unfold decode_switchbox.
  pose proof (set_features_fault _ [] features written_init) as H.
  destruct (first_fault _ _ _); [by rewrite H | done].
Qed.
Lemma expand_mux_unset mux_sel fuel out_loc :
  sel_at mux_sel (loc_triple out_loc) = Some None →
  expand_mux switchbox mux_sel (S fuel) out_loc = Val None.
Proof.
  unfold sel_at, loc_triple. simpl. unfold lookup_key.
  destruct (mux_sel !! _) as [by_stage|]; [|done]. simpl.
  destruct (by_stage !! _) as [by_switch|]; [|done]. simpl.
  by intros ->.
Qed.

(** With no selection at all, every output pin is set to [None]. *)
Lemma decode_outputs_unset fuel routes outs :
  (∀ out_pin, out_pin ∈ outs →
     ∃ out_loc, head (OutputPin.locs out_pin) = Some out_loc ∧
                is_Some (mux_at switchbox (loc_triple out_loc))) →
  decode_outputs switchbox (mux_sel_init switchbox) (S fuel) routes outs
  = Val (foldl (λ routes out_pin,
                  dict_set (OutputPin.name out_pin) None routes)
           routes outs).
Proof.
  revert routes. induction outs as [|out_pin outs IH]; intros routes Hwf;
    [done|].
  destruct (Hwf out_pin) as (out_loc & Hloc & [mux Hmux]);
    [apply list_elem_of_here|].
  cbn [decode_outputs foldl]. rewrite Hloc. cbn [of_option res_bind].
  rewrite expand_mux_unset; [|by rewrite sel_at_init, Hmux].
  cbn [res_bind]. apply IH. intros p Hp. apply Hwf.
  by apply list_elem_of_further.
Qed.
End DecodeFacts.

Lemma dict_get_set_all_None {K} `{EqDecision K} {A B}
    (key : A → K) (l : list A) (d : dict K (option B)) k :
  dict_get k (foldl (λ d a, dict_set (key a) None d) d l)
  = if decide (k ∈ key <$> l) then Some None else dict_get k d.
Proof.
  revert d. induction l as [|a l IH]; intros d; [done|].
  cbn [foldl]. rewrite fmap_cons.
  - rewrite IH. destruct (decide (k ∈ key <$> l)) as [Hin|Hin].
    + rewrite decide_True; [done|]. by apply list_elem_of_further.
    + destruct (decide (k = key a)) as [->|Hne].
      * rewrite dict_get_set_eq. rewrite decide_True; [done|].
        apply list_elem_of_here.
      * rewrite dict_get_set_ne by done. rewrite decide_False; [done|].
        by intros [?|?]%elem_of_cons.
Qed.

Lemma dict_get_is_Some {K} `{EqDecision K} {V} (k : K) (d : dict K V) :
  is_Some (dict_get k d) ↔ k ∈ dict_keys d.
Proof.
  rewrite <- not_eq_None_Some, dict_get_None.
  split; [apply dec_stable | by intros ? ?].
Qed.




(** C4.  For a switchbox whose output pins each have a first internal
    location at a multiplexer of the topology, decoding with no routing
    feature returns, for any positive recursion budget, a map of routes
    whose keys are exactly the names of the output pins of the switchbox and
    whose values are all [None]; no exception is raised. *)
Theorem C4_no_features_all_undriven (switchbox : Switchbox.t) (fuel : nat) :
  outputs_wf switchbox →
  ∃ routes,
    decode_switchbox switchbox (S fuel) [] = Val routes ∧
    (∀ name, name ∈ dict_keys routes
             ↔ name ∈ OutputPin.name <$> Switchbox.outputs switchbox) ∧
    (∀ name, name ∈ OutputPin.name <$> Switchbox.outputs switchbox →
             dict_get name routes = Some None) ∧
    (∀ name inp, dict_get name routes = Some inp → inp = None).
Proof.
  intros Hwf. eexists. split.
  - unfold decode_switchbox. cbn [set_features res_bind].
    by apply decode_outputs_unset.
  - pose proof (λ name, dict_get_set_all_None (B:=string) OutputPin.name
                  (Switchbox.outputs switchbox) [] name) as Hget.
    split_and!.
    + intros name. rewrite <- dict_get_is_Some, Hget.
      destruct (decide _) as [Hin|Hin]; simpl; [by split|].
      split; [by intros [? ?] | done].
    + intros name Hin. rewrite Hget. by rewrite decide_True.
    + intros name inp. rewrite Hget.
      destruct (decide _); [by intros [= <-] | done].
Qed.

Lemma C4_no_features_witness :
  ∃ routes,
    decode_switchbox
      (Switchbox.mk
         {[ 0 := Stage.mk {[ 1 := Switch.mk {[ 0 := Mux.mk ∅ ]} ]} ]}
         [OutputPin.mk "TA1" [SwitchboxPinLoc.mk 0 1 0 0 OUTPUT]] [])
      1 [] = Val routes ∧
    dict_get "TA1" routes = Some None.
Proof.
  destruct (C4_no_features_all_undriven
              (Switchbox.mk
                 {[ 0 := Stage.mk {[ 1 := Switch.mk {[ 0 := Mux.mk ∅ ]} ]} ]}
                 [OutputPin.mk "TA1" [SwitchboxPinLoc.mk 0 1 0 0 OUTPUT]] [])
              0) as (routes & Hdec & _ & Hnone & _).
  - intros out_pin ->%list_elem_of_singleton.
    eexists. split; [reflexivity | vm_compute; by eexists].
  - exists routes. split; [exact Hdec|]. apply Hnone.
    apply list_elem_of_here.
Defined.


(** ** Hop resolution *)

Lemma hops_get_touch (loc : Loc) (k : string) (loc' : Loc)
    (hops : gmap Loc (gmap string string)) :
  hops_get loc k (hops_touch loc' hops) = hops_get loc k hops.
Proof.
  unfold hops_get, hops_touch.
  destruct (hops !! loc') as [table|] eqn:Hl; [done|].
  destruct (decide (loc = loc')) as [->|Hne].
  - by rewrite lookup_insert_eq, Hl.
  - by rewrite lookup_insert_ne.
Qed.

Section HopFacts.
Variable get_name_and_hop : string → string * option (Z * Z).
Variable hops : gmap Loc (gmap string string).

Local Abbreviation hop_next := (hop_next get_name_and_hop hops).
Local Abbreviation hop_result := (hop_result get_name_and_hop hops).
Local Abbreviation hop_run := (hop_run get_name_and_hop hops).
Local Abbreviation hop_trace := (hop_trace get_name_and_hop hops).
Local Abbreviation hop_targets := (hop_targets get_name_and_hop hops).
Local Abbreviation hop_resolution :=
  (hop_resolution get_name_and_hop hops).
Local Abbreviation conns_resolution :=
  (conns_resolution get_name_and_hop hops).
Local Abbreviation all_resolution :=
  (all_resolution get_name_and_hop hops).

(** An iteration reads the tables after the lookup has inserted an empty
    one, which holds no hop: it continues as the tables before say. *)
Lemma hop_next_eq tloc name off :
  hop_next (tloc, name, off)
  = let tloc' := (tloc.1 + off.1, tloc.2 + off.2) in
    let hop :=
      match hops_get tloc' name hops with
      | Some v => get_name_and_hop v
      | None => (name, None)
      end in
    match hop.2 with
    | Some off' => inl (tloc', hop.1, off')
    | None => inr (tloc', hop.1)
    end.
Proof.
  unfold hop_next, hop_iter. cbn [fst snd].
  by rewrite hops_get_touch.
Qed.

Lemma conns_resolution_get fuel loc conns conns' pin source :
  conns_resolution fuel loc conns = Some conns' →
  dict_get pin conns = Some source →
  ∃ r, hop_resolution fuel loc source = Some r ∧ dict_get pin conns' = Some r.
Proof.
  revert conns'. induction conns as [|[pin' source'] conns IH];
    intros conns'; simpl; [done|].
  destruct (hop_resolution fuel loc source') as [r|] eqn:Hr; [|done]. simpl.
  destruct (conns_resolution fuel loc conns) as [rest|]; [|done]. simpl.
  intros [= <-]. simpl. destruct (decide (pin = pin')) as [->|Hne].
  - intros [= ->]. by exists r.
  - intros H. by apply IH.
Qed.

Lemma all_resolution_get fuel dc dc' loc conns :
  all_resolution fuel dc = Some dc' →
  dict_get loc dc = Some conns →
  ∃ conns', conns_resolution fuel loc conns = Some conns' ∧
            dict_get loc dc' = Some conns'.
Proof.
  revert dc'. induction dc as [|[loc' conns0] dc IH]; intros dc'; simpl;
    [done|].
  destruct (conns_resolution fuel loc' conns0) as [c|] eqn:Hc; [|done]. simpl.
  destruct (all_resolution fuel dc) as [rest|]; [|done]. simpl.
  intros [= <-]. simpl. destruct (decide (loc = loc')) as [->|Hne].
  - intros [= ->]. by exists c.
  - intros H. by apply IH.
Qed.

(** A map in which no source is a hop name is resolved without any
    iteration of the loop. *)
Lemma conns_resolution_no_hop fuel loc (conns : dict string string) :
  (∀ pin source, (pin, source) ∈ conns →
     get_name_and_hop source = (source, None)) →
  conns_resolution fuel loc conns
  = Some (prod_map id (pair loc) <$> conns).
Proof.
  induction conns as [|[pin source] conns IH]; intros H; simpl; [done|].
  unfold hop_resolution. rewrite (H pin source) by apply list_elem_of_here.
  simpl. rewrite IH; [done|].
  intros p s Hin. apply (H p s). by apply list_elem_of_further.
Qed.

Lemma all_resolution_no_hop fuel (dc : dict Loc (dict string string)) :
  (∀ loc conns pin source, (loc, conns) ∈ dc → (pin, source) ∈ conns →
     get_name_and_hop source = (source, None)) →
  all_resolution fuel dc
  = Some ((λ lc : Loc * dict string string,
             (lc.1, prod_map id (pair lc.1) <$> lc.2)) <$> dc).
Proof.
  induction dc as [|[loc conns] dc IH]; intros H; simpl; [done|].
  rewrite conns_resolution_no_hop
    by (intros p s Hps; eapply H; [apply list_elem_of_here | exact Hps]).
  simpl. rewrite IH; [done|].
  intros l c p s Hin. apply (H l c p s). by apply list_elem_of_further.
Qed.

(** *** Runs of the loop *)

Lemma hop_run_add n m s :
  hop_run (n + m) s = hop_run n s ≫= hop_run m.
Proof.
  revert s. induction n as [|n IH]; intros s; simpl; [done|].
  destruct (hop_next s); [apply IH | done].
Qed.

Lemma hop_result_run fuel k s s' r :
  hop_run k s = Some s' → hop_result fuel s = Some r →
  (k < fuel)%nat ∧ hop_result (fuel - k) s' = Some r.
Proof.
  revert fuel s. induction k as [|k IH]; intros fuel s; simpl.
  - intros [= ->] H. rewrite Nat.sub_0_r. split; [|done].
    destruct fuel; [done | lia].
  - destruct fuel as [|fuel]; [done|]. simpl.
    destruct (hop_next s) as [s1|]; [|done].
    intros H1 H2. destruct (IH _ _ H1 H2). split; [lia | done].
Qed.

(** A state that comes back never leaves the loop. *)
Lemma hop_cycle_diverges s n :
  hop_run (S n) s = Some s → ∀ fuel, hop_result fuel s = None.
Proof.
  intros Hcycle fuel. induction (lt_wf fuel) as [fuel _ IH].
  destruct (hop_result fuel s) as [r|] eqn:Hr; [|done].
  destruct (hop_result_run _ _ _ _ _ Hcycle Hr) as [Hlt Hr'].
  rewrite IH in Hr' by lia. done.
Qed.

Lemma hop_result_mono fuel fuel' s r :
  hop_result fuel s = Some r → (fuel ≤ fuel')%nat → hop_result fuel' s = Some r.
Proof.
  revert fuel' s. induction fuel as [|fuel IH]; intros fuel' s; simpl;
    [done|].
  intros H Hle. destruct fuel' as [|fuel']; [lia|]. simpl.
  destruct (hop_next s); [|done]. apply IH; [done | lia].
Qed.

Lemma hop_result_None_run fuel s :
  hop_result fuel s = None → is_Some (hop_run fuel s).
Proof.
  revert s. induction fuel as [|fuel IH]; intros s; simpl; [by eexists|].
  destruct (hop_next s); [apply IH | done].
Qed.

Lemma hop_trace_lookup n s i :
  is_Some (hop_run n s) → (i < n)%nat →
  hop_trace n s !! i = hop_run (S i) s.
Proof.
  revert s i. induction n as [|n IH]; intros s i; [lia|].
  simpl. destruct (hop_next s) as [s'|]; [|by intros [? ?]].
  intros Hrun Hi. destruct i as [|i]; [done|].
  simpl. apply IH; [done | lia].
Qed.

Lemma hop_trace_length n s :
  is_Some (hop_run n s) → length (hop_trace n s) = n.
Proof.
  revert s. induction n as [|n IH]; intros s; [done|].
  simpl. destruct (hop_next s) as [s'|]; [|by intros [? ?]].
  intros H. simpl. by rewrite IH.
Qed.

Lemma hop_next_target s s' : hop_next s = inl s' → s' ∈ hop_targets.
Proof.
  destruct s as [[tloc name] off]. rewrite hop_next_eq.
  unfold hop_targets. cbn zeta.
  set (tloc' := (tloc.1 + off.1, tloc.2 + off.2)).
  destruct (hops_get tloc' name hops) as [v|] eqn:Hget; [|done].
  destruct (get_name_and_hop v) as [name' [off'|]] eqn:Hv; [|done].
  simpl. intros [= <-].
  unfold hops_get in Hget. apply bind_Some in Hget as (table & Ht & Hn).
  apply list_elem_of_bind. exists (tloc', table).
  split; [|by apply elem_of_map_to_list].
  apply list_elem_of_bind. exists (name, v).
  split; [|by apply elem_of_map_to_list].
  rewrite Hv. simpl. apply list_elem_of_here.
Qed.

Lemma hop_trace_targets n s x : x ∈ hop_trace n s → x ∈ hop_targets.
Proof.
  revert s. induction n as [|n IH]; intros s; simpl;
    [by intros ?%elem_of_nil|].
  destruct (hop_next s) as [s'|] eqn:Hs; [|by intros ?%elem_of_nil].
  intros [->|Hin]%elem_of_cons; [by eapply hop_next_target | by eapply IH].
Qed.

Lemma not_NoDup_lookup {A} `{EqDecision A} (l : list A) :
  ¬ NoDup l →
  ∃ i j x, (i < j)%nat ∧ l !! i = Some x ∧ l !! j = Some x.
Proof.
  induction l as [|a l IH]; intros Hnd.
  - destruct Hnd. apply NoDup_nil_2.
  - destruct (decide (a ∈ l)) as [Hin|Hin].
    + apply list_elem_of_lookup in Hin as [j Hj].
      exists 0%nat, (S j), a. split; [lia | done].
    + destruct IH as (i & j & x & Hlt & Hi & Hj).
      * intros Hl. apply Hnd. by apply NoDup_cons.
      * exists (S i), (S j), x. split; [lia | done].
Qed.

(** With an acyclic hop lookup, the loop ends within one iteration more
    than there are hop entries. *)
Lemma hop_result_terminates s :
  hops_acyclic get_name_and_hop hops →
  is_Some (hop_result (S (length hop_targets)) s).
Proof.
  intros Hacyclic.
  destruct (hop_result (S (length hop_targets)) s) as [r|] eqn:Hloop;
    [by eexists|].
  exfalso. apply hop_result_None_run in Hloop.
  set (n := S (length hop_targets)) in *.
  assert (¬ NoDup (hop_trace n s)) as Hdup.
  { intros Hnd.
    assert (length (hop_trace n s) ≤ length hop_targets)%nat.
    { apply submseteq_length, NoDup_submseteq; [done|].
      intros x. apply hop_trace_targets. }
    rewrite hop_trace_length in H by done. lia. }
  apply not_NoDup_lookup in Hdup as (i & j & x & Hlt & Hi & Hj).
  assert (j < n)%nat as Hjn.
  { apply lookup_lt_Some in Hj. by rewrite hop_trace_length in Hj. }
  rewrite hop_trace_lookup in Hi, Hj by (done || lia).
  replace (S j) with (S i + S (j - S i))%nat in Hj by lia.
  rewrite hop_run_add, Hi in Hj. simpl in Hj.
  by apply (Hacyclic x (j - S i)%nat).
Qed.

Lemma hop_resolution_terminates loc source :
  hops_acyclic get_name_and_hop hops →
  is_Some (hop_resolution (S (length hop_targets)) loc source).
Proof.
  intros Hacyclic. unfold hop_resolution.
  destruct (get_name_and_hop source).2; [|by eexists].
  by apply hop_result_terminates.
Qed.

Lemma conns_resolution_total fuel loc conns :
  (∀ source, is_Some (hop_resolution fuel loc source)) →
  is_Some (conns_resolution fuel loc conns).
Proof.
  intros H. induction conns as [|[pin source] conns [rest IH]]; simpl;
    [by eexists|].
  destruct (H source) as [r ->]. simpl. rewrite IH. by eexists.
Qed.

Lemma all_resolution_total fuel dc :
  (∀ loc source, is_Some (hop_resolution fuel loc source)) →
  is_Some (all_resolution fuel dc).
Proof.
  intros H. induction dc as [|[loc conns] dc [rest IH]]; simpl;
    [by eexists|].
  destruct (conns_resolution_total fuel loc conns) as [c ->]; [done|].
  simpl. rewrite IH. by eexists.
Qed.

Lemma conns_resolution_diverge fuel loc conns pin source :
  (pin, source) ∈ conns → hop_resolution fuel loc source = None →
  conns_resolution fuel loc conns = None.
Proof.
  induction conns as [|[pin' source'] conns IH]; simpl;
    [by intros ?%elem_of_nil|].
  intros [[= <- <-]|Hin]%elem_of_cons Hr.
  - by rewrite Hr.
  - rewrite IH by done. by destruct (hop_resolution fuel loc source').
Qed.

Lemma all_resolution_diverge fuel dc loc conns pin source :
  (loc, conns) ∈ dc → (pin, source) ∈ conns →
  hop_resolution fuel loc source = None →
  all_resolution fuel dc = None.
Proof.
  induction dc as [|[loc' conns'] dc IH]; simpl;
    [by intros ?%elem_of_nil|].
  intros [[= <- <-]|Hin]%elem_of_cons Hp Hr.
  - by erewrite conns_resolution_diverge.
  - rewrite IH by done. by destruct (conns_resolution fuel loc' conns').
Qed.
End HopFacts.

Lemma hops_get_set_eq loc k v hops :
  hops_get loc k (hops_set loc k v hops) = Some v.
Proof.
  unfold hops_get, hops_set. rewrite lookup_insert_eq. simpl.
  apply lookup_insert_eq.
Qed.

Lemma hops_get_set_ne loc k v loc' k' hops :
  (loc, k) ≠ (loc', k') →
  hops_get loc' k' (hops_set loc k v hops) = hops_get loc' k' hops.
Proof.
  intros Hne. unfold hops_get, hops_set.
  destruct (decide (loc = loc')) as [<-|Hloc].
  - rewrite lookup_insert_eq. simpl.
    rewrite lookup_insert_ne by congruence.
    by destruct (hops !! loc).
  - by rewrite lookup_insert_ne.
Qed.

(** *** The hop tables during the loops *)

Lemma hops_touched_refl (hops : gmap Loc (gmap string string)) :
  hops_touched hops hops.
Proof. intros loc. by left. Qed.

Lemma hops_touched_trans (h1 h2 h3 : gmap Loc (gmap string string)) :
  hops_touched h1 h2 → hops_touched h2 h3 → hops_touched h1 h3.
Proof.
  intros H12 H23 loc.
  destruct (H12 loc) as [E12|[E1 E2]], (H23 loc) as [E23|[E2' E3]].
  - left. congruence.
  - right. split; congruence.
  - right. split; congruence.
  - congruence.
Qed.

Lemma hops_touched_touch (loc : Loc) (hops : gmap Loc (gmap string string)) :
  hops_touched hops (hops_touch loc hops).
Proof.
  intros loc'. unfold hops_touch.
  destruct (hops !! loc) as [table|] eqn:Hl; [by left|].
  destruct (decide (loc' = loc)) as [->|Hne].
  - right. by rewrite lookup_insert_eq.
  - left. by rewrite lookup_insert_ne.
Qed.

(** The empty tables do not change what a lookup of a hop gives. *)
Lemma hops_touched_get (h h' : gmap Loc (gmap string string)) loc k :
  hops_touched h h' → hops_get loc k h' = hops_get loc k h.
Proof.
  intros Ht. unfold hops_get.
  by destruct (Ht loc) as [->|[-> ->]].
Qed.

Section ResolveHopsFacts.
Variable get_name_and_hop : string → string * option (Z * Z).

Lemma hop_next_touched h h' s :
  hops_touched h h' →
  hop_next get_name_and_hop h' s = hop_next get_name_and_hop h s.
Proof.
  intros Ht. destruct s as [[tloc name] off]. rewrite !hop_next_eq.
  cbn zeta. by rewrite (hops_touched_get h h').
Qed.

Lemma hop_iter_touched h s :
  hops_touched h (hop_iter get_name_and_hop h s).2.
Proof. destruct s as [[tloc name] off]. apply hops_touched_touch. Qed.

(** The loop ends with what the tables at its start determine, and
    leaves them with some more empty tables. *)
Lemma hop_loop_result h h' fuel s :
  hops_touched h h' →
  fst <$> hop_loop get_name_and_hop h' fuel s
  = hop_result get_name_and_hop h fuel s.
Proof.
  revert h' s. induction fuel as [|fuel IH]; intros h' s Ht; [done|].
  cbn [hop_loop hop_result].
  rewrite <- (hop_next_touched h h' s Ht). unfold hop_next.
  pose proof (hop_iter_touched h' s) as Ht'.
  destruct (hop_iter get_name_and_hop h' s) as [[s'|r] h'']; simpl in *.
  - apply IH. by eapply hops_touched_trans.
  - done.
Qed.

Lemma hop_loop_touched h fuel s r h' :
  hop_loop get_name_and_hop h fuel s = Some (r, h') → hops_touched h h'.
Proof.
  revert h s. induction fuel as [|fuel IH]; intros h s; [done|].
  cbn [hop_loop]. pose proof (hop_iter_touched h s) as Ht.
  destruct (hop_iter get_name_and_hop h s) as [[s'|r'] h'']; simpl in *.
  - intros H. eapply hops_touched_trans; [exact Ht | by eapply IH].
  - by intros [= <- <-].
Qed.

Lemma hop_loop_mono h fuel fuel' s x :
  hop_loop get_name_and_hop h fuel s = Some x → (fuel ≤ fuel')%nat →
  hop_loop get_name_and_hop h fuel' s = Some x.
Proof.
  revert h fuel' s. induction fuel as [|fuel IH]; intros h fuel' s; [done|].
  intros H Hle. destruct fuel' as [|fuel']; [lia|]. cbn [hop_loop] in *.
  destruct (hop_iter get_name_and_hop h s) as [[s'|r] h'']; [|done].
  apply (IH h''); [done | lia].
Qed.

Lemma resolve_hop_result h h' fuel loc source :
  hops_touched h h' →
  fst <$> resolve_hop get_name_and_hop h' fuel loc source
  = hop_resolution get_name_and_hop h fuel loc source.
Proof.
  intros Ht. unfold resolve_hop, hop_resolution.
  destruct (get_name_and_hop source).2; [|done].
  by apply hop_loop_result.
Qed.

Lemma resolve_hop_touched h fuel loc source r h' :
  resolve_hop get_name_and_hop h fuel loc source = Some (r, h') →
  hops_touched h h'.
Proof.
  unfold resolve_hop. destruct (get_name_and_hop source).2.
  - apply hop_loop_touched.
  - intros [= <- <-]. apply hops_touched_refl.
Qed.

Lemma resolve_hop_mono h fuel fuel' loc source x :
  resolve_hop get_name_and_hop h fuel loc source = Some x →
  (fuel ≤ fuel')%nat →
  resolve_hop get_name_and_hop h fuel' loc source = Some x.
Proof.
  unfold resolve_hop. destruct (get_name_and_hop source).2; [|done].
  apply hop_loop_mono.
Qed.

Lemma resolve_conns_touched h fuel loc conns conns' h' :
  resolve_conns get_name_and_hop h fuel loc conns = Some (conns', h') →
  hops_touched h h'.
Proof.
  revert h conns'. induction conns as [|[pin source] conns IH];
    intros h conns'; cbn [resolve_conns].
  - intros [= <- <-]. apply hops_touched_refl.
  - destruct (resolve_hop _ h fuel loc source) as [[r h1]|] eqn:Hr; [|done].
    cbn [mbind option_bind].
    destruct (resolve_conns _ h1 fuel loc conns) as [[rest h2]|] eqn:Hc;
      [|done].
    cbn [mbind option_bind]. intros [= <- <-].
    eapply hops_touched_trans; [by eapply resolve_hop_touched|].
    by eapply IH.
Qed.

Lemma resolve_conns_result h h' fuel loc conns :
  hops_touched h h' →
  fst <$> resolve_conns get_name_and_hop h' fuel loc conns
  = conns_resolution get_name_and_hop h fuel loc conns.
Proof.
  revert h'. induction conns as [|[pin source] conns IH]; intros h' Ht;
    [done|].
  cbn [resolve_conns conns_resolution].
  rewrite <- (resolve_hop_result h h' fuel loc source Ht).
  destruct (resolve_hop _ h' fuel loc source) as [[r h1]|] eqn:Hr; [|done].
  cbn [fmap option_fmap option_map mbind option_bind fst].
  rewrite <- (IH h1)
    by (eapply hops_touched_trans; [done | by eapply resolve_hop_touched]).
  by destruct (resolve_conns _ h1 fuel loc conns) as [[rest h2]|].
Qed.

Lemma resolve_conns_mono h fuel fuel' loc conns x :
  resolve_conns get_name_and_hop h fuel loc conns = Some x →
  (fuel ≤ fuel')%nat →
  resolve_conns get_name_and_hop h fuel' loc conns = Some x.
Proof.
  intros H Hle. revert h x H.
  induction conns as [|[pin source] conns IH]; intros h x;
    cbn [resolve_conns]; [done|].
  destruct (resolve_hop _ h fuel loc source) as [[r h1]|] eqn:Hr; [|done].
  rewrite (resolve_hop_mono _ _ _ _ _ _ Hr Hle). cbn [mbind option_bind].
  destruct (resolve_conns _ h1 fuel loc conns) as [[rest h2]|] eqn:Hc;
    [|done].
  by rewrite (IH _ _ Hc).
Qed.

Lemma resolve_all_touched h fuel dc dc' h' :
  resolve_all get_name_and_hop h fuel dc = Some (dc', h') →
  hops_touched h h'.
Proof.
  revert h dc'. induction dc as [|[loc conns] dc IH]; intros h dc';
    cbn [resolve_all].
  - intros [= <- <-]. apply hops_touched_refl.
  - destruct (resolve_conns _ h fuel loc conns) as [[c h1]|] eqn:Hc; [|done].
    cbn [mbind option_bind].
    destruct (resolve_all _ h1 fuel dc) as [[rest h2]|] eqn:Ha; [|done].
    cbn [mbind option_bind]. intros [= <- <-].
    eapply hops_touched_trans; [by eapply resolve_conns_touched|].
    by eapply IH.
Qed.

Lemma resolve_all_result h h' fuel dc :
  hops_touched h h' →
  fst <$> resolve_all get_name_and_hop h' fuel dc
  = all_resolution get_name_and_hop h fuel dc.
Proof.
  revert h'. induction dc as [|[loc conns] dc IH]; intros h' Ht; [done|].
  cbn [resolve_all all_resolution].
  rewrite <- (resolve_conns_result h h' fuel loc conns Ht).
  destruct (resolve_conns _ h' fuel loc conns) as [[c h1]|] eqn:Hc; [|done].
  cbn [fmap option_fmap option_map mbind option_bind fst].
  rewrite <- (IH h1)
    by (eapply hops_touched_trans; [done | by eapply resolve_conns_touched]).
  by destruct (resolve_all _ h1 fuel dc) as [[rest h2]|].
Qed.

Lemma resolve_all_mono h fuel fuel' dc x :
  resolve_all get_name_and_hop h fuel dc = Some x →
  (fuel ≤ fuel')%nat →
  resolve_all get_name_and_hop h fuel' dc = Some x.
Proof.
  intros H Hle. revert h x H.
  induction dc as [|[loc conns] dc IH]; intros h x; cbn [resolve_all];
    [done|].
  destruct (resolve_conns _ h fuel loc conns) as [[c h1]|] eqn:Hc; [|done].
  rewrite (resolve_conns_mono _ _ _ _ _ _ Hc Hle). cbn [mbind option_bind].
  destruct (resolve_all _ h1 fuel dc) as [[rest h2]|] eqn:Ha; [|done].
  by rewrite (IH _ _ Ha).
Qed.

(** [resolve_hops] returns the connections that the tables at its start
    determine, when they determine them within the bound, and the tables
    with some more empty ones. *)
Lemma resolve_hops_result fuel (self : Fasm2Bels string) :
  match all_resolution get_name_and_hop (designhops self) fuel
          (designconnections self) with
  | Some dc =>
      ∃ hops', hops_touched (designhops self) hops' ∧
               resolve_all get_name_and_hop (designhops self) fuel
                 (designconnections self) = Some (dc, hops') ∧
               resolve_hops get_name_and_hop fuel self
               = Ok (set_designconnections dc (set_designhops hops' self))
  | None => resolve_hops get_name_and_hop fuel self = Diverge
  end.
Proof.
  unfold resolve_hops.
  rewrite <- (resolve_all_result (designhops self) (designhops self))
    by apply hops_touched_refl.
  destruct (resolve_all _ _ fuel _) as [[dc hops']|] eqn:Hall; [|done].
  exists hops'. split; [by eapply resolve_all_touched | done].
Qed.

(** A map in which no source is a hop name is resolved without any
    iteration of the loop, and without any lookup in the hop tables. *)
Lemma resolve_conns_no_hop h fuel loc (conns : dict string string) :
  (∀ pin source, (pin, source) ∈ conns →
     get_name_and_hop source = (source, None)) →
  resolve_conns get_name_and_hop h fuel loc conns
  = Some (prod_map id (pair loc) <$> conns, h).
Proof.
  induction conns as [|[pin source] conns IH]; intros H; [done|].
  cbn [resolve_conns]. unfold resolve_hop.
  rewrite (H pin source) by apply list_elem_of_here.
  cbn [snd fst mbind option_bind]. rewrite IH; [done|].
  intros p s Hin. apply (H p s). by apply list_elem_of_further.
Qed.

Lemma resolve_all_no_hop h fuel (dc : dict Loc (dict string string)) :
  (∀ loc conns pin source, (loc, conns) ∈ dc → (pin, source) ∈ conns →
     get_name_and_hop source = (source, None)) →
  resolve_all get_name_and_hop h fuel dc
  = Some ((λ lc : Loc * dict string string,
             (lc.1, prod_map id (pair lc.1) <$> lc.2)) <$> dc, h).
Proof.
  induction dc as [|[loc conns] dc IH]; intros H; [done|].
  cbn [resolve_all].
  rewrite resolve_conns_no_hop
    by (intros p s Hps; eapply H; [apply list_elem_of_here | exact Hps]).
  cbn [mbind option_bind]. rewrite IH; [done|].
  intros l c p s Hin. apply (H l c p s). by apply list_elem_of_further.
Qed.

(** Two hops with opposite offsets, each resolved to the other one:
    the loop alternates between two states. *)
Lemma opposite_hops_cycle a b name name' (off : Z * Z) :
  get_name_and_hop a = (name, Some off) →
  get_name_and_hop b = (name', Some (- off.1, - off.2)) →
  off ≠ (0, 0) →
  hop_run get_name_and_hop
    (hops_set (0, 0) name' a (hops_set off name b ∅)) 2 ((0, 0), name, off)
  = Some ((0, 0), name, off).
Proof.
  intros Ha Hb Hoff. destruct off as [dx dy].
  cbn [hop_run]. rewrite hop_next_eq. cbn [fst snd].
  rewrite !Z.add_0_l.
  rewrite hops_get_set_ne by congruence. rewrite hops_get_set_eq.
  rewrite Hb. cbn [fst snd]. rewrite hop_next_eq. cbn [fst snd].
  rewrite !Z.add_opp_diag_r. rewrite hops_get_set_eq.
  by rewrite Ha.
Qed.
End ResolveHopsFacts.

(** C7.  When the source name of a connection is not a hop name, that is
    when [get_name_and_hop] returns it without offset, hop resolution
    replaces the source of the entry by the pair of the location of the
    entry and the source name as it was.  The loop is not entered, so this
    holds for any bound on its iterations and the hop tables are not
    looked at; it holds for the entry inside any map that [resolve_hops]
    resolves, and a map in which no source is a hop name is always
    resolved. *)
Theorem C7_direct_source_unchanged
    (get_name_and_hop : string → string * option (Z * Z))
    (fuel : nat) (loc : Loc) (pin source : string) :
  get_name_and_hop source = (source, None) →
  (∀ hops, resolve_hop get_name_and_hop hops fuel loc source
           = Some ((loc, source), hops)) ∧
  (∀ self self',
     resolve_hops get_name_and_hop fuel self = Ok self' →
     dict_get2 loc pin (designconnections self) = Some source →
     dict_get2 loc pin (designconnections self') = Some (loc, source)) ∧
  (∀ self : Fasm2Bels string,
     (∀ loc' conns pin' source',
        (loc', conns) ∈ designconnections self → (pin', source') ∈ conns →
        get_name_and_hop source' = (source', None)) →
     resolve_hops get_name_and_hop fuel self
     = Ok (set_designconnections
             ((λ entry : Loc * dict string string,
                 (entry.1, prod_map id (pair entry.1) <$> entry.2))
                <$> designconnections self) self)).
Proof.
  intros Hdirect.
  assert (∀ hops, resolve_hop get_name_and_hop hops fuel loc source
                  = Some ((loc, source), hops)) as Hhop.
  { intros hops. unfold resolve_hop. by rewrite Hdirect. }
  split_and!; [done| |].
  - intros self self' Hres.
    pose proof (resolve_hops_result get_name_and_hop fuel self) as Hr.
    destruct (all_resolution _ _ _ _) as [dc|] eqn:Hall;
      [|by rewrite Hr in Hres].
    destruct Hr as (hops' & _ & _ & Hr). rewrite Hr in Hres.
    injection Hres as <-. unfold dict_get2. simpl.
    destruct (dict_get loc (designconnections self)) as [conns|] eqn:Hconns;
      [|done].
    simpl. intros Hpin.
    destruct (all_resolution_get _ _ _ _ _ _ _ Hall Hconns)
      as (conns' & Hc & ->).
    simpl.
    destruct (conns_resolution_get _ _ _ _ _ _ _ _ Hc Hpin) as (r & Hr' & ->).
    unfold hop_resolution in Hr'. rewrite Hdirect in Hr'.
    by injection Hr' as <-.
  - intros self Hdc. unfold resolve_hops.
    by rewrite resolve_all_no_hop.
Qed.

Lemma C7_direct_source_witness :
  resolve_hops get_name_and_hop_model 0
    (set_designconnections [((2, 3), [("TA1", "RAM_A[5]")])] (@init string))
  = Ok (set_designconnections [((2, 3), [("TA1", ((2, 3), "RAM_A[5]"))])]
          (@init string)).
Proof.
  destruct (C7_direct_source_unchanged get_name_and_hop_model 0 (2, 3)
              "TA1" "RAM_A[5]") as (_ & _ & Hmap); [reflexivity|].
  apply (Hmap (set_designconnections [((2, 3), [("TA1", "RAM_A[5]")])]
                 (@init string))).
  intros loc' conns pin' source' Hloc Hpin. simpl in Hloc.
  apply list_elem_of_singleton in Hloc. injection Hloc as -> ->.
  apply list_elem_of_singleton in Hpin. by injection Hpin as -> ->.
Defined.

(** C9.  For any decoder of hop names:
    - when the hop lookup of the object is acyclic, [resolve_hops] returns:
      one iteration more than there are hop entries is enough for every
      [while] loop, and any larger bound gives the same result;
    - nothing in the loop bounds its iterations or detects a cycle: for
      two hop names with opposite offsets there is an object whose hop
      tables send each of them to the other, and on it [resolve_hops] does
      not return, whatever the bound. *)
Theorem C9_hop_resolution_termination
    (get_name_and_hop : string → string * option (Z * Z)) :
  (∀ self : Fasm2Bels string,
     hops_acyclic get_name_and_hop (designhops self) →
     ∃ self',
       ∀ fuel,
         (S (length (hop_targets get_name_and_hop (designhops self)))
          ≤ fuel)%nat →
         resolve_hops get_name_and_hop fuel self = Ok self') ∧
  (∀ a b name name' off,
     get_name_and_hop a = (name, Some off) →
     get_name_and_hop b = (name', Some (- off.1, - off.2)) →
     off ≠ (0, 0) →
     ∃ self : Fasm2Bels string,
       ¬ hops_acyclic get_name_and_hop (designhops self) ∧
       ∀ fuel, resolve_hops get_name_and_hop fuel self = Diverge).
Proof.
  split.
  - intros self Hacyclic.
    set (n := S (length (hop_targets get_name_and_hop (designhops self)))).
    destruct (all_resolution_total get_name_and_hop (designhops self) n
                (designconnections self)) as [dc Hdc].
    { intros loc source. by apply hop_resolution_terminates. }
    pose proof (resolve_hops_result get_name_and_hop n self) as Hr.
    rewrite Hdc in Hr. destruct Hr as (hops' & _ & Hall & _).
    exists (set_designconnections dc (set_designhops hops' self)).
    intros fuel Hle. unfold resolve_hops.
    by rewrite (resolve_all_mono _ _ _ _ _ _ Hall Hle).
  - intros a b name name' off Ha Hb Hoff.
    pose proof (opposite_hops_cycle _ a b name name' off Ha Hb Hoff) as Hcyc.
    exists (set_designhops (hops_set (0, 0) name' a (hops_set off name b ∅))
              (set_designconnections [((0, 0), [("pin", a)])]
                 (@init string))).
    split.
    + intros Hacyclic. by apply (Hacyclic _ _ Hcyc).
    + intros fuel.
      match goal with
      | |- resolve_hops _ _ ?self = _ =>
          pose proof (resolve_hops_result get_name_and_hop fuel self) as Hr
      end.
      cbn [designhops designconnections set_designhops
           set_designconnections all_resolution conns_resolution] in Hr.
      unfold hop_resolution in Hr. rewrite Ha in Hr. cbn [snd fst] in Hr.
      by rewrite (hop_cycle_diverges _ _ _ _ Hcyc) in Hr.
Qed.

Lemma C9_hop_resolution_witness :
  (∃ self',
     resolve_hops get_name_and_hop_model 1
       (set_designhops {[ (1, 0) := {[ "H1R0" := "TA1" ]} ]}
          (set_designconnections [((0, 0), [("QCK", "H1R0_R1")])]
             (@init string)))
     = Ok self') ∧
  (∃ self : Fasm2Bels string,
     ¬ hops_acyclic get_name_and_hop_model (designhops self) ∧
     ∀ fuel, resolve_hops get_name_and_hop_model fuel self = Diverge).
Proof.
  split.
  - destruct (proj1 (C9_hop_resolution_termination get_name_and_hop_model)
                (set_designhops {[ (1, 0) := {[ "H1R0" := "TA1" ]} ]}
                   (set_designconnections [((0, 0), [("QCK", "H1R0_R1")])]
                      (@init string)))) as [self' Hself'].
    + intros s n Hrun. simpl in Hrun.
      destruct (hop_next _ _ s) as [s'|] eqn:Hiter; [|done].
      apply hop_next_target in Hiter. vm_compute in Hiter.
      by apply elem_of_nil in Hiter.
    + exists self'. apply Hself'. vm_compute. lia.
  - apply (proj2 (C9_hop_resolution_termination get_name_and_hop_model)
             "H1R0_R1" "H1R0_L1" "H1R0" "H1R0" (1, 0));
      [reflexivity | reflexivity | discriminate].
Defined.

(** ** Connection resolution *)

Lemma loc_le_trans a b c : loc_le a b → loc_le b c → loc_le a c.
Proof.
  unfold loc_le. destruct a as [ax ay], b as [bx by_], c as [cx cy]. simpl.
  intros H1 H2.
  destruct (Z.ltb_spec ax bx), (Z.ltb_spec bx cx), (Z.ltb_spec ax cx);
    destruct (Z.eqb_spec ax bx), (Z.eqb_spec bx cx), (Z.eqb_spec ax cx);
    destruct (Z.leb_spec ay by_), (Z.leb_spec by_ cy), (Z.leb_spec ay cy);
    simpl in *; try done; lia.
Qed.

Lemma loc_le_total a b : ¬ loc_le a b → loc_le b a.
Proof.
  unfold loc_le. destruct a as [ax ay], b as [bx by_]. simpl.
  destruct (Z.ltb_spec ax bx), (Z.ltb_spec bx ax);
    destruct (Z.eqb_spec ax bx), (Z.eqb_spec bx ax);
    destruct (Z.leb_spec ay by_), (Z.leb_spec by_ ay);
    simpl in *; try done; lia.
Qed.

Lemma sorted_insert_head a l :
  Forall (λ x, loc_le a x) l → sorted_insert a l = a :: l.
Proof.
  destruct l as [|b l]; [done|]. intros [Hb _]%Forall_cons. simpl.
  by destruct (loc_le a b).
Qed.

Lemma sorted_insert_elem x a l : x ∈ sorted_insert a l ↔ x = a ∨ x ∈ l.
Proof.
  induction l as [|b l IH]; simpl.
  - rewrite list_elem_of_singleton, elem_of_nil. tauto.
  - destruct (loc_le a b); rewrite !elem_of_cons; [done|].
    rewrite IH. tauto.
Qed.

Lemma sorted_insert_sorted a l :
  StronglySorted (λ x y, loc_le x y) l →
  StronglySorted (λ x y, loc_le x y) (sorted_insert a l).
Proof.
  induction 1 as [|b l Hl IH Hb]; simpl.
  - repeat constructor.
  - destruct (loc_le a b) eqn:Hab.
    + constructor; [by constructor|]. constructor; [by rewrite Hab|].
      eapply Forall_impl; [exact Hb|]. intros x Hx.
      apply (loc_le_trans a b x); [by rewrite Hab | done].
    + constructor; [done|]. apply Forall_forall. intros x Hx.
      apply sorted_insert_elem in Hx as [->|Hx].
      * apply loc_le_total. rewrite Hab. exact id.
      * by eapply Forall_forall in Hb.
Qed.

Lemma sorted_sorted l : StronglySorted (λ x y, loc_le x y) (sorted l).
Proof.
  induction l as [|a l IH]; simpl; [constructor|].
  by apply sorted_insert_sorted.
Qed.

Lemma sorted_insert_filter (P : Loc → Prop) `{∀ x, Decision (P x)} a l :
  StronglySorted (λ x y, loc_le x y) l →
  filter P (sorted_insert a l)
  = if decide (P a) then sorted_insert a (filter P l) else filter P l.
Proof.
  induction 1 as [|b l Hl IH Hb]; simpl.
  - rewrite filter_cons, filter_nil. by destruct (decide (P a)).
  - destruct (loc_le a b) eqn:Hab.
    + rewrite (filter_cons _ a), (filter_cons _ b).
      destruct (decide (P a)); [|done].
      destruct (decide (P b)).
      * simpl. by rewrite Hab.
      * rewrite sorted_insert_head; [done|].
        apply Forall_forall. intros x [_ Hx]%list_elem_of_filter.
        apply (loc_le_trans a b x); [by rewrite Hab|].
        by eapply Forall_forall in Hb.
    + rewrite !(filter_cons _ b), IH.
      destruct (decide (P b)), (decide (P a)); simpl; try done.
      by rewrite Hab.
Qed.

Lemma sorted_filter (P : Loc → Prop) `{∀ x, Decision (P x)} l :
  sorted (filter P l) = filter P (sorted l).
Proof.
  induction l as [|a l IH]; [done|].
  rewrite filter_cons. simpl.
  rewrite sorted_insert_filter by apply sorted_sorted.
  destruct (decide (P a)); simpl; by rewrite IH.
Qed.

Lemma dict_keys_remove {K} `{EqDecision K} {V} (k : K) (d : dict K V) :
  dict_keys (dict_remove k d) = filter (λ k', k' ≠ k) (dict_keys d).
Proof.
  unfold dict_keys, dict_remove. induction d as [|[k' v] d IH]; [done|].
  rewrite fmap_cons, !filter_cons. simpl.
  destruct (decide (k' ≠ k)); [rewrite fmap_cons|]; by rewrite IH.
Qed.

Lemma dict_get_remove_ne {K} `{EqDecision K} {V} (k k' : K) (d : dict K V) :
  k' ≠ k → dict_get k' (dict_remove k d) = dict_get k' d.
Proof.
  intros Hne. unfold dict_remove. induction d as [|[k0 v] d IH]; [done|].
  rewrite filter_cons. simpl.
  destruct (decide (k0 ≠ k)) as [Hk|Hk]; simpl.
  - by rewrite IH.
  - apply dec_stable in Hk as ->. by rewrite decide_False.
Qed.

Lemma store_routes_routingdata loc routes self :
  routingdata (store_routes loc routes self) = routingdata self.
Proof.
  revert self. induction routes as [|[k [v|]] routes IH]; intros self; simpl;
    [done| |done].
  rewrite IH. by destruct (is_hop_wire k).
Qed.

Lemma store_routes_set_routingdata rd loc routes self :
  store_routes loc routes (set_routingdata rd self)
  = set_routingdata rd (store_routes loc routes self).
Proof.
  revert self. induction routes as [|[k [v|]] routes IH]; intros self; simpl;
    [done| |done].
  rewrite <- IH. by destruct (is_hop_wire k).
Qed.

(** Storing the routes of the switchbox at [loc'] leaves the entries of
    another location as they are. *)
Lemma store_routes_other loc loc' routes self :
  loc ≠ loc' →
  dict_get loc (designconnections (store_routes loc' routes self))
  = dict_get loc (designconnections self) ∧
  designhops (store_routes loc' routes self) !! loc = designhops self !! loc.
Proof.
  intros Hne. revert self.
  induction routes as [|[k [v|]] routes IH]; intros self; simpl; [done| |done].
  destruct (IH (if is_hop_wire k
                then set_designhops (hops_set loc' k v (designhops self)) self
                else set_designconnections
                       (dict_set2 loc' k v (designconnections self)) self))
    as [-> ->].
  destruct (is_hop_wire k); simpl.
  - split; [done|]. unfold hops_set. by rewrite lookup_insert_ne.
  - split; [|done]. unfold dict_set2. by rewrite dict_get_set_ne.
Qed.

Section ResolveConnectionsFacts.
Variable get_name_and_hop : string → string * option (Z * Z).
Variable vpr_switchbox_grid : gmap Loc string.
Variable vpr_switchbox_types : gmap string Switchbox.t.

Local Abbreviation body :=
  (resolve_connections_at vpr_switchbox_grid vpr_switchbox_types).
Local Abbreviation loop :=
  (resolve_connections_loop vpr_switchbox_grid vpr_switchbox_types).

Lemma resolve_connections_at_off_grid fuel self loc :
  vpr_switchbox_grid !! loc = None → body fuel self loc = Ok self.
Proof. intros H. unfold resolve_connections_at. by rewrite H. Qed.

Lemma resolve_connections_at_routingdata fuel self loc self' :
  body fuel self loc = Ok self' → routingdata self' = routingdata self.
Proof.
  unfold resolve_connections_at, process_switchbox.
  repeat case_match; intros [= <-]; try done.
  apply store_routes_routingdata.
Qed.

Lemma resolve_connections_at_other fuel self loc loc' self' :
  loc ≠ loc' → body fuel self loc' = Ok self' →
  dict_get loc (designconnections self')
  = dict_get loc (designconnections self) ∧
  designhops self' !! loc = designhops self !! loc.
Proof.
  intros Hne. unfold resolve_connections_at, process_switchbox.
  repeat case_match; intros [= <-]; try done.
  by apply store_routes_other.
Qed.

(** The loop body with the features of the location [loc] removed. *)
Lemma resolve_connections_at_remove fuel self loc loc' :
  loc' ≠ loc →
  body fuel
    (set_routingdata (dict_remove loc (routingdata self)) self) loc'
  = outcome_map
      (set_routingdata (dict_remove loc (routingdata self)))
      (set_routingdata (dict_remove loc (routingdata self)))
      (body fuel self loc').
Proof.
  intros Hne. unfold resolve_connections_at, process_switchbox. simpl.
  unfold dict_get_default. rewrite dict_get_remove_ne by done.
  repeat case_match; simpl; try done.
  by rewrite store_routes_set_routingdata.
Qed.

Lemma resolve_connections_loop_remove fuel self loc keys :
  vpr_switchbox_grid !! loc = None →
  loop fuel
    (set_routingdata (dict_remove loc (routingdata self)) self)
    (filter (λ k, k ≠ loc) keys)
  = outcome_map
      (set_routingdata (dict_remove loc (routingdata self)))
      (set_routingdata (dict_remove loc (routingdata self)))
      (loop fuel self keys).
Proof.
  intros Hgrid. revert self.
  induction keys as [|k keys IH]; intros self; [done|].
  rewrite filter_cons. destruct (decide (k ≠ loc)) as [Hk|Hk].
  - cbn [resolve_connections_loop].
    rewrite resolve_connections_at_remove by done.
    destruct (body fuel self k) as [self'| |] eqn:Hbody; simpl; [|done..].
    rewrite <- (resolve_connections_at_routingdata _ _ _ _ Hbody).
    apply IH.
  - apply dec_stable in Hk as ->. cbn [resolve_connections_loop].
    rewrite resolve_connections_at_off_grid by done. apply IH.
Qed.

Lemma resolve_connections_loop_routingdata fuel self keys self' :
  loop fuel self keys = Ok self' → routingdata self' = routingdata self.
Proof.
  revert self. induction keys as [|k keys IH]; intros self; simpl.
  - by intros [= <-].
  - destruct (body fuel self k) as [self1| |] eqn:Hbody; [|done..].
    intros H. rewrite (IH _ H).
    by eapply resolve_connections_at_routingdata.
Qed.

Lemma resolve_connections_loop_off_grid fuel self keys self' loc :
  vpr_switchbox_grid !! loc = None →
  loop fuel self keys = Ok self' →
  dict_get loc (designconnections self')
  = dict_get loc (designconnections self) ∧
  designhops self' !! loc = designhops self !! loc.
Proof.
  intros Hgrid. revert self.
  induction keys as [|k keys IH]; intros self; simpl.
  - by intros [= <-].
  - destruct (body fuel self k) as [self1| |] eqn:Hbody; [|done..].
    intros H. destruct (IH _ H) as [-> ->].
    destruct (decide (loc = k)) as [<-|Hne].
    + rewrite resolve_connections_at_off_grid in Hbody by done.
      by injection Hbody as <-.
    + by eapply resolve_connections_at_other.
Qed.
End ResolveConnectionsFacts.

Lemma all_resolution_get_None get_name_and_hop hops fuel dc dc' (loc : Loc) :
  all_resolution get_name_and_hop hops fuel dc = Some dc' →
  dict_get loc dc = None → dict_get loc dc' = None.
Proof.
  revert dc'. induction dc as [|[loc' conns] dc IH]; intros dc'; simpl.
  - by intros [= <-].
  - destruct (conns_resolution _ _ fuel loc' conns) as [c|]; [|done]. simpl.
    destruct (all_resolution _ _ fuel dc) as [rest|]; [|done]. simpl.
    intros [= <-]. simpl. destruct (decide (loc = loc')); [done|].
    by apply IH.
Qed.

Lemma resolve_hops_set_routingdata get_name_and_hop fuel rd self :
  resolve_hops get_name_and_hop fuel (set_routingdata rd self)
  = outcome_map (set_routingdata rd) (set_routingdata rd)
      (resolve_hops get_name_and_hop fuel self).
Proof.
  unfold resolve_hops. simpl. by destruct (resolve_all _ _ _ _) as [[dc h]|].
Qed.

(** C10.  Let [loc] be a location that is not a key of the switchbox grid.
    Then, whatever routing features are recorded for it:
    - the body of the loop of [resolve_connections] returns at [loc]
      without an exception and without any change to the object;
    - the whole call ends as it does on the object without the routing
      features of [loc]: same exception or same maps;
    - when it returns, the hop map has at [loc] the hops it had before: its
      table at [loc] is as before, or it is the empty table that the lookup
      of a hop landing on [loc] has inserted where there was none; and the
      connection map has no entry at [loc] unless it had one before. *)
Theorem C10_off_grid_features_discarded
    (get_name_and_hop : string → string * option (Z * Z))
    (vpr_switchbox_grid : gmap Loc string)
    (vpr_switchbox_types : gmap string Switchbox.t)
    (fuel : nat) (self : Fasm2Bels string) (loc : Loc) :
  vpr_switchbox_grid !! loc = None →
  let others := dict_remove loc (routingdata self) in
  resolve_connections_at vpr_switchbox_grid vpr_switchbox_types fuel self loc
  = Ok self ∧
  resolve_connections get_name_and_hop vpr_switchbox_grid vpr_switchbox_types
    fuel (set_routingdata others self)
  = outcome_map (set_routingdata others) (set_routingdata others)
      (resolve_connections get_name_and_hop vpr_switchbox_grid
         vpr_switchbox_types fuel self) ∧
  (∀ self',
     resolve_connections get_name_and_hop vpr_switchbox_grid
       vpr_switchbox_types fuel self = Ok self' →
     (designhops self' !! loc = designhops self !! loc ∨
      (designhops self !! loc = None ∧ designhops self' !! loc = Some ∅)) ∧
     (∀ k, hops_get loc k (designhops self')
           = hops_get loc k (designhops self)) ∧
     (dict_get loc (designconnections self) = None →
      dict_get loc (designconnections self') = None)).
Proof.
  intros Hgrid others. split_and!.
  - by apply resolve_connections_at_off_grid.
  - unfold resolve_connections, others. cbn [routingdata set_routingdata].
    rewrite dict_keys_remove, sorted_filter.
    rewrite resolve_connections_loop_remove by done.
    destruct (resolve_connections_loop _ _ _ _ _) as [self1| |] eqn:Hloop;
      simpl; [|done..].
    rewrite <- (resolve_connections_loop_routingdata _ _ _ _ _ _ Hloop).
    apply resolve_hops_set_routingdata.
  - intros self'. unfold resolve_connections.
    destruct (resolve_connections_loop _ _ _ _ _) as [self1| |] eqn:Hloop;
      [|done..].
    destruct (resolve_connections_loop_off_grid _ _ _ _ _ _ loc Hgrid Hloop)
      as [Hdc Hhops].
    pose proof (resolve_hops_result get_name_and_hop fuel self1) as Hr.
    destruct (all_resolution _ _ _ _) as [dc|] eqn:Hall;
      [|by rewrite Hr].
    destruct Hr as (hops' & Ht & _ & ->). intros [= <-].
    cbn [designhops designconnections set_designhops set_designconnections].
    split_and!.
    + rewrite <- Hhops. apply Ht.
    + intros k. rewrite (hops_touched_get _ _ _ _ Ht).
      unfold hops_get. by rewrite Hhops.
    + intros Hnone. eapply all_resolution_get_None; [exact Hall|].
      by rewrite Hdc.
Qed.

Lemma C10_off_grid_features_witness :
  resolve_connections get_name_and_hop_model
    {[ (1, 1) := "SB_LC" ]} ∅ 1
    (set_routingdata
       [((7, 9), [RouteEntry.mk "STREET" 0 1 0 3;
                  RouteEntry.mk "STREET" 0 1 0 4])] init)
  = Ok (set_routingdata
          [((7, 9), [RouteEntry.mk "STREET" 0 1 0 3;
                     RouteEntry.mk "STREET" 0 1 0 4])] init).
Proof.
  pose proof (C10_off_grid_features_discarded get_name_and_hop_model
                {[ (1, 1) := "SB_LC" ]} ∅ 1
                (set_routingdata
                   [((7, 9), [RouteEntry.mk "STREET" 0 1 0 3;
                              RouteEntry.mk "STREET" 0 1 0 4])] init)
                (7, 9) eq_refl) as (Hbody & _ & _).
  unfold resolve_connections.
  cbn [routingdata set_routingdata dict_keys fmap list_fmap fst sorted foldr
       sorted_insert resolve_connections_loop].
  rewrite Hbody. reflexivity.
Defined.

(** A hop that lands on a location outside the grid leaves an empty table
    there: the switchbox at [(1, 1)] routes [TA1] from a hop wire that
    ends one tile up, at [(1, 2)], where routing features are recorded but
    no switchbox is. *)
Lemma resolve_connections_lands_off_grid :
  ∃ self',
    resolve_connections get_name_and_hop_model
      {[ (1, 1) := "SB" ]}
      {[ "SB" := Switchbox.mk
           {[ 0 := Stage.mk {[ 1 := Switch.mk
                {[ 0 := Mux.mk {[ 3 := MuxPin.mk (Some "V1T0_T1") ]} ]} ]} ]}
           [OutputPin.mk "TA1" [SwitchboxPinLoc.mk 0 1 0 0 OUTPUT]] [] ]}
      2
      (set_routingdata
         [((1, 1), [RouteEntry.mk "STREET" 0 1 0 3]);
          ((1, 2), [RouteEntry.mk "STREET" 0 1 0 4])] init)
    = Ok self' ∧
    designconnections self' = [((1, 1), [("TA1", ((1, 2), "V1T0"))])] ∧
    designhops (@init string) !! (1, 2) = None ∧
    designhops self' !! (1, 2) = Some ∅.
Proof. eexists. split; [by vm_compute|]. split_and!; by vm_compute. Qed.

(** ** Unification of cells with several locations *)

(** The claim C8 fails as stated.  In this table the location [(2, 1)]
    hosts two cell types: it is in the footprint of the ASSP and it is the
    canonical location of the RAM cell, and the pin [P] belongs to both.
    The canonical location [(2, 1)] is moved to [(1, 1)], and a connection
    at [(2, 2)] is moved to [(2, 1)] by one pass and to [(1, 1)] by the
    next one. *)
Lemma C8_overlapping_footprints_counterexample :
  remap_multiloc_loc
    [("ASSP", MultiLocCellMapping.mk "ASSP" {[ (1, 1); (2, 1) ]} (1, 1)
                {[ "P" ]});
     ("ram0", MultiLocCellMapping.mk "ram0" {[ (2, 1); (2, 2) ]} (2, 1)
                {[ "P" ]})]
    (2, 1) (Some "P") None = (1, 1) ∧
  unify_conns
    [("ASSP", MultiLocCellMapping.mk "ASSP" {[ (1, 1); (2, 1) ]} (1, 1)
                {[ "P" ]});
     ("ram0", MultiLocCellMapping.mk "ram0" {[ (2, 1); (2, 2) ]} (2, 1)
                {[ "P" ]})]
    [((2, 2), [("P", ((5, 5), "Q"))])]
  = [((2, 1), [("P", ((5, 5), "Q"))])] ∧
  unify_conns
    [("ASSP", MultiLocCellMapping.mk "ASSP" {[ (1, 1); (2, 1) ]} (1, 1)
                {[ "P" ]});
     ("ram0", MultiLocCellMapping.mk "ram0" {[ (2, 1); (2, 2) ]} (2, 1)
                {[ "P" ]})]
    (unify_conns
       [("ASSP", MultiLocCellMapping.mk "ASSP" {[ (1, 1); (2, 1) ]} (1, 1)
                   {[ "P" ]});
        ("ram0", MultiLocCellMapping.mk "ram0" {[ (2, 1); (2, 2) ]} (2, 1)
                   {[ "P" ]})]
       [((2, 2), [("P", ((5, 5), "Q"))])])
  = [((1, 1), [("P", ((5, 5), "Q"))])].
Proof. by vm_compute. Qed.

Section PyDictAppFacts.
Context {K : Type} `{EqDecision K} {V : Type}.
Implicit Types (d : dict K V) (k : K) (v : V).

Lemma dict_get_app_absent k d1 d2 :
  k ∉ dict_keys d1 → dict_get k (d1 ++ d2) = dict_get k d2.
Proof.
  unfold dict_keys. induction d1 as [|[k' v'] d1 IH]; simpl; [done|].
  rewrite not_elem_of_cons. intros [Hne Hin].
  rewrite decide_False by done. by apply IH.
Qed.

Lemma dict_set_app_absent k v d1 d2 :
  k ∉ dict_keys d1 → dict_set k v (d1 ++ d2) = d1 ++ dict_set k v d2.
Proof.
  unfold dict_keys. induction d1 as [|[k' v'] d1 IH]; simpl; [done|].
  rewrite not_elem_of_cons. intros [Hne Hin].
  rewrite decide_False by done. by rewrite IH.
Qed.

(** The entries after [d[k] = v]: the new one and those of [d]. *)
Lemma dict_set_elem k v d k' v' :
  (k', v') ∈ dict_set k v d → (k', v') = (k, v) ∨ (k', v') ∈ d.
Proof.
  induction d as [|[k0 v0] d IH]; simpl.
  - intros ->%list_elem_of_singleton. by left.
  - destruct (decide (k = k0)) as [->|Hne].
    + intros [->|Hin]%elem_of_cons; [by left|].
      right. by apply list_elem_of_further.
    + intros [->|Hin]%elem_of_cons.
      * right. apply list_elem_of_here.
      * destruct (IH Hin) as [?|?]; [by left|].
        right. by apply list_elem_of_further.
Qed.

Lemma dict_set_not_nil k v d : dict_set k v d ≠ [].
Proof. destruct d as [|[k' v'] d]; simpl; [done|]. by case_decide. Qed.
End PyDictAppFacts.

Section MultiLocFacts.
Variable multiloccells : dict string MultiLocCellMapping.t.

Local Abbreviation remap := (remap_multiloc_loc multiloccells).

(** The remapping leaves a location where it is, or moves it to the
    canonical location of a cell whose footprint contains it. *)
Lemma remap_in_cases mappings loc pinname celltype :
  remap_in mappings loc pinname celltype = loc ∨
  ∃ a, a ∈ mappings ∧ loc ∈ MultiLocCellMapping.fromlocset a ∧
       remap_in mappings loc pinname celltype = MultiLocCellMapping.toloc a.
Proof.
  induction mappings as [|a mappings IH]; simpl; [by left|].
  destruct (_ && _) eqn:Hcond.
  - right. exists a. apply andb_prop in Hcond as [_ Hin].
    apply bool_decide_eq_true in Hin.
    split; [apply list_elem_of_here | done].
  - destruct IH as [?|(b & ? & ? & ?)]; [by left|].
    right. exists b. split; [by apply list_elem_of_further | done].
Qed.

Lemma remap_canonical a pinname celltype :
  canonical_apart multiloccells → a ∈ dict_values multiloccells →
  remap (MultiLocCellMapping.toloc a) pinname celltype
  = MultiLocCellMapping.toloc a.
Proof.
  intros Hapart Ha. unfold remap_multiloc_loc.
  destruct (remap_in_cases (dict_values multiloccells)
              (MultiLocCellMapping.toloc a) pinname celltype)
    as [?|(b & Hb & Hin & ->)]; [done|].
  by apply Hapart.
Qed.

Lemma remap_idempotent loc pinname celltype :
  canonical_apart multiloccells →
  remap (remap loc pinname celltype) pinname celltype
  = remap loc pinname celltype.
Proof.
  intros Hapart. unfold remap_multiloc_loc at 2 3.
  destruct (remap_in_cases (dict_values multiloccells) loc pinname celltype)
    as [H|(a & Ha & _ & H)]; rewrite H.
  - exact H.
  - by apply remap_canonical.
Qed.

(** [d[loc][pin] = src] keeps a unified map unified when [loc] and the
    location of [src] are not moved by the remapping. *)
Lemma dict_set2_unified loc pin (src : Loc * string) dc :
  remap loc (Some pin) None = loc →
  remap src.1 (Some src.2) None = src.1 →
  unified multiloccells dc →
  unified multiloccells (dict_set2 loc pin src dc).
Proof.
  intros Hloc Hsrc [Hwf Hall]. unfold dict_set2. split.
  - by apply dict_wf_set.
  - apply Forall_forall. intros [loc' conns'] Hin.
    apply dict_set_elem in Hin as [[= -> ->]|Hin];
      [|by eapply Forall_forall in Hall].
    assert (unified_at multiloccells (loc, dict_get_default [] loc dc)
            ∨ dict_get_default [] loc dc = []) as Hinner.
    { unfold dict_get_default.
      destruct (dict_get loc dc) as [inner|] eqn:Hget; [left|by right].
      apply dict_get_Some_elem in Hget. by eapply Forall_forall in Hall. }
    split_and!; simpl.
    + apply dict_wf_set. destruct Hinner as [(? & _)| ->]; [done|].
      apply NoDup_nil_2.
    + apply dict_set_not_nil.
    + apply Forall_forall. intros [pin' src'] Hin.
      apply dict_set_elem in Hin as [[= -> ->]|Hin]; [done|].
      destruct Hinner as [(_ & _ & Hfix)|Hnil].
      * by eapply Forall_forall in Hfix.
      * rewrite Hnil in Hin. by apply elem_of_nil in Hin.
Qed.

Lemma unify_conns_at_unified loc conns acc :
  canonical_apart multiloccells →
  unified multiloccells acc →
  unified multiloccells (unify_conns_at multiloccells loc conns acc).
Proof.
  intros Hapart. unfold unify_conns_at. revert acc.
  induction conns as [|[pin src] conns IH]; intros acc Hacc; [done|].
  simpl. apply IH. apply dict_set2_unified; [| |done]; simpl;
    by apply remap_idempotent.
Qed.

Lemma unify_conns_unified dc :
  canonical_apart multiloccells →
  unified multiloccells (unify_conns multiloccells dc).
Proof.
  intros Hapart. unfold unify_conns.
  assert (unified multiloccells []) as Hnil
    by (split; [apply NoDup_nil_2 | apply Forall_nil_2]).
  revert Hnil. generalize (@nil (Loc * dict string (Loc * string))).
  induction dc as [|[loc conns] dc IH]; intros acc Hacc; [done|].
  simpl. apply IH. by apply unify_conns_at_unified.
Qed.

(** Writing the entries of one location back, after those written so
    far: [done] are the pins already written at [loc]. *)
Lemma unify_conns_at_rebuild loc (done todo : dict string (Loc * string))
    (acc : dict Loc (dict string (Loc * string))) :
  loc ∉ dict_keys acc →
  dict_wf (done ++ todo) →
  Forall (λ conn : string * (Loc * string),
            remap loc (Some conn.1) None = loc ∧
            remap conn.2.1 (Some conn.2.2) None = conn.2.1) todo →
  unify_conns_at multiloccells loc todo
    (if done is [] then acc else acc ++ [(loc, done)])
  = if done ++ todo is [] then acc else acc ++ [(loc, done ++ todo)].
Proof.
  intros Hloc. unfold unify_conns_at. revert done.
  induction todo as [|[pin [sloc sname]] todo IH]; intros done Hwf Hfix.
  - by rewrite app_nil_r.
  - apply Forall_cons in Hfix as [[Hl Hs] Hfix]. simpl in Hl, Hs.
    cbn [foldl fst snd]. rewrite Hl, Hs.
    assert (pin ∉ dict_keys done) as Hpin.
    { unfold dict_wf, dict_keys in *. rewrite fmap_app in Hwf.
      apply NoDup_app in Hwf as (_ & Hdisj & _).
      intros Hin. apply (Hdisj _ Hin). simpl. apply list_elem_of_here. }
    replace (dict_set2 loc pin (sloc, sname)
               (if done is [] then acc else acc ++ [(loc, done)]))
      with (acc ++ [(loc, done ++ [(pin, (sloc, sname))])]).
    + specialize (IH (done ++ [(pin, (sloc, sname))])).
      rewrite <- app_assoc in IH. simpl in IH.
      destruct done; simpl in *; by apply IH.
    + unfold dict_set2, dict_get_default. destruct done as [|d done].
      * rewrite (proj2 (dict_get_None loc acc) Hloc). simpl.
        by rewrite dict_set_absent.
      * remember (d :: done) as done' eqn:Hdone'.
        rewrite dict_get_app_absent by done. simpl.
        rewrite decide_True by done. simpl.
        rewrite dict_set_app_absent by done. simpl.
        rewrite decide_True by done.
        by rewrite (dict_set_absent pin _ done').
Qed.

Lemma unify_conns_rebuild (acc todo : dict Loc (dict string (Loc * string))) :
  unified multiloccells (acc ++ todo) →
  foldl (λ acc '(loc, conns), unify_conns_at multiloccells loc conns acc)
    acc todo
  = acc ++ todo.
Proof.
  revert acc. induction todo as [|[loc conns] todo IH]; intros acc Hu.
  - by rewrite app_nil_r.
  - destruct Hu as [Hwf Hall]. simpl.
    assert (loc ∉ dict_keys acc) as Hloc.
    { unfold dict_wf, dict_keys in *. rewrite fmap_app in Hwf.
      apply NoDup_app in Hwf as (_ & Hdisj & _).
      intros Hin. apply (Hdisj _ Hin). simpl. apply list_elem_of_here. }
    assert (unified_at multiloccells (loc, conns)) as (Hc1 & Hc2 & Hc3).
    { eapply Forall_forall in Hall; [exact Hall|].
      apply elem_of_app. right. apply list_elem_of_here. }
    simpl in *.
    pose proof (unify_conns_at_rebuild loc [] conns acc Hloc Hc1 Hc3) as Hr.
    simpl in Hr. rewrite Hr. destruct conns as [|c conns]; [done|].
    rewrite IH; rewrite <- app_assoc; [done|]. by split.
Qed.

Lemma unify_conns_unified_id dc :
  unified multiloccells dc → unify_conns multiloccells dc = dc.
Proof. intros Hu. unfold unify_conns. by rewrite unify_conns_rebuild. Qed.
End MultiLocFacts.

(** C8 (amended).  For a table of multi-location cells in which no
    canonical location lies in the footprint of a cell with another
    canonical location:
    - every canonical location is a fixed point of the remapping, whatever
      the pin name and the cell type given;
    - remapping a location twice is remapping it once;
    - the pass over the connection map is idempotent: applied to its own
      result it returns that result. *)
Theorem C8_unification_idempotent
    (multiloccells : dict string MultiLocCellMapping.t) :
  canonical_apart multiloccells →
  (∀ a pinname celltype,
     a ∈ dict_values multiloccells →
     remap_multiloc_loc multiloccells (MultiLocCellMapping.toloc a)
       pinname celltype
     = MultiLocCellMapping.toloc a) ∧
  (∀ loc pinname celltype,
     remap_multiloc_loc multiloccells
       (remap_multiloc_loc multiloccells loc pinname celltype)
       pinname celltype
     = remap_multiloc_loc multiloccells loc pinname celltype) ∧
  (∀ dc,
     unify_conns multiloccells (unify_conns multiloccells dc)
     = unify_conns multiloccells dc) ∧
  (∀ self,
     designconnections
       (resolve_multiloc_cells multiloccells
          (resolve_multiloc_cells multiloccells self))
     = designconnections (resolve_multiloc_cells multiloccells self)).
Proof.
  intros Hapart.
  assert (∀ dc, unify_conns multiloccells (unify_conns multiloccells dc)
                = unify_conns multiloccells dc) as Hidem.
  { intros dc. by apply unify_conns_unified_id, unify_conns_unified. }
  split_and!.
  - intros a pinname celltype Ha. by apply remap_canonical.
  - intros loc pinname celltype. by apply remap_idempotent.
  - done.
  - intros self. simpl. apply Hidem.
Qed.

Lemma C8_unification_idempotent_witness :
  unify_conns
    [("ASSP", MultiLocCellMapping.mk "ASSP" {[ (1, 1); (2, 1) ]} (1, 1)
                {[ "P" ]});
     ("ram0", MultiLocCellMapping.mk "ram0" {[ (2, 2); (2, 3) ]} (2, 2)
                {[ "Q" ]})]
    [((1, 1), [("P", ((2, 2), "Q"))])]
  = [((1, 1), [("P", ((2, 2), "Q"))])] ∧
  unify_conns
    [("ASSP", MultiLocCellMapping.mk "ASSP" {[ (1, 1); (2, 1) ]} (1, 1)
                {[ "P" ]});
     ("ram0", MultiLocCellMapping.mk "ram0" {[ (2, 2); (2, 3) ]} (2, 2)
                {[ "Q" ]})]
    [((2, 1), [("P", ((2, 3), "Q"))])]
  = [((1, 1), [("P", ((2, 2), "Q"))])].
Proof.
  assert (unify_conns
            [("ASSP", MultiLocCellMapping.mk "ASSP" {[ (1, 1); (2, 1) ]}
                        (1, 1) {[ "P" ]});
             ("ram0", MultiLocCellMapping.mk "ram0" {[ (2, 2); (2, 3) ]}
                        (2, 2) {[ "Q" ]})]
            [((2, 1), [("P", ((2, 3), "Q"))])]
          = [((1, 1), [("P", ((2, 2), "Q"))])]) as Hfirst by by vm_compute.
  split; [|exact Hfirst]. rewrite <- Hfirst.
  apply (C8_unification_idempotent
           [("ASSP", MultiLocCellMapping.mk "ASSP" {[ (1, 1); (2, 1) ]}
                       (1, 1) {[ "P" ]});
            ("ram0", MultiLocCellMapping.mk "ram0" {[ (2, 2); (2, 3) ]}
                       (2, 2) {[ "Q" ]})]).
  intros a b Ha Hb. simpl in Ha, Hb.
  apply elem_of_cons in Ha as [->|Ha%list_elem_of_singleton];
    apply elem_of_cons in Hb as [->|Hb%list_elem_of_singleton];
    subst; simpl; try done; intros Hin; exfalso; revert Hin;
    apply bool_decide_eq_false; by vm_compute.
Defined.

(** C1.  What the code does, against the claim: [resolve_multiloc_cells]
    stores the unified settings in the attribute [belinversion], and
    [produce_verilog] hands on the attribute [belinversions], which no
    method changes after parsing.  So the configuration map handed on is
    the one that parsing built.  For the ASSP cell with settings recorded at
    [(1, 2)] and [(1, 3)] and the canonical location [(1, 1)], the map
    handed on has no setting at [(1, 1)] and still has the settings at the
    two source locations, and the unified map that holds both settings at
    [(1, 1)] stays in [belinversion]. *)
Theorem C1_unified_settings_not_handed_on :
  (∀ multiloccells self,
     (produce_verilog_inputs
        (resolve_multiloc_cells multiloccells self)).1.1
     = belinversions self ∧
     belinversion (resolve_multiloc_cells multiloccells self)
     = Some (unify_bels multiloccells (belinversions self))) ∧
  convert_to_verilog get_name_and_hop_model ∅ ∅
    [("ASSP", MultiLocCellMapping.mk "ASSP" {[ (1, 1); (1, 2); (1, 3) ]}
                (1, 1) ∅)]
    1 [Feature.mk (1, 2) "LOGIC" "ASSP.S1" 1;
       Feature.mk (1, 3) "LOGIC" "ASSP.S2" 1]
  = Ok ([((1, 2), [("ASSP", ["S1"])]); ((1, 3), [("ASSP", ["S2"])])],
        [], []) ∧
  unify_bels
    [("ASSP", MultiLocCellMapping.mk "ASSP" {[ (1, 1); (1, 2); (1, 3) ]}
                (1, 1) ∅)]
    [((1, 2), [("ASSP", ["S1"])]); ((1, 3), [("ASSP", ["S2"])])]
  = [((1, 1), [("ASSP", ["S1"; "S2"])])].
Proof. split_and!; [done | by vm_compute | by vm_compute]. Qed.

(** * Further properties of the module *)

(** ** Parsing *)

(** For a HIGHWAY signature the parser returns, and the list of routes
    of the location of the feature then ends with a route entry HIGHWAY at
    the fixed stage 3 and mux 0, with the switch and the selector equal to
    the value of their digits, which is not negative; the routes of the
    other locations and the other attributes are as before. *)
Theorem highway_signature_decoding {Src} (self : Fasm2Bels Src)
    (feature : Feature.t) (switch_id sel_id : string) :
  highway_signature (Feature.signature feature) switch_id sel_id →
  (∃ self',
     parse_routing_line self feature = Ok self' ∧
     dict_get (Feature.loc feature) (routingdata self')
     = Some (dict_get_default [] (Feature.loc feature) (routingdata self)
             ++ [RouteEntry.mk "HIGHWAY" 3 (Py.int switch_id) 0
                   (Py.int sel_id)]) ∧
     (∀ loc', loc' ≠ Feature.loc feature →
        dict_get loc' (routingdata self')
        = dict_get loc' (routingdata self)) ∧
     belinversions self' = belinversions self ∧
     interfaces self' = interfaces self ∧
     designconnections self' = designconnections self ∧
     designhops self' = designhops self) ∧
  0 ≤ Py.int switch_id ∧ 0 ≤ Py.int sel_id.
Proof.
  intros Hsig. pose proof (match_highway_complete _ _ _ Hsig) as Hhw.
  destruct Hsig as ([Hsw _] & [Hsel _] & t & _ & Heq).
  split; [|auto using int_nonneg].
  eexists. split; [|apply set_routingdata_appended].
  unfold parse_routing_line. rewrite Hhw.
  replace (match_street (Feature.signature feature)) with
    (@None (ascii * ascii * string * string)) by (rewrite Heq; reflexivity).
  cbn [routingdata set_routingdata]. unfold set_routingdata. simpl.
  by rewrite dict_append_touch.
Qed.

Lemma highway_signature_decoding_witness :
  ∃ self',
    parse_routing_line (@init string)
      (Feature.mk (2, 6) "ROUTING" "I_highway.IM2.I_pg5" 1) = Ok self' ∧
    dict_get (2, 6) (routingdata self')
    = Some [RouteEntry.mk "HIGHWAY" 3 2 0 5].
Proof.
  destruct (proj1 (highway_signature_decoding (@init string)
              (Feature.mk (2, 6) "ROUTING" "I_highway.IM2.I_pg5" 1) "2" "5"
              ltac:(repeat split; try reflexivity; try discriminate;
                    exists EmptyString; split; [by left | reflexivity])))
    as (self' & Hp & Hget & _).
  exists self'. split; [exact Hp | exact Hget].
Defined.

(** For an INTERFACE feature whose signature is [belname.path]: with the
    value 1 the path without its occurrences of [ZINV.] and then without
    its occurrences of [INV.] is appended to the settings of [belname] in
    [interfaces], and the settings of the logic cells are not touched; with
    another value nothing changes.  Both markers are removed: a path
    [ZINV.INV.r] is recorded as [r]. *)
Theorem interface_setting_recorded {Src} (self : Fasm2Bels Src)
    (loc : Loc) (belname path : string) (value : Z) :
  Py.contains "." belname = false →
  let feature :=
    Feature.mk loc "INTERFACE" (belname +:+ "." +:+ path) value in
  let recorded := Py.remove "INV." (Py.remove "ZINV." path) in
  ∃ self',
    parse_feature self feature = Ok self' ∧
    belinversions self' = belinversions self ∧
    routingdata self' = routingdata self ∧
    (value ≠ 1 → self' = self) ∧
    (value = 1 →
       dict_get2 loc belname (interfaces self')
       = Some (default [] (dict_get2 loc belname (interfaces self))
               ++ [recorded]) ∧
       ∀ loc' belname', (loc, belname) ≠ (loc', belname') →
         dict_get2 loc' belname' (interfaces self')
         = dict_get2 loc' belname' (interfaces self)) ∧
    (∀ r, path = "ZINV.INV." +:+ r → Py.contains "INV." r = false →
          recorded = r) ∧
    (Py.contains "INV." path = false → recorded = path).
Proof.
  intros Hbel feature recorded.
  assert (Py.split1 "." (Feature.signature feature) = Some (belname, path))
    as Hsplit by apply (split1_first_separator "."%char), Hbel.
  unfold parse_feature, featureparsers. simpl.
  unfold parse_interface_line. rewrite Hsplit. simpl.
  assert ((∀ r, path = "ZINV.INV." +:+ r → Py.contains "INV." r = false →
              recorded = r) ∧
          (Py.contains "INV." path = false → recorded = path)) as [H1 H2].
  { unfold recorded. split.
    - intros r -> Hr.
      change ("ZINV.INV." +:+ r) with ("ZINV." +:+ ("INV." +:+ r)).
      rewrite (remove_prefix "Z" "INV." ("INV." +:+ r)).
      rewrite (remove_not_contains "ZINV." ("INV." +:+ r)).
      + rewrite (remove_prefix "I" "NV." r). by apply remove_not_contains.
      + cbn [String.append]. rewrite !contains_cons_ne by discriminate.
        by apply contains_ZINV_false.
    - intros H. rewrite (remove_not_contains "ZINV.")
        by by apply contains_ZINV_false.
      by apply remove_not_contains. }
  destruct (value =? 1) eqn:Hv.
  - apply Z.eqb_eq in Hv. eexists. split; [done|]. split_and!; try done.
    intros _. split.
    + apply dict_get2_append2.
    + intros loc' belname' Hne. by apply dict_get2_append2_ne.
  - apply Z.eqb_neq in Hv. exists self. by split_and!.
Qed.

Lemma interface_setting_recorded_witness :
  ∃ self',
    parse_feature (@init string)
      (Feature.mk (4, 1) "INTERFACE" "BIDIR.ZINV.INV.ESEL" 1) = Ok self' ∧
    dict_get2 (4, 1) "BIDIR" (interfaces self') = Some ["ESEL"].
Proof.
  destruct (interface_setting_recorded (@init string) (4, 1) "BIDIR"
              "ZINV.INV.ESEL" 1) as (self' & Hp & _ & _ & _ & H1 & _);
    [reflexivity|].
  exists self'. split; [exact Hp|]. destruct (H1 eq_refl) as [Hget _].
  exact Hget.
Defined.

(** Parsing a list of features is parsing its parts one after the other:
    an exception in the first part ends the call with the object as the
    first part left it, and the second part is not looked at. *)
Theorem parse_features_app {Src} (self : Fasm2Bels Src)
    (l1 l2 : list Feature.t) :
  parse_features self (l1 ++ l2)
  = match parse_features self l1 with
    | Ok self' => parse_features self' l2
    | other => other
    end.
Proof.
  revert self. induction l1 as [|f l1 IH]; intros self; simpl; [done|].
  destruct (parse_feature self f); [apply IH | done..].
Qed.

Lemma parse_feature_keeps {Src} (self : Fasm2Bels Src) feature :
  match parse_feature self feature with
  | Ok s | Raise _ s =>
      designconnections s = designconnections self ∧
      designhops s = designhops self ∧ belinversion s = belinversion self
  | Diverge => False
  end.
Proof.
  unfold parse_feature, featureparsers.
  repeat case_decide; simpl; try done;
    unfold parse_logic_line, parse_interface_line, parse_routing_line;
    repeat case_match; by simplify_eq/=.
Qed.

(** Parsing never diverges and, whether it returns or raises, leaves the
    connection map, the hop map and the attribute [belinversion] of the
    object as they were. *)
Theorem parse_features_keeps {Src} (self : Fasm2Bels Src)
    (features : list Feature.t) :
  match parse_features self features with
  | Ok s | Raise _ s =>
      designconnections s = designconnections self ∧
      designhops s = designhops self ∧ belinversion s = belinversion self
  | Diverge => False
  end.
Proof.
  revert self. induction features as [|f features IH]; intros self; simpl;
    [done|].
  pose proof (parse_feature_keeps self f) as Hf.
  destruct (parse_feature self f) as [self'| |]; [|done..].
  specialize (IH self'). destruct Hf as (H1 & H2 & H3).
  destruct (parse_features self' features); [|  |done];
    destruct IH as (-> & -> & ->); done.
Qed.

(** ** Lines of a FASM file *)

Lemma span_upper_app u r :
  all_upper u = true → no_upper_head r = true → span_upper (u +:+ r) = (u, r).
Proof.
  intros Hu Hr. induction u as [|c u IH]; simpl in *.
  - destruct r as [|c r]; [done|]. simpl in *.
    by destruct (is_upper c).
  - apply andb_prop in Hu as [-> Hu]. by rewrite IH.
Qed.

Lemma span_upper_spec s u r :
  span_upper s = (u, r) →
  s = u +:+ r ∧ all_upper u = true ∧ no_upper_head r = true.
Proof.
  revert u r; induction s as [|c s IH]; intros u r; simpl.
  - by intros [= <- <-].
  - destruct (is_upper c) eqn:Hc.
    + destruct (span_upper s) as [u' r'] eqn:Hs.
      intros [= <- <-]. destruct (IH _ _ eq_refl) as (-> & ? & ?).
      simpl. by rewrite Hc.
    + intros [= <- <-]. simpl. by rewrite Hc.
Qed.

Lemma span_line_app l t :
  one_line l = true → re_tail t → span_line (l +:+ t) = (l, t).
Proof.
  intros Hl Ht. induction l as [|c l IH]; simpl in *.
  - by destruct Ht as [-> | ->].
  - destruct (decide (c = Py.newline)); [done|]. by rewrite IH.
Qed.

Lemma span_line_spec s l r :
  span_line s = (l, r) → s = l +:+ r ∧ one_line l = true.
Proof.
  revert l r; induction s as [|c s IH]; intros l r; simpl.
  - by intros [= <- <-].
  - destruct (decide (c = Py.newline)) as [Hc|Hc].
    + by intros [= <- <-].
    + destruct (span_line s) as [l' r'] eqn:Hs.
      intros [= <- <-]. destruct (IH _ _ eq_refl) as (-> & ?).
      simpl. by rewrite decide_False.
Qed.

(** The pattern [loctyp] accepts exactly the texts
    [X<x>Y<y>.<TYPE>.<signature>], where [x] and [y] are non-empty runs of
    digits, [TYPE] a non-empty run of capital letters and [signature] any
    text without newline, with or without a final newline; the groups are
    these four parts. *)
Theorem loctyp_pattern (s x y typ signature : string) :
  match_loctyp s = Some (x, y, typ, signature)
  ↔ loctyp_text s x y typ signature.
Proof.
  unfold match_loctyp. split.
  - intros H.
    destruct (Py.strip_prefix "X" s) as [s1|] eqn:H1; [|done].
    apply strip_prefix_Some in H1 as ->. simpl in H.
    destruct (Py.digits1 s1) as [[x' s2]|] eqn:H2; [|done].
    apply digits1_Some in H2 as (-> & Hx & _). simpl in H.
    destruct (Py.strip_prefix "Y" s2) as [s3|] eqn:H3; [|done].
    apply strip_prefix_Some in H3 as ->. simpl in H.
    destruct (Py.digits1 s3) as [[y' s4]|] eqn:H4; [|done].
    apply digits1_Some in H4 as (-> & Hy & _). simpl in H.
    destruct (Py.strip_prefix "." s4) as [s5|] eqn:H5; [|done].
    apply strip_prefix_Some in H5 as ->. simpl in H.
    unfold uppers1 in H.
    destruct (span_upper s5) as [typ' s6] eqn:H6.
    apply span_upper_spec in H6 as (-> & Hu & _).
    destruct typ' as [|c typ']; [done|]. simpl in H.
    destruct (Py.strip_prefix "." s6) as [s7|] eqn:H7; [|done].
    apply strip_prefix_Some in H7 as ->. simpl in H.
    destruct (span_line s7) as [sig' s8] eqn:H8.
    apply span_line_spec in H8 as (-> & Hl).
    destruct (Py.re_dollar s8) eqn:H9; [|done].
    injection H as <- <- <- <-. apply re_dollar_tail in H9.
    split_and!; try done. by exists s8.
  - intros (Hx & Hy & [Hu Hne] & Hl & t & Ht & ->).
    rewrite (strip_prefix_app "X"). cbn [mbind option_bind].
    rewrite (digits1_app x) by done. cbn [mbind option_bind].
    rewrite (strip_prefix_app "Y"). cbn [mbind option_bind].
    rewrite (digits1_app y) by done. cbn [mbind option_bind].
    rewrite (strip_prefix_app "."). cbn [mbind option_bind].
    unfold uppers1. rewrite span_upper_app by done.
    destruct typ as [|c typ]; [done|]. cbn [mbind option_bind].
    rewrite (strip_prefix_app "."). cbn [mbind option_bind].
    rewrite span_line_app by done.
    by apply re_dollar_tail in Ht as ->.
Qed.

Lemma loctyp_pattern_witness :
  line_feature (SetFeature.mk "X12Y3.LOGIC.LOGIC.ZINV.TA1" 1)
  = Some (Feature.mk (12, 3) "LOGIC" "LOGIC.ZINV.TA1" 1).
Proof.
  unfold line_feature. cbn [SetFeature.feature].
  rewrite (proj2 (loctyp_pattern "X12Y3.LOGIC.LOGIC.ZINV.TA1"
                    "12" "3" "LOGIC" "LOGIC.ZINV.TA1")); [reflexivity|].
  repeat split; try reflexivity; try discriminate.
  exists EmptyString. split; [by left | reflexivity].
Defined.

Lemma parse_fasm_lines_app {Src} (self : Fasm2Bels Src) l1 l2 :
  parse_fasm_lines self (l1 ++ l2)
  = match parse_fasm_lines self l1 with
    | FasmOk self' => parse_fasm_lines self' l2
    | other => other
    end.
Proof.
  revert self. induction l1 as [|line l1 IH]; intros self; simpl; [done|].
  destruct (FasmLine.set_feature line) as [sf|]; [|apply IH].
  destruct (match_loctyp _) as [[[[x y] typ] sig]|]; [|done].
  destruct (parse_feature _ _); [apply IH | done..].
Qed.

(** When the text of every feature matches the pattern, the lines are
    parsed as the list of their features: the lines that set no feature
    are skipped, and an exception of a parser ends the call. *)
Theorem parse_fasm_lines_features {Src} (self : Fasm2Bels Src)
    (fasmlines : list FasmLine.t) :
  (∀ line set_feature,
     line ∈ fasmlines → FasmLine.set_feature line = Some set_feature →
     is_Some (line_feature set_feature)) →
  parse_fasm_lines self fasmlines
  = fasm_lift
      (parse_features self
         (omap (λ line, FasmLine.set_feature line ≫= line_feature)
            fasmlines)).
Proof.
  revert self. induction fasmlines as [|line lines IH]; intros self Hall;
    [done|].
  assert (∀ line set_feature,
            line ∈ lines → FasmLine.set_feature line = Some set_feature →
            is_Some (line_feature set_feature)) as Hall'.
  { intros l sf Hin. apply Hall. by apply list_elem_of_further. }
  cbn [parse_fasm_lines omap list_omap].
  destruct (FasmLine.set_feature line) as [sf|] eqn:Hsf; simpl;
    [|by apply IH].
  destruct (Hall line sf) as [f Hf]; [apply list_elem_of_here | done |].
  rewrite Hf. unfold line_feature in Hf.
  destruct (match_loctyp _) as [[[[x y] typ] sig]|]; [|done].
  simpl in Hf. injection Hf as <-. simpl.
  destruct (parse_feature _ _); simpl; [by apply IH | done..].
Qed.

Lemma parse_fasm_lines_features_witness :
  parse_fasm_lines (@init string)
    [FasmLine.mk (Some (SetFeature.mk "X1Y2.LOGIC.LOGIC.INV.QCK" 1));
     FasmLine.mk None;
     FasmLine.mk (Some (SetFeature.mk "X1Y2.ROUTING.I_highway.IM2.I_pg5" 1))]
  = FasmOk
      (set_routingdata [((1, 2), [RouteEntry.mk "HIGHWAY" 3 2 0 5])]
         (set_belinversions [((1, 2), [("LOGIC", ["QCK"])])] init)).
Proof.
  rewrite parse_fasm_lines_features; [reflexivity|].
  intros line sf Hin Hsf.
  repeat (apply elem_of_cons in Hin as [->|Hin];
          [simpl in Hsf; simplify_eq; by eexists|]).
  by apply elem_of_nil in Hin.
Defined.

(** A feature whose text does not match the pattern raises the exception
    of the module; the lines before it have been parsed and stay recorded,
    the lines after it are not looked at. *)
Theorem parse_fasm_lines_unsupported {Src} (self self' : Fasm2Bels Src)
    (l1 l2 : list FasmLine.t) (set_feature : SetFeature.t) :
  parse_fasm_lines self l1 = FasmOk self' →
  match_loctyp (SetFeature.feature set_feature) = None →
  parse_fasm_lines self (l1 ++ FasmLine.mk (Some set_feature) :: l2)
  = FasmRaise (Fasm2BelsException set_feature) self'.
Proof.
  intros H1 Hno. rewrite parse_fasm_lines_app, H1. simpl. by rewrite Hno.
Qed.

Lemma parse_fasm_lines_unsupported_witness :
  parse_fasm_lines (@init string)
    ([FasmLine.mk (Some (SetFeature.mk "X1Y2.LOGIC.LOGIC.INV.QCK" 1))]
     ++ FasmLine.mk (Some (SetFeature.mk "X1Y2.logic.QCK" 1))
     :: [FasmLine.mk (Some (SetFeature.mk "X1Y2.LOGIC.LOGIC.INV.TA1" 1))])
  = FasmRaise (Fasm2BelsException (SetFeature.mk "X1Y2.logic.QCK" 1))
      (set_belinversions [((1, 2), [("LOGIC", ["QCK"])])] init).
Proof.
  apply (parse_fasm_lines_unsupported (@init string)); reflexivity.
Defined.

(** ** Pin constraints *)

Lemma split_words_space c r :
  is_space c = true → split_words (String c r) = split_words r.
Proof.
  intros Hc. unfold split_words. simpl. rewrite Hc.
  by destruct (split_go r) as [[|] ws].
Qed.

Lemma split_go_word w c r :
  no_space w = true → is_space c = true →
  split_go (w +:+ String c r) = (w, split_words r).
Proof.
  intros Hw Hc. induction w as [|a w IH]; simpl in *.
  - rewrite Hc. unfold split_words. by destruct (split_go r) as [[|] ws].
  - apply andb_prop in Hw as [Ha Hw]. rewrite IH by done.
    by destruct (is_space a).
Qed.

Lemma split_words_word w c r :
  word w → is_space c = true →
  split_words (w +:+ String c r) = w :: split_words r.
Proof.
  intros [Hw Hne] Hc. unfold split_words at 1. rewrite split_go_word by done.
  by destruct w.
Qed.

Lemma split_words_last w t :
  word w → re_tail t → split_words (w +:+ t) = [w].
Proof.
  intros Hw [-> | ->].
  - destruct Hw as [Hw Hne]. unfold split_words.
    replace (split_go (w +:+ "")) with (w, @nil string).
    + by destruct w.
    + clear Hne. induction w as [|a w IH]; simpl in *; [done|].
      apply andb_prop in Hw as [Ha Hw]. rewrite <- IH by done.
      by destruct (is_space a).
  - by rewrite split_words_word.
Qed.

(** A line [set_io <pin> <io>] sets the pin of [io], replacing what an
    earlier line had set for it, and leaves the other constraints as they
    are. *)
Theorem parse_pcf_set_io (lines : list string) (pin io t : string) :
  word pin → word io → re_tail t →
  let line := "set_io" +:+ " " +:+ pin +:+ " " +:+ io +:+ t in
  dict_get io (parse_pcf (lines ++ [line])) = Some pin ∧
  ∀ io', io' ≠ io →
    dict_get io' (parse_pcf (lines ++ [line]))
    = dict_get io' (parse_pcf lines).
Proof.
  intros Hpin Hio Ht line. unfold parse_pcf. rewrite foldl_app. simpl.
  unfold parse_pcf_line at 1 3.
  assert (split_words line = ["set_io"; pin; io]) as ->.
  { change line
      with ("set_io" +:+ String " " (pin +:+ String " " (io +:+ t))).
    rewrite (split_words_word "set_io" " "%char)
      by (done || (split; [reflexivity | discriminate])).
    rewrite (split_words_word pin " "%char) by done.
    by rewrite split_words_last. }
  rewrite decide_True by done. split.
  - apply dict_get_set_eq.
  - intros io' Hne. by apply dict_get_set_ne.
Qed.

Lemma parse_pcf_set_io_witness :
  dict_get "io_3" (parse_pcf ["set_io A1 io_3"; "set_io B2 io_3"])
  = Some "B2".
Proof.
  apply (parse_pcf_set_io ["set_io A1 io_3"] "B2" "io_3" "");
    (split; [reflexivity | discriminate]) || by left.
Defined.

(** A line that is not made of the word [set_io] and two more words
    (an empty line, a comment, another command) changes nothing. *)
Theorem parse_pcf_other_line (lines lines' : list string) (l : string) :
  (∀ pin io, split_words l ≠ ["set_io"; pin; io]) →
  parse_pcf (lines ++ l :: lines') = parse_pcf (lines ++ lines').
Proof.
  intros Hl. unfold parse_pcf. rewrite !foldl_app. simpl. f_equal.
  unfold parse_pcf_line.
  destruct (split_words l) as [|w0 [|w1 [|w2 [|w3 ws]]]]; try done.
  case_decide; [|done]. subst. by destruct (Hl w1 w2).
Qed.

Lemma parse_pcf_other_line_witness :
  parse_pcf (["set_io A1 io_3"] ++ "# set_io B2 io_3" :: ["set_io C3 io_4"])
  = parse_pcf (["set_io A1 io_3"] ++ ["set_io C3 io_4"]).
Proof.
  apply parse_pcf_other_line. intros pin io H. vm_compute in H.
  discriminate.
Defined.

(** ** Routes of a switchbox *)

Section RouteFacts.
Variable switchbox : Switchbox.t.

(** The expansion reads the selection table and the topology at the
    address of the location only. *)
Lemma expand_mux_unfold mux_sel fuel out_loc :
  expand_mux switchbox mux_sel (S fuel) out_loc
  = (sel ←r of_option
              (KeyError (KInt (missing_sel_key mux_sel (loc_triple out_loc))))
              (sel_at mux_sel (loc_triple out_loc));
     match sel with
     | None => Val None
     | Some sel =>
         mux ←r of_option
                  (KeyError (KInt (missing_key switchbox (loc_triple out_loc))))
                  (mux_at switchbox (loc_triple out_loc));
         pin ←r lookup_key sel (Mux.inputs mux);
         match MuxPin.name pin with
         | Some name => Val (Some name)
         | None =>
             let inp_loc :=
               SwitchboxPinLoc.mk (SwitchboxPinLoc.stage_id out_loc)
                 (SwitchboxPinLoc.switch_id out_loc)
                 (SwitchboxPinLoc.mux_id out_loc) sel INPUT in
             match conn_by_dst switchbox inp_loc with
             | [] => Exc (AssertionError (NoUpstreamConnection inp_loc))
             | cs =>
                 first_found
                   (λ c, expand_mux switchbox mux_sel fuel (Connection.src c))
                   cs
             end
         end
     end).
Proof.
  cbn [expand_mux].
  unfold sel_at, mux_at, missing_sel_key, missing_key, loc_triple, lookup_key.
  cbn [fst snd].
  destruct (mux_sel !! _) as [by_stage|]; [|done]. cbn.
  destruct (by_stage !! _) as [by_switch|]; [|done]. cbn.
  destruct (by_switch !! _) as [[sel|]|]; [|done..]. cbn.
  destruct (Switchbox.stages switchbox !! _) as [stage|]; [|done]. cbn.
  destruct (Stage.switches stage !! _) as [switch|]; [|done]. cbn.
  done.
Qed.




Lemma decode_outputs_other mux_sel fuel routes outs routes' k :
  decode_outputs switchbox mux_sel fuel routes outs = Val routes' →
  k ∉ OutputPin.name <$> outs →
  dict_get k routes' = dict_get k routes.
Proof.
  revert routes. induction outs as [|out_pin outs IH]; intros routes; simpl.
  - by intros [= <-].
  - destruct (head _) as [out_loc|]; simpl; [|done].
    destruct (expand_mux _ _ _ _) as [inp| |]; simpl; [|done..].
    intros Hdec [Hne Hin]%not_elem_of_cons.
    rewrite (IH _ Hdec Hin). by apply dict_get_set_ne.
Qed.

(** The route of an output pin is what the expansion of its first
    location gives, when no other output pin has its name. *)
Lemma decode_outputs_get mux_sel fuel routes outs routes' out_pin :
  decode_outputs switchbox mux_sel fuel routes outs = Val routes' →
  NoDup (OutputPin.name <$> outs) → out_pin ∈ outs →
  ∃ out_loc inp,
    head (OutputPin.locs out_pin) = Some out_loc ∧
    expand_mux switchbox mux_sel fuel out_loc = Val inp ∧
    dict_get (OutputPin.name out_pin) routes' = Some inp.
Proof.
  revert routes. induction outs as [|p outs IH]; intros routes; simpl.
  - by intros _ _ ?%elem_of_nil.
  - destruct (head (OutputPin.locs p)) as [out_loc|] eqn:Hloc; simpl;
      [|done].
    destruct (expand_mux _ _ _ out_loc) as [inp| |] eqn:Hexp; simpl;
      [|done..].
    intros Hdec [Hp Hnd]%NoDup_cons [->|Hin]%elem_of_cons.
    + exists out_loc, inp. split_and!; [done..|].
      rewrite (decode_outputs_other _ _ _ _ _ _ Hdec Hp).
      apply dict_get_set_eq.
    + by apply (IH _ Hdec).
Qed.

Lemma decode_outputs_keys mux_sel fuel routes outs routes' k :
  decode_outputs switchbox mux_sel fuel routes outs = Val routes' →
  k ∈ dict_keys routes' ↔ k ∈ dict_keys routes ∨ k ∈ OutputPin.name <$> outs.
Proof.
  revert routes. induction outs as [|p outs IH]; intros routes; simpl.
  - intros [= <-]. rewrite elem_of_nil. tauto.
  - destruct (head (OutputPin.locs p)) as [out_loc|]; simpl; [|done].
    destruct (expand_mux _ _ _ out_loc) as [inp| |]; simpl; [|done..].
    intros Hdec. rewrite (IH _ Hdec), elem_of_cons.
    rewrite <- !dict_get_is_Some.
    destruct (decide (k = OutputPin.name p)) as [->|Hne].
    + rewrite dict_get_set_eq. split; [|intros _; left; by eexists].
      intros _. right. by left.
    + rewrite dict_get_set_ne by done. tauto.
Qed.

Lemma selection_cons f features t :
  selection (f :: features) t
  = if decide (triple f = t) then Some (RouteEntry.sel_id f)
    else selection features t.
Proof. unfold selection. rewrite filter_cons. by case_decide. Qed.

Lemma selection_None features t :
  t ∉ triple <$> features → selection features t = None.
Proof.
  induction features as [|f features IH]; [done|].
  rewrite fmap_cons, not_elem_of_cons, selection_cons.
  intros [Hne Hin]. rewrite decide_False by done. by apply IH.
Qed.

Lemma selection_elem features f :
  NoDup (triple <$> features) → f ∈ features →
  selection features (triple f) = Some (RouteEntry.sel_id f).
Proof.
  induction features as [|f' features IH]; [by intros _ ?%elem_of_nil|].
  rewrite fmap_cons, selection_cons.
  intros [Hf' Hnd]%NoDup_cons [->|Hin]%elem_of_cons.
  - by rewrite decide_True.
  - rewrite decide_False; [by apply IH|].
    intros Heq. apply Hf'. rewrite Heq. by apply list_elem_of_fmap_2.
Qed.

Lemma selection_Some features t sel :
  selection features t = Some sel →
  ∃ f, f ∈ features ∧ triple f = t ∧ RouteEntry.sel_id f = sel.
Proof.
  induction features as [|f features IH]; [done|].
  rewrite selection_cons. case_decide as Ht.
  - intros [= <-]. exists f. split; [apply list_elem_of_here | done].
  - intros (f' & ? & ? & ?)%IH. exists f'.
    split; [by apply list_elem_of_further | done].
Qed.

(** With pairwise different addresses, the selector of an address does
    not depend on the order of the features. *)
Lemma selection_perm features features' t :
  NoDup (triple <$> features) → features ≡ₚ features' →
  selection features t = selection features' t.
Proof.
  intros Hnd Hperm.
  assert (NoDup (triple <$> features')) as Hnd' by by rewrite <- Hperm.
  destruct (selection features t) as [sel|] eqn:Hsel.
  - apply selection_Some in Hsel as (f & Hin & <- & <-).
    symmetry. apply selection_elem; [done|]. by rewrite <- Hperm.
  - destruct (selection features' t) as [sel|] eqn:Hsel'; [|done].
    apply selection_Some in Hsel' as (f & Hin & <- & <-).
    rewrite <- Hperm in Hin. by rewrite selection_elem in Hsel.
Qed.

Lemma holds_selection_init :
  holds_selection switchbox (mux_sel_init switchbox) [].
Proof. intros t. split; [apply sel_at_init | apply sel_key_init]. Qed.

Lemma set_features_holds mux_sel done features :
  holds_selection switchbox mux_sel done →
  first_fault switchbox (triple <$> done) features = None →
  ∃ mux_sel',
    set_features mux_sel features = Val mux_sel' ∧
    holds_selection switchbox mux_sel' (rev features ++ done).
Proof.
  revert mux_sel done.
  induction features as [|f features IH]; intros mux_sel done Hm; simpl.
  - intros _. by exists mux_sel.
  - case_decide as Hin; [done|].
    destruct (mux_at switchbox (triple f)) as [mux|] eqn:Hmux; [|done].
    intros Hff. pose proof (proj1 (Hm (triple f))) as Hf.
    rewrite selection_None, Hmux in Hf by done.
    destruct (set_feature_unset _ _ Hf) as (mux_sel1 & -> & Hsel1 & Hkey1).
    simpl.
    destruct (IH mux_sel1 (f :: done)) as (mux_sel' & -> & Hm').
    + intros t. rewrite Hsel1, Hkey1, selection_cons.
      split; [|apply Hm].
      destruct (decide (t = triple f)) as [->|Hne].
      * by rewrite decide_True.
      * rewrite decide_False by done. apply Hm.
    + done.
    + exists mux_sel'. split; [done|]. by rewrite <- app_assoc.
Qed.

Lemma first_fault_None done features :
  first_fault switchbox done features = None →
  NoDup done →
  NoDup ((triple <$> features) ++ done) ∧
  ∀ f, f ∈ features → is_Some (mux_at switchbox (triple f)).
Proof.
  revert done. induction features as [|f features IH]; intros done; simpl.
  - intros _ Hnd. split; [done|]. by intros f ?%elem_of_nil.
  - case_decide as Hin; [done|].
    destruct (mux_at switchbox (triple f)) as [mux|] eqn:Hmux; [|done].
    intros Hff Hnd. destruct (IH _ Hff) as [Hnd' Hdef];
      [by apply NoDup_cons|].
    split.
    + apply NoDup_app in Hnd' as (H1 & H2 & H3).
      apply NoDup_cons. split.
      * intros [Hx|Hx]%elem_of_app; [|done].
        apply (H2 _ Hx). apply list_elem_of_here.
      * apply NoDup_app. split_and!; [done| |done].
        intros x Hx Hx'. apply (H2 _ Hx). by apply list_elem_of_further.
    + intros f' [->|Hf']%elem_of_cons; [by eexists | by apply Hdef].
Qed.

Lemma first_fault_defined seen features :
  NoDup ((triple <$> features) ++ seen) →
  (∀ f, f ∈ features → is_Some (mux_at switchbox (triple f))) →
  first_fault switchbox seen features = None.
Proof.
  revert seen. induction features as [|f features IH]; intros seen; simpl;
    [done|].
  intros [Hf Hnd]%NoDup_cons Hdef.
  rewrite decide_False by (intros ?; apply Hf, elem_of_app; by right).
  destruct (Hdef f) as [mux ->]; [apply list_elem_of_here|].
  apply IH.
  - apply NoDup_app in Hnd as (H1 & H2 & H3).
    apply NoDup_app. split_and!; [done| |].
    + intros x Hx [->|Hx']%elem_of_cons.
      * apply Hf, elem_of_app. by left.
      * by apply (H2 x).
    + apply NoDup_cons. split; [|done].
      intros ?. apply Hf, elem_of_app. by right.
  - intros f' Hf'. apply Hdef. by apply list_elem_of_further.
Qed.

(** What a call that returns has gone through: the features have
    pairwise different addresses at multiplexers of the topology, and
    the routes come from the table that holds their selectors. *)
Lemma decode_switchbox_Val fuel features routes :
  decode_switchbox switchbox fuel features = Val routes →
  NoDup (triple <$> features) ∧
  (∀ f, f ∈ features → is_Some (mux_at switchbox (triple f))) ∧
  ∃ mux_sel,
    holds_selection switchbox mux_sel features ∧
    decode_outputs switchbox mux_sel fuel [] (Switchbox.outputs switchbox)
    = Val routes.
Proof.
  rewrite decode_switchbox_fault.
  destruct (first_fault switchbox [] features) eqn:Hff; [done|].
  destruct (first_fault_None _ _ Hff) as [Hnd Hdef]; [apply NoDup_nil_2|].
  rewrite app_nil_r in Hnd.
  destruct (set_features_holds _ [] features holds_selection_init Hff)
    as (mux_sel & -> & Hm).
  simpl. intros Hdec. split_and!; [done..|].
  exists mux_sel. split; [|done].
  intros t. destruct (Hm t) as [-> Hkey]. split; [|done].
  rewrite app_nil_r.
  assert (rev features ≡ₚ features) as Hperm
    by (symmetry; apply Permutation_rev).
  rewrite (selection_perm (rev features) features); [done| |done].
  by rewrite Hperm.
Qed.
End RouteFacts.

(** Whenever [decode_switchbox] returns, whatever the features, the keys
    of the route map are exactly the names of the output pins of the
    switchbox. *)
Theorem decode_switchbox_keys (switchbox : Switchbox.t) (fuel : nat)
    (features : list RouteEntry.t) (routes : dict string (option string)) :
  decode_switchbox switchbox fuel features = Val routes →
  ∀ name, name ∈ dict_keys routes
          ↔ name ∈ OutputPin.name <$> Switchbox.outputs switchbox.
Proof.
  intros (_ & _ & mux_sel & _ & Hdec)%decode_switchbox_Val name.
  rewrite (decode_outputs_keys _ _ _ _ _ _ name Hdec).
  unfold dict_keys at 1. simpl. rewrite elem_of_nil. tauto.
Qed.

(** An output pin whose multiplexer is set by a feature to an input pin
    with a name is routed to that name, when the call returns and no other
    output pin has the same name. *)
Theorem decode_switchbox_direct (switchbox : Switchbox.t) (fuel : nat)
    (features : list RouteEntry.t) (routes : dict string (option string))
    (out_pin : OutputPin.t) (out_loc : SwitchboxPinLoc.t)
    (feature : RouteEntry.t) (mux : Mux.t) (pin : MuxPin.t) (name : string) :
  decode_switchbox switchbox (S fuel) features = Val routes →
  NoDup (OutputPin.name <$> Switchbox.outputs switchbox) →
  out_pin ∈ Switchbox.outputs switchbox →
  head (OutputPin.locs out_pin) = Some out_loc →
  feature ∈ features → triple feature = loc_triple out_loc →
  mux_at switchbox (loc_triple out_loc) = Some mux →
  Mux.inputs mux !! RouteEntry.sel_id feature = Some pin →
  MuxPin.name pin = Some name →
  dict_get (OutputPin.name out_pin) routes = Some (Some name).
Proof.
  intros (Hnd & _ & mux_sel & Hm & Hdec)%decode_switchbox_Val
    Hnames Hout Hloc Hf Ht Hmux Hpin Hname.
  destruct (decode_outputs_get _ _ _ _ _ _ _ Hdec Hnames Hout)
    as (out_loc' & inp & Hloc' & Hexp & ->).
  rewrite Hloc in Hloc'. injection Hloc' as <-.
  rewrite expand_mux_unfold, (proj1 (Hm (loc_triple out_loc))) in Hexp.
  rewrite <- Ht, (selection_elem _ _ Hnd Hf) in Hexp.
  rewrite Ht, Hmux in Hexp. unfold lookup_key in Hexp. simpl in Hexp.
  rewrite Hpin in Hexp. simpl in Hexp. rewrite Hname in Hexp.
  by injection Hexp as <-.
Qed.

Lemma decode_switchbox_keys_witness :
  "TA1" ∈ dict_keys [("TA1", Some "QCK")] ↔ "TA1" ∈ ["TA1"].
Proof.
  apply (decode_switchbox_keys
           (Switchbox.mk
         {[ 0 := Stage.mk {[ 1 := Switch.mk {[ 0 := Mux.mk
              {[ 3 := MuxPin.mk (Some "QCK") ]} ]} ]} ]}
         [OutputPin.mk "TA1" [SwitchboxPinLoc.mk 0 1 0 0 OUTPUT]] [])
           1 [RouteEntry.mk "STREET" 0 1 0 3]).
  by vm_compute.
Defined.

Lemma decode_switchbox_direct_witness :
  dict_get "TA1" [("TA1", Some "QCK")] = Some (Some "QCK").
Proof.
  apply (decode_switchbox_direct
           (Switchbox.mk
         {[ 0 := Stage.mk {[ 1 := Switch.mk {[ 0 := Mux.mk
              {[ 3 := MuxPin.mk (Some "QCK") ]} ]} ]} ]}
         [OutputPin.mk "TA1" [SwitchboxPinLoc.mk 0 1 0 0 OUTPUT]] [])
           0 [RouteEntry.mk "STREET" 0 1 0 3] _
           (OutputPin.mk "TA1" [SwitchboxPinLoc.mk 0 1 0 0 OUTPUT])
           (SwitchboxPinLoc.mk 0 1 0 0 OUTPUT)
           (RouteEntry.mk "STREET" 0 1 0 3)
           (Mux.mk {[ 3 := MuxPin.mk (Some "QCK") ]})
           (MuxPin.mk (Some "QCK")));
    try (by vm_compute); try reflexivity.
  - apply NoDup_singleton.
  - apply list_elem_of_here.
  - apply list_elem_of_here.
Defined.



(** The two orders of two features that address no multiplexer raise
    [KeyError] for different keys: the stage 7 or the stage 9. *)
Lemma decode_switchbox_order_keys :
  decode_switchbox (Switchbox.mk ∅ [] []) 1
    [RouteEntry.mk "STREET" 7 0 0 1; RouteEntry.mk "STREET" 9 0 0 1]
  = Exc (KeyError (KInt 7)) ∧
  decode_switchbox (Switchbox.mk ∅ [] []) 1
    [RouteEntry.mk "STREET" 9 0 0 1; RouteEntry.mk "STREET" 7 0 0 1]
  = Exc (KeyError (KInt 9)).
Proof. split; by vm_compute. Qed.

(** When the multiplexer of the first output pin is set to an input pin
    without a name at which no connection of the switchbox ends, the call
    raises the assertion error for that pin location (the unresolved
    internal pin of the design). *)
Theorem decode_switchbox_unresolved (switchbox : Switchbox.t) (fuel : nat)
    (features : list RouteEntry.t) (out_pin : OutputPin.t)
    (rest : list OutputPin.t) (out_loc : SwitchboxPinLoc.t)
    (feature : RouteEntry.t) (mux : Mux.t) (pin : MuxPin.t) :
  NoDup (triple <$> features) →
  (∀ f, f ∈ features → is_Some (mux_at switchbox (triple f))) →
  Switchbox.outputs switchbox = out_pin :: rest →
  head (OutputPin.locs out_pin) = Some out_loc →
  feature ∈ features → triple feature = loc_triple out_loc →
  mux_at switchbox (loc_triple out_loc) = Some mux →
  Mux.inputs mux !! RouteEntry.sel_id feature = Some pin →
  MuxPin.name pin = None →
  let inp_loc :=
    SwitchboxPinLoc.mk (SwitchboxPinLoc.stage_id out_loc)
      (SwitchboxPinLoc.switch_id out_loc) (SwitchboxPinLoc.mux_id out_loc)
      (RouteEntry.sel_id feature) INPUT in
  conn_by_dst switchbox inp_loc = [] →
  decode_switchbox switchbox (S fuel) features
  = Exc (AssertionError (NoUpstreamConnection inp_loc)) ∧
  UnresolvedInternalPin (AssertionError (NoUpstreamConnection inp_loc)).
Proof.
  intros Hnd Hdef Houts Hloc Hf Ht Hmux Hpin Hname inp_loc Hconn.
  split; [|by eexists].
  rewrite decode_switchbox_fault.
  pose proof (first_fault_defined switchbox [] features) as Hff.
  rewrite app_nil_r in Hff. specialize (Hff Hnd Hdef). rewrite Hff.
  destruct (set_features_holds switchbox _ [] features
              (holds_selection_init switchbox) Hff) as (m & -> & Hm).
  rewrite Houts. cbn [res_bind decode_outputs]. rewrite Hloc.
  cbn [of_option res_bind].
  rewrite expand_mux_unfold, (proj1 (Hm (loc_triple out_loc))), app_nil_r.
  rewrite (selection_perm (rev features) features);
    [| by rewrite <- Permutation_rev | by rewrite <- Permutation_rev].
  rewrite <- Ht, (selection_elem _ _ Hnd Hf), Ht, Hmux.
  unfold lookup_key. cbn [of_option res_bind]. rewrite Hpin.
  cbn [of_option res_bind].
  rewrite Hname. fold inp_loc. by rewrite Hconn.
Qed.

Lemma decode_switchbox_unresolved_witness :
  decode_switchbox
    (Switchbox.mk
       {[ 0 := Stage.mk {[ 1 := Switch.mk {[ 0 := Mux.mk
            {[ 3 := MuxPin.mk None ]} ]} ]} ]}
       [OutputPin.mk "TA1" [SwitchboxPinLoc.mk 0 1 0 0 OUTPUT]] [])
    1 [RouteEntry.mk "STREET" 0 1 0 3]
  = Exc (AssertionError
           (NoUpstreamConnection (SwitchboxPinLoc.mk 0 1 0 3 INPUT))).
Proof.
  refine (proj1 (decode_switchbox_unresolved _ 0
            [RouteEntry.mk "STREET" 0 1 0 3]
            (OutputPin.mk "TA1" [SwitchboxPinLoc.mk 0 1 0 0 OUTPUT]) []
            (SwitchboxPinLoc.mk 0 1 0 0 OUTPUT)
            (RouteEntry.mk "STREET" 0 1 0 3)
            (Mux.mk {[ 3 := MuxPin.mk None ]}) (MuxPin.mk None)
            _ _ _ _ _ _ _ _ _ _));
    try reflexivity; try (by vm_compute).
  - apply NoDup_singleton.
  - intros f ->%list_elem_of_singleton. vm_compute. by eexists.
  - apply list_elem_of_here.
Defined.

(** ** Storing the routes of a switchbox *)

Lemma dict_get2_set2_eq {K1 K2} `{EqDecision K1} `{EqDecision K2} {V}
    (k1 : K1) (k2 : K2) (v : V) (d : dict K1 (dict K2 V)) :
  dict_get2 k1 k2 (dict_set2 k1 k2 v d) = Some v.
Proof.
  unfold dict_get2, dict_set2. rewrite dict_get_set_eq. simpl.
  apply dict_get_set_eq.
Qed.

Lemma dict_get2_set2_ne {K1 K2} `{EqDecision K1} `{EqDecision K2} {V}
    (k1 k1' : K1) (k2 k2' : K2) (v : V) (d : dict K1 (dict K2 V)) :
  (k1, k2) ≠ (k1', k2') →
  dict_get2 k1' k2' (dict_set2 k1 k2 v d) = dict_get2 k1' k2' d.
Proof.
  intros Hne. unfold dict_get2, dict_set2, dict_get_default.
  destruct (decide (k1 = k1')) as [<-|Hk].
  - rewrite dict_get_set_eq. simpl.
    rewrite dict_get_set_ne by congruence.
    destruct (dict_get k1 d); reflexivity.
  - by rewrite dict_get_set_ne.
Qed.

Lemma decode_outputs_wf switchbox mux_sel fuel routes outs routes' :
  decode_outputs switchbox mux_sel fuel routes outs = Val routes' →
  dict_wf routes → dict_wf routes'.
Proof.
  revert routes. induction outs as [|p outs IH]; intros routes; simpl.
  - by intros [= <-].
  - destruct (head _) as [out_loc|]; simpl; [|done].
    destruct (expand_mux _ _ _ _) as [inp| |]; simpl; [|done..].
    intros Hdec Hwf. apply (IH _ Hdec). by apply dict_wf_set.
Qed.

Lemma store_routes_untouched loc routes self k :
  k ∉ dict_keys routes →
  hops_get loc k (designhops (store_routes loc routes self))
  = hops_get loc k (designhops self) ∧
  dict_get2 loc k (designconnections (store_routes loc routes self))
  = dict_get2 loc k (designconnections self).
Proof.
  revert self.
  induction routes as [|[k0 [v|]] routes IH]; intros self; simpl; [done|..];
    intros [Hne Hin]%not_elem_of_cons; [|by apply IH].
  destruct (IH (if is_hop_wire k0
                then set_designhops (hops_set loc k0 v (designhops self)) self
                else set_designconnections
                       (dict_set2 loc k0 v (designconnections self)) self)
              Hin) as [-> ->].
  destruct (is_hop_wire k0); simpl.
  - split; [|done]. apply hops_get_set_ne. congruence.
  - split; [done|]. apply dict_get2_set2_ne. congruence.
Qed.

(** Where a route is stored: a driven output with the name of a hop wire
    in the hop map, a driven output with another name in the connection
    map, an undriven output nowhere. *)
Lemma store_routes_get loc routes self k :
  dict_wf routes →
  let self' := store_routes loc routes self in
  match dict_get k routes with
  | Some (Some v) =>
      if is_hop_wire k
      then hops_get loc k (designhops self') = Some v ∧
           dict_get2 loc k (designconnections self')
           = dict_get2 loc k (designconnections self)
      else dict_get2 loc k (designconnections self') = Some v ∧
           hops_get loc k (designhops self')
           = hops_get loc k (designhops self)
  | _ =>
      hops_get loc k (designhops self') = hops_get loc k (designhops self) ∧
      dict_get2 loc k (designconnections self')
      = dict_get2 loc k (designconnections self)
  end.
Proof.
  revert self. induction routes as [|[k0 v0] routes IH]; intros self Hwf;
    [done|].
  apply NoDup_cons in Hwf as [Hk0 Hwf]. cbn [dict_get].
  destruct (decide (k = k0)) as [->|Hne].
  - destruct v0 as [v|]; cbn [store_routes].
    + destruct (store_routes_untouched loc routes
                  (if is_hop_wire k0
                   then set_designhops
                          (hops_set loc k0 v (designhops self)) self
                   else set_designconnections
                          (dict_set2 loc k0 v (designconnections self)) self)
                  k0 Hk0) as [H1 H2].
      destruct (is_hop_wire k0); simpl in *.
      * rewrite H1, H2. split; [apply hops_get_set_eq | done].
      * rewrite H1, H2. split; [apply dict_get2_set2_eq | done].
    + by apply store_routes_untouched.
  - destruct v0 as [v|]; cbn [store_routes]; [|by apply IH].
    specialize (IH (if is_hop_wire k0
                    then set_designhops
                           (hops_set loc k0 v (designhops self)) self
                    else set_designconnections
                           (dict_set2 loc k0 v (designconnections self)) self)
                  Hwf).
    assert (hops_get loc k
              (designhops
                 (if is_hop_wire k0
                  then set_designhops
                         (hops_set loc k0 v (designhops self)) self
                  else set_designconnections
                         (dict_set2 loc k0 v (designconnections self)) self))
            = hops_get loc k (designhops self)) as Hh.
    { destruct (is_hop_wire k0); simpl; [|done].
      apply hops_get_set_ne. congruence. }
    assert (dict_get2 loc k
              (designconnections
                 (if is_hop_wire k0
                  then set_designhops
                         (hops_set loc k0 v (designhops self)) self
                  else set_designconnections
                         (dict_set2 loc k0 v (designconnections self)) self))
            = dict_get2 loc k (designconnections self)) as Hc.
    { destruct (is_hop_wire k0); simpl; [done|].
      apply dict_get2_set2_ne. congruence. }
    simpl in IH. rewrite Hh, Hc in IH. exact IH.
Qed.

(** When [process_switchbox] returns, every output pin of the switchbox
    that is driven is stored at the location of the switchbox, in the hop
    map if its name starts like a hop wire and in the connection map
    otherwise, and nothing is stored for an output pin that is not driven. *)
Theorem process_switchbox_partition (fuel : nat) (self self' : Fasm2Bels string)
    (loc : Loc) (switchbox : Switchbox.t) (features : list RouteEntry.t) :
  process_switchbox fuel self loc switchbox features = Ok self' →
  ∃ routes,
    decode_switchbox switchbox fuel features = Val routes ∧
    ∀ k,
      match dict_get k routes with
      | Some (Some v) =>
          if is_hop_wire k
          then hops_get loc k (designhops self') = Some v ∧
               dict_get2 loc k (designconnections self')
               = dict_get2 loc k (designconnections self)
          else dict_get2 loc k (designconnections self') = Some v ∧
               hops_get loc k (designhops self')
               = hops_get loc k (designhops self)
      | _ =>
          hops_get loc k (designhops self')
          = hops_get loc k (designhops self) ∧
          dict_get2 loc k (designconnections self')
          = dict_get2 loc k (designconnections self)
      end.
Proof.
  unfold process_switchbox.
  destruct (decode_switchbox switchbox fuel features) as [routes| |] eqn:Hdec;
    [|done..].
  intros [= <-]. exists routes. split; [done|]. intros k.
  apply store_routes_get.
  apply decode_switchbox_Val in Hdec as (_ & _ & mux_sel & _ & Hdec).
  eapply decode_outputs_wf; [exact Hdec | apply NoDup_nil_2].
Qed.

Lemma process_switchbox_partition_witness :
  dict_get2 (3, 4) "TA1"
    (designconnections
       (mkFasm2Bels [] [] None [] [((3, 4), [("TA1", "QCK")])]
          (hops_set (3, 4) "H2R1" "V1T0_T1" ∅)))
  = Some "QCK" ∧
  hops_get (3, 4) "H2R1"
    (designhops
       (mkFasm2Bels [] [] None [] [((3, 4), [("TA1", "QCK")])]
          (hops_set (3, 4) "H2R1" "V1T0_T1" ∅)))
  = Some "V1T0_T1".
Proof.
  destruct (process_switchbox_partition 1 init
              (mkFasm2Bels [] [] None [] [((3, 4), [("TA1", "QCK")])]
                 (hops_set (3, 4) "H2R1" "V1T0_T1" ∅))
              (3, 4)
              (Switchbox.mk
                 {[ 0 := Stage.mk {[ 1 := Switch.mk
                      {[ 0 := Mux.mk {[ 3 := MuxPin.mk (Some "QCK") ]};
                         1 := Mux.mk {[ 2 := MuxPin.mk (Some "V1T0_T1") ]}
                      ]} ]} ]}
                 [OutputPin.mk "TA1" [SwitchboxPinLoc.mk 0 1 0 0 OUTPUT];
                  OutputPin.mk "H2R1" [SwitchboxPinLoc.mk 0 1 1 0 OUTPUT]] [])
              [RouteEntry.mk "STREET" 0 1 0 3;
               RouteEntry.mk "STREET" 0 1 1 2])
    as (routes & Hdec & Hk); [by vm_compute|].
  vm_compute in Hdec. injection Hdec as <-.
  split; [exact (proj1 (Hk "TA1")) | exact (proj1 (Hk "H2R1"))].
Defined.

(** [process_switchbox] writes at the location of its switchbox only: when
    it returns, both maps are as before at every other location, and the
    routing data and the settings are as before; when decoding raises, the
    object is as before. *)
Theorem process_switchbox_local (fuel : nat) (self : Fasm2Bels string)
    (loc : Loc) (switchbox : Switchbox.t) (features : list RouteEntry.t) :
  match process_switchbox fuel self loc switchbox features with
  | Ok self' =>
      (∀ loc', loc' ≠ loc →
         dict_get loc' (designconnections self')
         = dict_get loc' (designconnections self) ∧
         designhops self' !! loc' = designhops self !! loc') ∧
      routingdata self' = routingdata self ∧
      belinversions self' = belinversions self ∧
      interfaces self' = interfaces self
  | Raise e s => s = self
  | Diverge => True
  end.
Proof.
  unfold process_switchbox.
  destruct (decode_switchbox switchbox fuel features) as [routes| |];
    [|done..].
  split_and!.
  - intros loc' Hne. by apply store_routes_other.
  - apply store_routes_routingdata.
  - generalize self. induction routes as [|[k [v|]] routes IH]; intros s;
      simpl; [done| |apply IH].
    rewrite IH. by destruct (is_hop_wire k).
  - generalize self. induction routes as [|[k [v|]] routes IH]; intros s;
      simpl; [done| |apply IH].
    rewrite IH. by destruct (is_hop_wire k).
Qed.

(** ** Following hops *)

(** Resolving a hop name is moving by its offset and then, if the hop
    table of the new location has an entry for the base name, resolving
    the value of this entry from there; without such an entry the result is
    the new location with the base name.  The lookup leaves an empty table
    at the new location if it had none.  One more iteration of the loop is
    needed than for the value. *)
Theorem resolve_hop_step
    (get_name_and_hop : string → string * option (Z * Z))
    (hops : gmap Loc (gmap string string)) (fuel : nat) (loc : Loc)
    (source name : string) (off : Z * Z) :
  get_name_and_hop source = (name, Some off) →
  let tloc := (loc.1 + off.1, loc.2 + off.2) in
  resolve_hop get_name_and_hop hops (S fuel) loc source
  = match hops_get tloc name hops with
    | Some v => resolve_hop get_name_and_hop (hops_touch tloc hops) fuel tloc v
    | None => Some ((tloc, name), hops_touch tloc hops)
    end.
Proof.
  intros Hsrc tloc. unfold resolve_hop at 1. rewrite Hsrc.
  cbn [fst snd hop_loop hop_iter]. fold tloc. rewrite hops_get_touch.
  destruct (hops_get tloc name hops) as [v|]; [|done].
  unfold resolve_hop. by destruct (get_name_and_hop v) as [name' [off'|]].
Qed.

Lemma resolve_hop_step_witness :
  resolve_hop get_name_and_hop_model ∅ 1 (2, 3) "V1T0_T1"
  = Some (((2, 4), "V1T0"), {[ (2, 4) := ∅ ]}).
Proof.
  rewrite (resolve_hop_step get_name_and_hop_model ∅ 0 (2, 3) "V1T0_T1"
             "V1T0" (0, 1)); [|reflexivity].
  by vm_compute.
Defined.

(** When [resolve_hops] returns, the connection map has the same
    locations and pins as before, and the source of each connection is the
    resolution of the source it had, from the location of the connection
    and with the hop tables as they were at the start.  The hop tables
    hold the same hops as before: a table is as it was, or it is an empty
    table where there was none.  No other attribute of the object
    changes. *)
Theorem resolve_hops_pointwise
    (get_name_and_hop : string → string * option (Z * Z)) (fuel : nat)
    (self : Fasm2Bels string) (self' : Fasm2Bels (Loc * string)) :
  resolve_hops get_name_and_hop fuel self = Ok self' →
  (∀ loc pin,
     dict_get2 loc pin (designconnections self')
     = source ← dict_get2 loc pin (designconnections self);
       fst <$> resolve_hop get_name_and_hop (designhops self) fuel loc
                 source) ∧
  dict_keys (designconnections self') = dict_keys (designconnections self) ∧
  (∀ loc, designhops self' !! loc = designhops self !! loc ∨
          (designhops self !! loc = None ∧
           designhops self' !! loc = Some ∅)) ∧
  (∀ loc k, hops_get loc k (designhops self')
            = hops_get loc k (designhops self)) ∧
  routingdata self' = routingdata self ∧
  belinversions self' = belinversions self ∧
  interfaces self' = interfaces self.
Proof.
  intros Hres.
  pose proof (resolve_hops_result get_name_and_hop fuel self) as Hr.
  destruct (all_resolution _ _ _ _) as [dc|] eqn:Hall;
    [|by rewrite Hr in Hres].
  destruct Hr as (hops' & Ht & _ & Hr). rewrite Hr in Hres.
  injection Hres as <-.
  cbn [designhops designconnections set_designhops set_designconnections
       routingdata belinversions interfaces].
  split_and!; try done.
  - intros loc pin. unfold dict_get2.
    destruct (dict_get loc (designconnections self)) as [conns|] eqn:Hconns.
    + destruct (all_resolution_get _ _ _ _ _ _ _ Hall Hconns)
        as (conns' & Hc & ->). simpl.
      destruct (dict_get pin conns) as [source|] eqn:Hpin.
      * destruct (conns_resolution_get _ _ _ _ _ _ _ _ Hc Hpin)
          as (r & Hr' & ->). simpl.
        rewrite (resolve_hop_result _ (designhops self) (designhops self))
          by apply hops_touched_refl.
        by rewrite Hr'.
      * simpl. clear Hconns Hall. revert conns' Hc.
        induction conns as [|[pin' source'] conns IH]; intros conns'; simpl.
        { by intros [= <-]. }
        simpl in Hpin. destruct (decide (pin = pin')); [done|].
        destruct (hop_resolution _ _ _ _ source') as [r|]; [|done]. simpl.
        destruct (conns_resolution _ _ _ _ conns) as [rest|]; [|done]. simpl.
        intros [= <-]. simpl. rewrite decide_False by done. by apply IH.
    + simpl. by rewrite (all_resolution_get_None _ _ _ _ _ _ Hall Hconns).
  - clear Hr Ht. revert dc Hall. generalize (designconnections self).
    induction l as [|[loc conns] l IH]; intros dc; simpl.
    + by intros [= <-].
    + destruct (conns_resolution _ _ _ _ conns) as [c|]; [|done]. simpl.
      destruct (all_resolution _ _ _ l) as [rest|]; [|done]. simpl.
      intros [= <-]. unfold dict_keys in *. simpl. f_equal. by apply IH.
  - intros loc k. by apply hops_touched_get.
Qed.

Lemma resolve_hops_pointwise_witness :
  ∃ self',
    resolve_hops get_name_and_hop_model 1
      (set_designconnections [((2, 3), [("TA1", "V1T0_T1")])] (@init string))
    = Ok self' ∧
    dict_get2 (2, 3) "TA1" (designconnections self') = Some ((2, 4), "V1T0") ∧
    designhops self' !! (2, 4) = Some ∅.
Proof.
  exists (mkFasm2Bels [] [] None [] [((2, 3), [("TA1", ((2, 4), "V1T0"))])]
            {[ (2, 4) := ∅ ]}).
  assert (resolve_hops get_name_and_hop_model 1
            (set_designconnections [((2, 3), [("TA1", "V1T0_T1")])]
               (@init string))
          = Ok (mkFasm2Bels [] [] None []
                  [((2, 3), [("TA1", ((2, 4), "V1T0"))])]
                  {[ (2, 4) := ∅ ]})) as Hres by by vm_compute.
  split; [exact Hres|].
  destruct (resolve_hops_pointwise get_name_and_hop_model 1 _ _ Hres)
    as (Hget & _ & _).
  split; [|by vm_compute].
  rewrite (Hget (2, 3) "TA1"). by vm_compute.
Defined.

(** ** Remapping of locations *)

(** [remap_multiloc_loc] returns the location it is given or the canonical
    location of a cell whose footprint contains that location; a location
    in no footprint is returned as it is, whatever the pin and the cell
    type. *)
Theorem remap_multiloc_loc_range
    (multiloccells : dict string MultiLocCellMapping.t) (loc : Loc)
    (pinname celltype : option string) :
  (remap_multiloc_loc multiloccells loc pinname celltype = loc ∨
   ∃ a, a ∈ dict_values multiloccells ∧
        loc ∈ MultiLocCellMapping.fromlocset a ∧
        remap_multiloc_loc multiloccells loc pinname celltype
        = MultiLocCellMapping.toloc a) ∧
  ((∀ a, a ∈ dict_values multiloccells →
         loc ∉ MultiLocCellMapping.fromlocset a) →
   remap_multiloc_loc multiloccells loc pinname celltype = loc).
Proof.
  pose proof (remap_in_cases (dict_values multiloccells) loc pinname celltype)
    as Hcases.
  split; [exact Hcases|]. intros Hout.
  destruct Hcases as [?|(a & Ha & Hin & _)]; [done|]. by destruct (Hout a).
Qed.

(** Without a pin name the cell type given is not looked at: the result
    is the canonical location of the first mapping of the table whose
    footprint contains the location, also when this mapping is that of
    another cell type. *)
Theorem remap_multiloc_loc_no_pin
    (multiloccells : dict string MultiLocCellMapping.t) (loc : Loc)
    (celltype : option string) :
  remap_multiloc_loc multiloccells loc None celltype
  = from_option MultiLocCellMapping.toloc loc
      (head (filter (λ a, loc ∈ MultiLocCellMapping.fromlocset a)
               (dict_values multiloccells))).
Proof.
  unfold remap_multiloc_loc.
  induction (dict_values multiloccells) as [|a mappings IH]; [done|].
  rewrite filter_cons. cbn [remap_in orb andb].
  destruct (decide (loc ∈ MultiLocCellMapping.fromlocset a)) as [Hin|Hin].
  - by rewrite bool_decide_eq_true_2.
  - by rewrite bool_decide_eq_false_2.
Qed.

(** ** What unification writes *)

Lemma entries_cons {K1 K2 V} (k1 : K1) (inner : dict K2 V)
    (d : dict K1 (dict K2 V)) :
  entries ((k1, inner) :: d) = ((λ kv, (k1, kv.1, kv.2)) <$> inner) ++ entries d.
Proof.
  unfold entries. cbn [mbind list_bind]. f_equal.
  induction inner as [|[k2 v] inner IH]; [done|].
  cbn [mbind list_bind fmap list_fmap fst snd app]. by rewrite IH.
Qed.

Lemma foldl_entries {K1 K2 V A} (f : A → K1 * K2 * V → A) (acc : A)
    (d : dict K1 (dict K2 V)) :
  foldl (λ acc '(k1, inner),
           foldl (λ acc '(k2, v), f acc (k1, k2, v)) acc inner) acc d
  = foldl f acc (entries d).
Proof.
  revert acc. induction d as [|[k1 inner] d IH]; intros acc; [done|].
  rewrite entries_cons, foldl_app. cbn [foldl]. rewrite IH. f_equal.
  generalize acc. induction inner as [|[k2 v] inner IHi]; intros a; [done|].
  cbn [foldl fmap list_fmap fst snd]. apply IHi.
Qed.

Lemma dict_get2_extend2_eq (k1 : Loc) (k2 : string) (l : list string)
    (d : dict Loc (dict string (list string))) :
  dict_get2 k1 k2 (dict_extend2 k1 k2 l d)
  = Some (default [] (dict_get2 k1 k2 d) ++ l).
Proof.
  unfold dict_get2, dict_extend2, dict_get_default.
  rewrite dict_get_set_eq. simpl. rewrite dict_get_set_eq.
  destruct (dict_get k1 d); reflexivity.
Qed.

Lemma dict_get2_extend2_ne (k1 k1' : Loc) (k2 k2' : string) (l : list string)
    (d : dict Loc (dict string (list string))) :
  (k1, k2) ≠ (k1', k2') →
  dict_get2 k1' k2' (dict_extend2 k1 k2 l d) = dict_get2 k1' k2' d.
Proof.
  intros Hne. unfold dict_get2, dict_extend2, dict_get_default.
  destruct (decide (k1 = k1')) as [<-|Hk].
  - rewrite dict_get_set_eq. simpl.
    rewrite dict_get_set_ne by congruence.
    destruct (dict_get k1 d); reflexivity.
  - by rewrite dict_get_set_ne.
Qed.

Section UnifyFacts.
Variable multiloccells : dict string MultiLocCellMapping.t.

Local Abbreviation remap := (remap_multiloc_loc multiloccells).

Lemma unify_conns_entries dc :
  unify_conns multiloccells dc
  = foldl (λ acc (e : Loc * string * (Loc * string)),
             dict_set2 (remap e.1.1 (Some e.1.2) None) e.1.2
               (remap e.2.1 (Some e.2.2) None, e.2.2) acc)
      [] (entries dc).
Proof.
  rewrite <- foldl_entries. reflexivity.
Qed.

Lemma unify_bels_entries bels :
  unify_bels multiloccells bels
  = foldl (λ acc (e : Loc * string * list string),
             if dict_get e.1.2 multiloccells is Some _
             then dict_extend2 (remap e.1.1 None (Some e.1.2)) e.1.2 e.2 acc
             else acc)
      [] (entries bels).
Proof.
  rewrite <- foldl_entries. reflexivity.
Qed.
End UnifyFacts.

(** After [resolve_multiloc_cells], the connection map holds at a
    location and pin the last of the connections that were moved there, in
    the order of iteration of the old map: a connection moved onto the place
    of an earlier one replaces it.  A place onto which no connection is
    moved has no entry. *)
Theorem resolve_multiloc_cells_conns
    (multiloccells : dict string MultiLocCellMapping.t)
    (self : Fasm2Bels (Loc * string)) (loc : Loc) (pin : string) :
  dict_get2 loc pin
    (designconnections (resolve_multiloc_cells multiloccells self))
  = last (moved_conns multiloccells (designconnections self) loc pin).
Proof.
  cbn [resolve_multiloc_cells designconnections set_designconnections].
  rewrite unify_conns_entries. unfold moved_conns.
  induction (entries (designconnections self)) as [|e es IH] using rev_ind;
    [done|].
  rewrite foldl_app, filter_app, fmap_app. cbn [foldl].
  rewrite filter_cons, filter_nil.
  destruct (decide (e.1.2 = pin ∧
                    remap_multiloc_loc multiloccells e.1.1 (Some pin) None
                    = loc)) as [[Hp Hl]|Hne].
  - simpl (_ <$> [e]). rewrite last_snoc. subst pin. rewrite Hl.
    apply dict_get2_set2_eq.
  - simpl (_ <$> []). rewrite app_nil_r, <- IH. apply dict_get2_set2_ne.
    intros [= Hl Hp]. apply Hne. by subst.
Qed.

Lemma unify_bels_get (multiloccells : dict string MultiLocCellMapping.t)
    (bels : settings) (loc : Loc) (typ : string) :
  dict_get2 loc typ (unify_bels multiloccells bels)
  = match moved_settings multiloccells bels loc typ with
    | [] => None
    | ls => Some (concat ls)
    end.
Proof.
  rewrite unify_bels_entries. unfold moved_settings.
  induction (entries bels) as [|e es IH] using rev_ind; [done|].
  rewrite foldl_app, filter_app, fmap_app. cbn [foldl].
  rewrite filter_cons, filter_nil.
  set (ls := (λ e : Loc * string * list string, e.2) <$> filter _ es) in *.
  destruct (decide (e.1.2 = typ ∧ is_Some (dict_get typ multiloccells) ∧
                    remap_multiloc_loc multiloccells e.1.1 None (Some typ)
                    = loc)) as [(Ht & [a Ha] & Hl)|Hne].
  - subst typ. rewrite Ha, Hl, dict_get2_extend2_eq, IH.
    simpl (_ <$> [e]).
    destruct ls as [|l0 ls].
    + simpl. by rewrite app_nil_r.
    + simpl. rewrite concat_app. simpl. by rewrite app_nil_r, <- app_assoc.
  - simpl (_ <$> []). rewrite app_nil_r, <- IH.
    destruct (dict_get e.1.2 multiloccells) as [a|] eqn:Ha; [|done].
    apply dict_get2_extend2_ne. intros [= Hl Ht]. apply Hne.
    subst typ. split_and!; [done | by eexists | done].
Qed.

(** The map that [resolve_multiloc_cells] builds for the settings, and
    stores in [belinversion], holds at a location and cell type the
    settings of that cell type from all the locations that are remapped to
    this location, each once and in the order of iteration; a place to
    which nothing is remapped has no entry. *)
Theorem resolve_multiloc_cells_bels
    (multiloccells : dict string MultiLocCellMapping.t)
    (self : Fasm2Bels (Loc * string)) :
  ∃ newbelinversions,
    belinversion (resolve_multiloc_cells multiloccells self)
    = Some newbelinversions ∧
    ∀ loc typ,
      dict_get2 loc typ newbelinversions
      = match moved_settings multiloccells (belinversions self) loc typ with
        | [] => None
        | ls => Some (concat ls)
        end.
Proof.
  eexists. split; [done|]. intros loc typ. apply unify_bels_get.
Qed.

(** The settings of a cell type that is not in the table of
    multi-location cells are not taken over into the map that
    [resolve_multiloc_cells] builds: it has no entry for this cell type at
    any location. *)
Theorem resolve_multiloc_cells_drops
    (multiloccells : dict string MultiLocCellMapping.t)
    (self : Fasm2Bels (Loc * string)) (typ : string) :
  dict_get typ multiloccells = None →
  ∃ newbelinversions,
    belinversion (resolve_multiloc_cells multiloccells self)
    = Some newbelinversions ∧
    ∀ loc, dict_get2 loc typ newbelinversions = None.
Proof.
  intros Hnone. eexists. split; [done|]. intros loc.
  rewrite unify_bels_get. unfold moved_settings.
  induction (entries (belinversions self)) as [|e es IH]; [done|].
  rewrite filter_cons.
  destruct (decide _) as [(_ & [a Ha] & _)|_]; [congruence | exact IH].
Qed.

Lemma resolve_multiloc_cells_drops_witness :
  ∃ newbelinversions,
    belinversion
      (resolve_multiloc_cells []
         (mkFasm2Bels [] [((1, 2), [("LOGIC", ["ZINV.QCK"])])] None [] [] ∅))
    = Some newbelinversions ∧
    ∀ loc, dict_get2 loc "LOGIC" newbelinversions = None.
Proof.
  apply (resolve_multiloc_cells_drops []
           (mkFasm2Bels [] [((1, 2), [("LOGIC", ["ZINV.QCK"])])] None [] [] ∅)
           "LOGIC").
  reflexivity.
Defined.

(** ** The order of the locations *)

Lemma loc_le_antisym (a b : Loc) : loc_le a b → loc_le b a → a = b.
Proof.
  unfold loc_le. destruct a as [ax ay], b as [bx by_]. simpl.
  rewrite !orb_True, !andb_True.
  rewrite !Is_true_true, !Z.ltb_lt, !Z.eqb_eq, !Z.leb_le.
  intros H1 H2. f_equal; lia.
Qed.

Lemma sorted_insert_perm a l : sorted_insert a l ≡ₚ a :: l.
Proof.
  induction l as [|b l IH]; simpl; [done|].
  destruct (loc_le a b); [done|]. rewrite IH. apply perm_swap.
Qed.

Lemma sorted_perm l : sorted l ≡ₚ l.
Proof.
  induction l as [|a l IH]; simpl; [done|].
  by rewrite sorted_insert_perm, IH.
Qed.

(** The sorted list of keys does not depend on the order of the keys. *)
Lemma sorted_of_perm l1 l2 : l1 ≡ₚ l2 → sorted l1 = sorted l2.
Proof.
  intros Hp.
  apply (StronglySorted_unique_strong (λ x y : Loc, loc_le x y)).
  - intros x1 x2 _ _. apply loc_le_antisym.
  - apply sorted_sorted.
  - apply sorted_sorted.
  - by rewrite !sorted_perm.
Qed.

Lemma dict_get_elem_wf {K} `{EqDecision K} {V} (k : K) (v : V)
    (d : dict K V) :
  dict_wf d → (k, v) ∈ d → dict_get k d = Some v.
Proof.
  unfold dict_wf, dict_keys.
  induction d as [|[k' v'] d IH]; intros Hwf Hin; [by apply elem_of_nil in Hin|].
  rewrite fmap_cons in Hwf. apply NoDup_cons in Hwf as [Hk' Hwf]. simpl in *.
  apply elem_of_cons in Hin as [[= -> ->]|Hin].
  - by rewrite decide_True.
  - destruct (decide (k = k')) as [->|Hne]; [|by apply IH].
    exfalso. apply Hk'. apply list_elem_of_fmap. by exists (k', v).
Qed.

Lemma dict_get_perm {K} `{EqDecision K} {V} (k : K) (d d' : dict K V) :
  dict_wf d → d' ≡ₚ d → dict_get k d' = dict_get k d.
Proof.
  intros Hwf Hp. destruct (dict_get k d') as [v|] eqn:Hget.
  - symmetry. apply dict_get_elem_wf; [done|].
    rewrite <- Hp. by apply dict_get_Some_elem.
  - symmetry. apply dict_get_None. apply dict_get_None in Hget.
    unfold dict_keys in *. by rewrite <- Hp.
Qed.

Section ResolveOrderFacts.
Variable vpr_switchbox_grid : gmap Loc string.
Variable vpr_switchbox_types : gmap string Switchbox.t.

Lemma resolve_connections_at_reorder fuel self rd loc :
  (∀ k, dict_get k rd = dict_get k (routingdata self)) →
  resolve_connections_at vpr_switchbox_grid vpr_switchbox_types fuel
    (set_routingdata rd self) loc
  = outcome_map (set_routingdata rd) (set_routingdata rd)
      (resolve_connections_at vpr_switchbox_grid vpr_switchbox_types fuel
         self loc).
Proof.
  intros Hget. unfold resolve_connections_at, process_switchbox. simpl.
  unfold dict_get_default. rewrite Hget.
  repeat case_match; simpl; try done.
  by rewrite store_routes_set_routingdata.
Qed.

Lemma resolve_connections_loop_reorder fuel self rd keys :
  (∀ k, dict_get k rd = dict_get k (routingdata self)) →
  resolve_connections_loop vpr_switchbox_grid vpr_switchbox_types fuel
    (set_routingdata rd self) keys
  = outcome_map (set_routingdata rd) (set_routingdata rd)
      (resolve_connections_loop vpr_switchbox_grid vpr_switchbox_types fuel
         self keys).
Proof.
  revert self. induction keys as [|k keys IH]; intros self Hget; [done|].
  cbn [resolve_connections_loop].
  rewrite resolve_connections_at_reorder by done.
  destruct (resolve_connections_at _ _ fuel self k) as [self'| |] eqn:Hbody;
    simpl; [|done..].
  apply IH. intros k'.
  by rewrite (resolve_connections_at_routingdata _ _ _ _ _ _ Hbody).
Qed.
End ResolveOrderFacts.

(** [resolve_connections] visits the locations in the order of their
    coordinates, so its result does not depend on the order in which the
    locations were entered into [routingdata]: with the entries of
    [routingdata] in another order it ends in the same way, with the same
    exception or the same maps of connections and hops. *)
Theorem resolve_connections_order
    (get_name_and_hop : string → string * option (Z * Z))
    (vpr_switchbox_grid : gmap Loc string)
    (vpr_switchbox_types : gmap string Switchbox.t)
    (fuel : nat) (self : Fasm2Bels string)
    (rd : dict Loc (list RouteEntry.t)) :
  dict_wf (routingdata self) → rd ≡ₚ routingdata self →
  resolve_connections get_name_and_hop vpr_switchbox_grid vpr_switchbox_types
    fuel (set_routingdata rd self)
  = outcome_map (set_routingdata rd) (set_routingdata rd)
      (resolve_connections get_name_and_hop vpr_switchbox_grid
         vpr_switchbox_types fuel self).
Proof.
  intros Hwf Hp. unfold resolve_connections.
  cbn [routingdata set_routingdata].
  rewrite (sorted_of_perm (dict_keys rd) (dict_keys (routingdata self)))
    by (unfold dict_keys; by rewrite Hp).
  rewrite resolve_connections_loop_reorder
    by (intros k; by apply dict_get_perm).
  destruct (resolve_connections_loop _ _ fuel self _) as [self'| |];
    simpl; [|done..].
  apply resolve_hops_set_routingdata.
Qed.

Lemma resolve_connections_order_witness :
  resolve_connections get_name_and_hop_model
    {[ (3, 4) := "SB"; (1, 2) := "SB" ]}
    {[ "SB" := Switchbox.mk
         {[ 0 := Stage.mk {[ 1 := Switch.mk
              {[ 0 := Mux.mk {[ 3 := MuxPin.mk (Some "QCK") ]} ]} ]} ]}
         [OutputPin.mk "TA1" [SwitchboxPinLoc.mk 0 1 0 0 OUTPUT]] [] ]}
    2
    (set_routingdata
       [((1, 2), []); ((3, 4), [RouteEntry.mk "STREET" 0 1 0 3])]
       (set_routingdata
          [((3, 4), [RouteEntry.mk "STREET" 0 1 0 3]); ((1, 2), [])] init))
  = Ok (mkFasm2Bels
          [((1, 2), []); ((3, 4), [RouteEntry.mk "STREET" 0 1 0 3])]
          [] None [] [((3, 4), [("TA1", ((3, 4), "QCK"))])] ∅).
Proof.
  rewrite (resolve_connections_order get_name_and_hop_model).
  - by vm_compute.
  - cbn [routingdata set_routingdata]. unfold dict_wf, dict_keys.
    cbn [fmap list_fmap fst].
    apply NoDup_cons. split; [|apply NoDup_singleton].
    intros Hin. apply list_elem_of_singleton in Hin. discriminate Hin.
  - cbn [routingdata set_routingdata]. apply perm_swap.
Defined.
